(** * Instruction translator: PTC micro-operations to LLVM IR

    A model of [instructiontranslator.cpp].  The translator is a code
    generator: what it returns are LLVM values, so the model has two layers.
    The translator itself is embedded as functions over an explicit builder
    state; the values it builds are kept as terms, and [eval] gives them the
    meaning the LLVM language reference gives the instructions. *)

From stdpp Require Import base option list gmap strings pretty.
From Stdlib Require Import ZArith Lia Bool.

Local Open Scope Z_scope.

(** ** Outcomes of a C++ call

    [Fatal] is a failed [assert] or an [llvm_unreachable]; [Undefined] is
    behaviour the C++ standard leaves undefined (a null dereference, an
    out-of-range [operator[]], an oversized shift). *)

Inductive Outcome (A : Type) : Type :=
  | Done (a : A)
  | Fatal (msg : string)
  | Undefined (msg : string).

Arguments Done {A} a.
Arguments Fatal {A} msg.
Arguments Undefined {A} msg.

(** ** Machine integers of the translator's own arithmetic *)

Module Cxx.

(** [uint64_t] and [unsigned]: arithmetic modulo the width. *)
Definition uint64 (z : Z) : Z := z mod 2 ^ 64.
Definition unsigned (z : Z) : Z := z mod 2 ^ 32.

Definition INT_MIN : Z := - 2 ^ 31.
Definition INT_MAX : Z := 2 ^ 31 - 1.

(** [a << s] on [int] with [a >= 0] and [s] of type [unsigned]: undefined
    when [s] reaches the width of [int], or when [a * 2^s] does not fit
    the corresponding unsigned type; a result above [INT_MAX] converts to
    the negative [int] with the same bits. *)
Definition int_shl (a s : Z) : Outcome Z :=
  if (0 <=? s) && (s <? 32) && (0 <=? a) then
    let r := a * 2 ^ s in
    if r <? 2 ^ 32
    then Done (if r <=? INT_MAX then r else r - 2 ^ 32)
    else Undefined "signed shift overflows"
  else Undefined "shift count not below the width of int".

(** [a - b] on [int]: overflow is undefined. *)
Definition int_sub (a b : Z) : Outcome Z :=
  let r := a - b in
  if (INT_MIN <=? r) && (r <=? INT_MAX) then Done r
  else Undefined "signed overflow".

(** Conversion of an [int] to [uint64_t]. *)
Definition int_to_uint64 (a : Z) : Z := uint64 a.

(** [a << s] on [uint64_t]. *)
Definition uint64_shl (a s : Z) : Outcome Z :=
  if (0 <=? s) && (s <? 64) then Done (uint64 (a * 2 ^ s))
  else Undefined "shift count not below 64".

(** [~a] on [uint64_t]. *)
Definition uint64_not (a : Z) : Z := 2 ^ 64 - 1 - a.

End Cxx.

(** ** PTC opcodes

    The enumeration is declared in [ptcinterface.h]; these are the
    enumerators the translator names.  [PTC_INSTRUCTION_unlisted] stands for
    every other value of the enumeration. *)

Inductive PTCOpcode : Type :=
  | PTC_INSTRUCTION_op_add2_i32
  | PTC_INSTRUCTION_op_add2_i64
  | PTC_INSTRUCTION_op_add_i32
  | PTC_INSTRUCTION_op_add_i64
  | PTC_INSTRUCTION_op_and_i32
  | PTC_INSTRUCTION_op_and_i64
  | PTC_INSTRUCTION_op_andc_i32
  | PTC_INSTRUCTION_op_andc_i64
  | PTC_INSTRUCTION_op_br
  | PTC_INSTRUCTION_op_brcond2_i32
  | PTC_INSTRUCTION_op_brcond_i32
  | PTC_INSTRUCTION_op_brcond_i64
  | PTC_INSTRUCTION_op_bswap16_i32
  | PTC_INSTRUCTION_op_bswap16_i64
  | PTC_INSTRUCTION_op_bswap32_i32
  | PTC_INSTRUCTION_op_bswap32_i64
  | PTC_INSTRUCTION_op_bswap64_i64
  | PTC_INSTRUCTION_op_call
  | PTC_INSTRUCTION_op_debug_insn_start
  | PTC_INSTRUCTION_op_deposit_i32
  | PTC_INSTRUCTION_op_deposit_i64
  | PTC_INSTRUCTION_op_discard
  | PTC_INSTRUCTION_op_div2_i32
  | PTC_INSTRUCTION_op_div2_i64
  | PTC_INSTRUCTION_op_div_i32
  | PTC_INSTRUCTION_op_div_i64
  | PTC_INSTRUCTION_op_divu2_i32
  | PTC_INSTRUCTION_op_divu2_i64
  | PTC_INSTRUCTION_op_divu_i32
  | PTC_INSTRUCTION_op_divu_i64
  | PTC_INSTRUCTION_op_eqv_i32
  | PTC_INSTRUCTION_op_eqv_i64
  | PTC_INSTRUCTION_op_exit_tb
  | PTC_INSTRUCTION_op_ext16s_i32
  | PTC_INSTRUCTION_op_ext16s_i64
  | PTC_INSTRUCTION_op_ext16u_i32
  | PTC_INSTRUCTION_op_ext16u_i64
  | PTC_INSTRUCTION_op_ext32s_i64
  | PTC_INSTRUCTION_op_ext32u_i64
  | PTC_INSTRUCTION_op_ext8s_i32
  | PTC_INSTRUCTION_op_ext8s_i64
  | PTC_INSTRUCTION_op_ext8u_i32
  | PTC_INSTRUCTION_op_ext8u_i64
  | PTC_INSTRUCTION_op_goto_tb
  | PTC_INSTRUCTION_op_ld16s_i32
  | PTC_INSTRUCTION_op_ld16s_i64
  | PTC_INSTRUCTION_op_ld16u_i32
  | PTC_INSTRUCTION_op_ld16u_i64
  | PTC_INSTRUCTION_op_ld32s_i64
  | PTC_INSTRUCTION_op_ld32u_i64
  | PTC_INSTRUCTION_op_ld8s_i32
  | PTC_INSTRUCTION_op_ld8s_i64
  | PTC_INSTRUCTION_op_ld8u_i32
  | PTC_INSTRUCTION_op_ld8u_i64
  | PTC_INSTRUCTION_op_ld_i32
  | PTC_INSTRUCTION_op_ld_i64
  | PTC_INSTRUCTION_op_mov_i32
  | PTC_INSTRUCTION_op_mov_i64
  | PTC_INSTRUCTION_op_movcond_i32
  | PTC_INSTRUCTION_op_movcond_i64
  | PTC_INSTRUCTION_op_movi_i32
  | PTC_INSTRUCTION_op_movi_i64
  | PTC_INSTRUCTION_op_mul_i32
  | PTC_INSTRUCTION_op_mul_i64
  | PTC_INSTRUCTION_op_muls2_i32
  | PTC_INSTRUCTION_op_muls2_i64
  | PTC_INSTRUCTION_op_mulsh_i32
  | PTC_INSTRUCTION_op_mulsh_i64
  | PTC_INSTRUCTION_op_mulu2_i32
  | PTC_INSTRUCTION_op_mulu2_i64
  | PTC_INSTRUCTION_op_muluh_i32
  | PTC_INSTRUCTION_op_muluh_i64
  | PTC_INSTRUCTION_op_nand_i32
  | PTC_INSTRUCTION_op_nand_i64
  | PTC_INSTRUCTION_op_neg_i32
  | PTC_INSTRUCTION_op_neg_i64
  | PTC_INSTRUCTION_op_nor_i32
  | PTC_INSTRUCTION_op_nor_i64
  | PTC_INSTRUCTION_op_not_i32
  | PTC_INSTRUCTION_op_not_i64
  | PTC_INSTRUCTION_op_or_i32
  | PTC_INSTRUCTION_op_or_i64
  | PTC_INSTRUCTION_op_orc_i32
  | PTC_INSTRUCTION_op_orc_i64
  | PTC_INSTRUCTION_op_qemu_ld_i32
  | PTC_INSTRUCTION_op_qemu_ld_i64
  | PTC_INSTRUCTION_op_qemu_st_i32
  | PTC_INSTRUCTION_op_qemu_st_i64
  | PTC_INSTRUCTION_op_rem_i32
  | PTC_INSTRUCTION_op_rem_i64
  | PTC_INSTRUCTION_op_remu_i32
  | PTC_INSTRUCTION_op_remu_i64
  | PTC_INSTRUCTION_op_rotl_i32
  | PTC_INSTRUCTION_op_rotl_i64
  | PTC_INSTRUCTION_op_rotr_i32
  | PTC_INSTRUCTION_op_rotr_i64
  | PTC_INSTRUCTION_op_sar_i32
  | PTC_INSTRUCTION_op_sar_i64
  | PTC_INSTRUCTION_op_set_label
  | PTC_INSTRUCTION_op_setcond2_i32
  | PTC_INSTRUCTION_op_setcond_i32
  | PTC_INSTRUCTION_op_setcond_i64
  | PTC_INSTRUCTION_op_shl_i32
  | PTC_INSTRUCTION_op_shl_i64
  | PTC_INSTRUCTION_op_shr_i32
  | PTC_INSTRUCTION_op_shr_i64
  | PTC_INSTRUCTION_op_st16_i32
  | PTC_INSTRUCTION_op_st16_i64
  | PTC_INSTRUCTION_op_st32_i64
  | PTC_INSTRUCTION_op_st8_i32
  | PTC_INSTRUCTION_op_st8_i64
  | PTC_INSTRUCTION_op_st_i32
  | PTC_INSTRUCTION_op_st_i64
  | PTC_INSTRUCTION_op_sub2_i32
  | PTC_INSTRUCTION_op_sub2_i64
  | PTC_INSTRUCTION_op_sub_i32
  | PTC_INSTRUCTION_op_sub_i64
  | PTC_INSTRUCTION_op_trunc_shr_i32
  | PTC_INSTRUCTION_op_xor_i32
  | PTC_INSTRUCTION_op_xor_i64
  | PTC_INSTRUCTION_unlisted.

Inductive PTCCondition : Type :=
  | PTC_COND_NEVER | PTC_COND_ALWAYS | PTC_COND_EQ | PTC_COND_NE
  | PTC_COND_LT | PTC_COND_GE | PTC_COND_LE | PTC_COND_GT
  | PTC_COND_LTU | PTC_COND_GEU | PTC_COND_LEU | PTC_COND_GTU.

(** ** The LLVM side: types, operations, values *)

Inductive LLVMType : Type :=
  | IntegerTy (bits : Z)
  | PointerTy (pointee : Z)
  | VoidTy.

Inductive BinaryOps : Type :=
  | Add | Sub | Mul | UDiv | SDiv | URem | SRem
  | Shl | LShr | AShr | And | Or | Xor.

Inductive Predicate : Type :=
  | FCMP_FALSE | FCMP_TRUE
  | ICMP_EQ | ICMP_NE
  | ICMP_UGT | ICMP_UGE | ICMP_ULT | ICMP_ULE
  | ICMP_SGT | ICMP_SGE | ICMP_SLT | ICMP_SLE.

Inductive CastOps : Type := Trunc | ZExt | SExt | IntToPtr.

Global Instance LLVMType_eq_dec : EqDecision LLVMType.
Proof. solve_decision. Defined.
Global Instance BinaryOps_eq_dec : EqDecision BinaryOps.
Proof. solve_decision. Defined.
Global Instance Predicate_eq_dec : EqDecision Predicate.
Proof. solve_decision. Defined.
Global Instance CastOps_eq_dec : EqDecision CastOps.
Proof. solve_decision. Defined.
Global Instance PTCOpcode_eq_dec : EqDecision PTCOpcode.
Proof. solve_decision. Defined.

(** ** Opcode semantic tables *)

(** [conditionToPredicate]: the two constant conditions are mapped to
    floating-point predicates. *)
Definition conditionToPredicate (Condition : PTCCondition) : Predicate :=
  match Condition with
  | PTC_COND_NEVER => FCMP_FALSE
  | PTC_COND_ALWAYS => FCMP_TRUE
  | PTC_COND_EQ => ICMP_EQ
  | PTC_COND_NE => ICMP_NE
  | PTC_COND_LT => ICMP_SLT
  | PTC_COND_GE => ICMP_SGE
  | PTC_COND_LE => ICMP_SLE
  | PTC_COND_GT => ICMP_SGT
  | PTC_COND_LTU => ICMP_ULT
  | PTC_COND_GEU => ICMP_UGE
  | PTC_COND_LEU => ICMP_ULE
  | PTC_COND_GTU => ICMP_UGT
  end.

Definition opcodeToBinaryOp (Opcode : PTCOpcode) : Outcome BinaryOps :=
  match Opcode with
  | PTC_INSTRUCTION_op_add_i32 | PTC_INSTRUCTION_op_add_i64
  | PTC_INSTRUCTION_op_add2_i32 | PTC_INSTRUCTION_op_add2_i64 => Done Add
  | PTC_INSTRUCTION_op_sub_i32 | PTC_INSTRUCTION_op_sub_i64
  | PTC_INSTRUCTION_op_sub2_i32 | PTC_INSTRUCTION_op_sub2_i64 => Done Sub
  | PTC_INSTRUCTION_op_mul_i32 | PTC_INSTRUCTION_op_mul_i64 => Done Mul
  | PTC_INSTRUCTION_op_div_i32 | PTC_INSTRUCTION_op_div_i64 => Done SDiv
  | PTC_INSTRUCTION_op_divu_i32 | PTC_INSTRUCTION_op_divu_i64 => Done UDiv
  | PTC_INSTRUCTION_op_rem_i32 | PTC_INSTRUCTION_op_rem_i64 => Done SRem
  | PTC_INSTRUCTION_op_remu_i32 | PTC_INSTRUCTION_op_remu_i64 => Done URem
  | PTC_INSTRUCTION_op_and_i32 | PTC_INSTRUCTION_op_and_i64 => Done And
  | PTC_INSTRUCTION_op_or_i32 | PTC_INSTRUCTION_op_or_i64 => Done Or
  | PTC_INSTRUCTION_op_xor_i32 | PTC_INSTRUCTION_op_xor_i64 => Done Xor
  | PTC_INSTRUCTION_op_shl_i32 | PTC_INSTRUCTION_op_shl_i64 => Done Shl
  | PTC_INSTRUCTION_op_shr_i32 | PTC_INSTRUCTION_op_shr_i64 => Done LShr
  | PTC_INSTRUCTION_op_sar_i32 | PTC_INSTRUCTION_op_sar_i64 => Done AShr
  | _ => Fatal "PTC opcode is not a binary operator"
  end.

(** [getMaxValue]: the largest value of a 32- or 64-bit register. *)
Definition getMaxValue (Bits : Z) : Outcome Z :=
  if Bits =? 32 then Done 4294967295
  else if Bits =? 64 then Done 18446744073709551615
  else Fatal "Not the number of bits in a integer type".

(** [getRegisterSize]: the width of the registers an opcode works on. *)
Definition getRegisterSize (Opcode : PTCOpcode) : Outcome Z :=
  match Opcode with
  | PTC_INSTRUCTION_op_add2_i32 | PTC_INSTRUCTION_op_add_i32
  | PTC_INSTRUCTION_op_andc_i32 | PTC_INSTRUCTION_op_and_i32
  | PTC_INSTRUCTION_op_brcond2_i32 | PTC_INSTRUCTION_op_brcond_i32
  | PTC_INSTRUCTION_op_bswap16_i32 | PTC_INSTRUCTION_op_bswap32_i32
  | PTC_INSTRUCTION_op_deposit_i32 | PTC_INSTRUCTION_op_div2_i32
  | PTC_INSTRUCTION_op_div_i32 | PTC_INSTRUCTION_op_divu2_i32
  | PTC_INSTRUCTION_op_divu_i32 | PTC_INSTRUCTION_op_eqv_i32
  | PTC_INSTRUCTION_op_ext16s_i32 | PTC_INSTRUCTION_op_ext16u_i32
  | PTC_INSTRUCTION_op_ext8s_i32 | PTC_INSTRUCTION_op_ext8u_i32
  | PTC_INSTRUCTION_op_ld16s_i32 | PTC_INSTRUCTION_op_ld16u_i32
  | PTC_INSTRUCTION_op_ld8s_i32 | PTC_INSTRUCTION_op_ld8u_i32
  | PTC_INSTRUCTION_op_ld_i32 | PTC_INSTRUCTION_op_movcond_i32
  | PTC_INSTRUCTION_op_mov_i32 | PTC_INSTRUCTION_op_movi_i32
  | PTC_INSTRUCTION_op_mul_i32 | PTC_INSTRUCTION_op_muls2_i32
  | PTC_INSTRUCTION_op_mulsh_i32 | PTC_INSTRUCTION_op_mulu2_i32
  | PTC_INSTRUCTION_op_muluh_i32 | PTC_INSTRUCTION_op_nand_i32
  | PTC_INSTRUCTION_op_neg_i32 | PTC_INSTRUCTION_op_nor_i32
  | PTC_INSTRUCTION_op_not_i32 | PTC_INSTRUCTION_op_orc_i32
  | PTC_INSTRUCTION_op_or_i32 | PTC_INSTRUCTION_op_qemu_ld_i32
  | PTC_INSTRUCTION_op_qemu_st_i32 | PTC_INSTRUCTION_op_rem_i32
  | PTC_INSTRUCTION_op_remu_i32 | PTC_INSTRUCTION_op_rotl_i32
  | PTC_INSTRUCTION_op_rotr_i32 | PTC_INSTRUCTION_op_sar_i32
  | PTC_INSTRUCTION_op_setcond2_i32 | PTC_INSTRUCTION_op_setcond_i32
  | PTC_INSTRUCTION_op_shl_i32 | PTC_INSTRUCTION_op_shr_i32
  | PTC_INSTRUCTION_op_st16_i32 | PTC_INSTRUCTION_op_st8_i32
  | PTC_INSTRUCTION_op_st_i32 | PTC_INSTRUCTION_op_sub2_i32
  | PTC_INSTRUCTION_op_sub_i32 | PTC_INSTRUCTION_op_trunc_shr_i32
  | PTC_INSTRUCTION_op_xor_i32 => Done 32
  | PTC_INSTRUCTION_op_add2_i64 | PTC_INSTRUCTION_op_add_i64
  | PTC_INSTRUCTION_op_andc_i64 | PTC_INSTRUCTION_op_and_i64
  | PTC_INSTRUCTION_op_brcond_i64 | PTC_INSTRUCTION_op_bswap16_i64
  | PTC_INSTRUCTION_op_bswap32_i64 | PTC_INSTRUCTION_op_bswap64_i64
  | PTC_INSTRUCTION_op_deposit_i64 | PTC_INSTRUCTION_op_div2_i64
  | PTC_INSTRUCTION_op_div_i64 | PTC_INSTRUCTION_op_divu2_i64
  | PTC_INSTRUCTION_op_divu_i64 | PTC_INSTRUCTION_op_eqv_i64
  | PTC_INSTRUCTION_op_ext16s_i64 | PTC_INSTRUCTION_op_ext16u_i64
  | PTC_INSTRUCTION_op_ext32s_i64 | PTC_INSTRUCTION_op_ext32u_i64
  | PTC_INSTRUCTION_op_ext8s_i64 | PTC_INSTRUCTION_op_ext8u_i64
  | PTC_INSTRUCTION_op_ld16s_i64 | PTC_INSTRUCTION_op_ld16u_i64
  | PTC_INSTRUCTION_op_ld32s_i64 | PTC_INSTRUCTION_op_ld32u_i64
  | PTC_INSTRUCTION_op_ld8s_i64 | PTC_INSTRUCTION_op_ld8u_i64
  | PTC_INSTRUCTION_op_ld_i64 | PTC_INSTRUCTION_op_movcond_i64
  | PTC_INSTRUCTION_op_mov_i64 | PTC_INSTRUCTION_op_movi_i64
  | PTC_INSTRUCTION_op_mul_i64 | PTC_INSTRUCTION_op_muls2_i64
  | PTC_INSTRUCTION_op_mulsh_i64 | PTC_INSTRUCTION_op_mulu2_i64
  | PTC_INSTRUCTION_op_muluh_i64 | PTC_INSTRUCTION_op_nand_i64
  | PTC_INSTRUCTION_op_neg_i64 | PTC_INSTRUCTION_op_nor_i64
  | PTC_INSTRUCTION_op_not_i64 | PTC_INSTRUCTION_op_orc_i64
  | PTC_INSTRUCTION_op_or_i64 | PTC_INSTRUCTION_op_qemu_ld_i64
  | PTC_INSTRUCTION_op_qemu_st_i64 | PTC_INSTRUCTION_op_rem_i64
  | PTC_INSTRUCTION_op_remu_i64 | PTC_INSTRUCTION_op_rotl_i64
  | PTC_INSTRUCTION_op_rotr_i64 | PTC_INSTRUCTION_op_sar_i64
  | PTC_INSTRUCTION_op_setcond_i64 | PTC_INSTRUCTION_op_shl_i64
  | PTC_INSTRUCTION_op_shr_i64 | PTC_INSTRUCTION_op_st16_i64
  | PTC_INSTRUCTION_op_st32_i64 | PTC_INSTRUCTION_op_st8_i64
  | PTC_INSTRUCTION_op_st_i64 | PTC_INSTRUCTION_op_sub2_i64
  | PTC_INSTRUCTION_op_sub_i64 | PTC_INSTRUCTION_op_xor_i64 => Done 64
  | PTC_INSTRUCTION_op_br | PTC_INSTRUCTION_op_call
  | PTC_INSTRUCTION_op_debug_insn_start | PTC_INSTRUCTION_op_discard
  | PTC_INSTRUCTION_op_exit_tb | PTC_INSTRUCTION_op_goto_tb
  | PTC_INSTRUCTION_op_set_label => Done 0
  | PTC_INSTRUCTION_unlisted => Fatal "Unexpected opcode"
  end.

(** ** LLVM values

    Instructions are values; an instruction is kept as the term of its
    operands.  [Storage] is a pointer handed out by the variable manager (a
    global or an alloca) to storage of [pointee] bits.  Blocks are referred
    to by their address, a number. *)

#[local] Unset Elimination Schemes.
Inductive Value : Type :=
  | ConstantInt (bits : Z) (val : Z)
  | UndefValue (ty : LLVMType)
  | Storage (id : Z) (pointee : Z)
  | LoadInst (ptr : Value) (align : Z)
  | StoreInst (val ptr : Value) (align : Z)
  | BinaryOperator (op : BinaryOps) (lhs rhs : Value)
  | CastInst (op : CastOps) (v : Value) (ty : LLVMType)
  | ICmpInst (p : Predicate) (lhs rhs : Value)
  | SelectInst (c t f : Value)
  | CallInst (callee : string) (ret : LLVMType) (args : list Value)
  | BranchInst (dest : nat)
  | CondBranchInst (c : Value) (ifTrue ifFalse : nat)
  | UnreachableInst.
#[local] Set Elimination Schemes.

Fixpoint typeOf (v : Value) : LLVMType :=
  match v with
  | ConstantInt bits _ => IntegerTy bits
  | UndefValue ty => ty
  | Storage _ pointee => PointerTy pointee
  | LoadInst ptr _ =>
      match typeOf ptr with PointerTy b => IntegerTy b | _ => VoidTy end
  | BinaryOperator _ lhs _ => typeOf lhs
  | CastInst _ _ ty => ty
  | ICmpInst _ _ _ => IntegerTy 1
  | SelectInst _ t _ => typeOf t
  | CallInst _ ret _ => ret
  | StoreInst _ _ _ | BranchInst _ | CondBranchInst _ _ _
  | UnreachableInst => VoidTy
  end.

Definition isConstant (v : Value) : bool :=
  match v with ConstantInt _ _ | UndefValue _ => true | _ => false end.

(** [dyn_cast<ConstantInt>(V)]. *)
Definition asConstantInt (v : Value) : option Z :=
  match v with ConstantInt _ val => Some val | _ => None end.

(** [ConstantInt::getLimitedValue()]: the value, limited to [uint64_t]. *)
Definition getLimitedValue (val : Z) : Z := Z.min val (2 ^ 64 - 1).

(** ** Meaning of the integer instructions

    Integers of [bits] bits are represented by their unsigned value in
    [0, 2^bits).  [None] is a result the language reference does not define:
    a shift by an amount not below the width, a division by zero. *)

Definition wrap (bits z : Z) : Z := z mod 2 ^ bits.

Definition signed (bits z : Z) : Z :=
  if z <? 2 ^ (bits - 1) then z else z - 2 ^ bits.

Definition evalBinOp (bits : Z) (op : BinaryOps) (a b : Z) : option Z :=
  match op with
  | Add => Some (wrap bits (a + b))
  | Sub => Some (wrap bits (a - b))
  | Mul => Some (wrap bits (a * b))
  | UDiv => if b =? 0 then None else Some (a / b)
  | URem => if b =? 0 then None else Some (a mod b)
  | SDiv =>
      if (b =? 0) || ((signed bits a =? - 2 ^ (bits - 1)) && (signed bits b =? -1))
      then None else Some (wrap bits (signed bits a ÷ signed bits b))
  | SRem =>
      if (b =? 0) || ((signed bits a =? - 2 ^ (bits - 1)) && (signed bits b =? -1))
      then None else Some (wrap bits (Z.rem (signed bits a) (signed bits b)))
  | Shl => if b <? bits then Some (wrap bits (Z.shiftl a b)) else None
  | LShr => if b <? bits then Some (Z.shiftr a b) else None
  | AShr => if b <? bits then Some (wrap bits (Z.shiftr (signed bits a) b)) else None
  | And => Some (Z.land a b)
  | Or => Some (Z.lor a b)
  | Xor => Some (Z.lxor a b)
  end.

Definition evalPredicate (bits : Z) (p : Predicate) (a b : Z) : option bool :=
  match p with
  | FCMP_FALSE | FCMP_TRUE => None
  | ICMP_EQ => Some (a =? b)
  | ICMP_NE => Some (negb (a =? b))
  | ICMP_UGT => Some (b <? a)
  | ICMP_UGE => Some (b <=? a)
  | ICMP_ULT => Some (a <? b)
  | ICMP_ULE => Some (a <=? b)
  | ICMP_SGT => Some (signed bits b <? signed bits a)
  | ICMP_SGE => Some (signed bits b <=? signed bits a)
  | ICMP_SLT => Some (signed bits a <? signed bits b)
  | ICMP_SLE => Some (signed bits a <=? signed bits b)
  end.

Definition evalCast (op : CastOps) (from to : Z) (a : Z) : option Z :=
  match op with
  | Trunc => Some (wrap to a)
  | ZExt => Some a
  | SExt => Some (wrap to (signed from a))
  | IntToPtr => None
  end.

Definition bitsOf (ty : LLVMType) : Z :=
  match ty with IntegerTy b => b | _ => 0 end.

(** [eval mem v]: the integer [v] computes when the storage
    [id] holds [mem id].  Loads through computed pointers and calls are
    outside this semantics. *)
Fixpoint eval (mem : Z -> Z) (v : Value) : option Z :=
  match v with
  | ConstantInt _ val => Some val
  | LoadInst (Storage id pointee) _ => Some (wrap pointee (mem id))
  | BinaryOperator op lhs rhs =>
      a ← eval mem lhs; b ← eval mem rhs;
      evalBinOp (bitsOf (typeOf lhs)) op a b
  | CastInst op x ty =>
      a ← eval mem x; evalCast op (bitsOf (typeOf x)) (bitsOf ty) a
  | ICmpInst p lhs rhs =>
      a ← eval mem lhs; b ← eval mem rhs;
      c ← evalPredicate (bitsOf (typeOf lhs)) p a b;
      Some (if c : bool then 1 else 0)
  | SelectInst c t f =>
      b ← eval mem c; if b =? 0 then eval mem f else eval mem t
  | _ => None
  end.

(** ** The state the translator works on

    Basic blocks live in a heap indexed by their address; the function keeps
    the order of its blocks in a list.  The builder inserts at the end of
    [insertBlock].  [LastMarker] locates the open [newpc] call by block and
    position.  The last two fields record what the translator tells its
    collaborators: how often the variable manager was notified of a new
    block, and the calls made on the jump-target manager. *)

Record BasicBlock : Type := mkBasicBlock {
  bbName : string;
  bbInsts : list Value
}.

(** Calls made on the jump-target manager. *)
Inductive JumpTargetsCall : Type :=
  | getBlockAt (Address : Z)
  | registerBlock (PC : Z) (Block : nat)
  | registerInstruction (PC : Z) (Marker : nat * nat).

Record TranslatorState : Type := mkState {
  heap : gmap nat BasicBlock;
  nextAddress : nat;
  functionBlocks : list nat;
  insertBlock : nat;
  LabeledBasicBlocks : gmap string nat;
  Blocks : list nat;
  LastMarker : option (nat * nat);
  newBasicBlockCount : nat;
  JumpTargetsLog : list JumpTargetsCall
}.

Definition with_heap (h : gmap nat BasicBlock) (s : TranslatorState) :=
  mkState h (nextAddress s) (functionBlocks s) (insertBlock s)
    (LabeledBasicBlocks s) (Blocks s) (LastMarker s)
    (newBasicBlockCount s) (JumpTargetsLog s).

Definition with_nextAddress (n : nat) (s : TranslatorState) :=
  mkState (heap s) n (functionBlocks s) (insertBlock s)
    (LabeledBasicBlocks s) (Blocks s) (LastMarker s)
    (newBasicBlockCount s) (JumpTargetsLog s).

Definition with_functionBlocks (l : list nat) (s : TranslatorState) :=
  mkState (heap s) (nextAddress s) l (insertBlock s)
    (LabeledBasicBlocks s) (Blocks s) (LastMarker s)
    (newBasicBlockCount s) (JumpTargetsLog s).

Definition with_insertBlock (b : nat) (s : TranslatorState) :=
  mkState (heap s) (nextAddress s) (functionBlocks s) b
    (LabeledBasicBlocks s) (Blocks s) (LastMarker s)
    (newBasicBlockCount s) (JumpTargetsLog s).

Definition with_LabeledBasicBlocks (m : gmap string nat) (s : TranslatorState) :=
  mkState (heap s) (nextAddress s) (functionBlocks s) (insertBlock s)
    m (Blocks s) (LastMarker s)
    (newBasicBlockCount s) (JumpTargetsLog s).

Definition with_Blocks (l : list nat) (s : TranslatorState) :=
  mkState (heap s) (nextAddress s) (functionBlocks s) (insertBlock s)
    (LabeledBasicBlocks s) l (LastMarker s)
    (newBasicBlockCount s) (JumpTargetsLog s).

Definition with_LastMarker (m : option (nat * nat)) (s : TranslatorState) :=
  mkState (heap s) (nextAddress s) (functionBlocks s) (insertBlock s)
    (LabeledBasicBlocks s) (Blocks s) m
    (newBasicBlockCount s) (JumpTargetsLog s).

Definition with_newBasicBlockCount (n : nat) (s : TranslatorState) :=
  mkState (heap s) (nextAddress s) (functionBlocks s) (insertBlock s)
    (LabeledBasicBlocks s) (Blocks s) (LastMarker s)
    n (JumpTargetsLog s).

Definition with_JumpTargetsLog (l : list JumpTargetsCall) (s : TranslatorState) :=
  mkState (heap s) (nextAddress s) (functionBlocks s) (insertBlock s)
    (LabeledBasicBlocks s) (Blocks s) (LastMarker s)
    (newBasicBlockCount s) l.

(** ** The monad of translator actions *)

Definition M (A : Type) : Type :=
  TranslatorState -> Outcome (A * TranslatorState).

Definition ret {A} (a : A) : M A := fun s => Done (a, s).

Definition bind {A B} (m : M A) (k : A -> M B) : M B :=
  fun s =>
    match m s with
    | Done (a, s') => k a s'
    | Fatal msg => Fatal msg
    | Undefined msg => Undefined msg
    end.

Definition lift {A} (o : Outcome A) : M A :=
  fun s =>
    match o with
    | Done a => Done (a, s)
    | Fatal msg => Fatal msg
    | Undefined msg => Undefined msg
    end.

Definition fatal {A} (msg : string) : M A := fun _ => Fatal msg.
Definition undefined {A} (msg : string) : M A := fun _ => Undefined msg.

(** [assert(b)] and [llvm_unreachable(msg)]. *)
Definition Assert (b : bool) (msg : string) : M unit :=
  if b then ret tt else fatal msg.
Definition llvm_unreachable {A} (msg : string) : M A := fatal msg.

Definition get : M TranslatorState := fun s => Done (s, s).
Definition modify (f : TranslatorState -> TranslatorState) : M unit :=
  fun s => Done (tt, f s).

Notation "'do' x <- m ; k" := (bind m (fun x => k))
  (at level 10, x name, m at level 100, k at level 200,
   format "'[v' 'do'  x  <-  m ; '/' k ']'").
Notation "'do' ' p <- m ; k" := (bind m (fun x => let 'p := x in k))
  (at level 10, p pattern, m at level 100, k at level 200,
   format "'[v' 'do'  ' p  <-  m ; '/' k ']'").
Notation "m ;;; k" := (bind m (fun _ => k))
  (at level 100, k at level 200, right associativity).

(** [operator[]] of a [std::vector]: out of range is undefined. *)
Definition at_ {A} (v : list A) (i : nat) : M A :=
  match v !! i with
  | Some a => ret a
  | None => undefined "vector index out of range"
  end.

(** ** The IR builder

    [IRBuilder<>] with its default constant folder.  An operation whose
    operands are all constants is folded and inserts nothing; [CreateAnd]
    and [CreateOr] return the left operand when the right one is the neutral
    constant; a cast to the operand's own type returns the operand.  The
    checks the instruction constructors assert are kept as [Fatal].
    Metadata ([setAliasScope], [setNoAlias]) is not part of the model. *)

Module IRBuilder.

Definition isIntegerTy (ty : LLVMType) : bool :=
  match ty with IntegerTy _ => true | _ => false end.

Definition isPointerTy (ty : LLVMType) : bool :=
  match ty with PointerTy _ => true | _ => false end.

(** The state with [I] appended to the insertion block. *)
Definition appendInst (I : Value) (s : TranslatorState) : TranslatorState :=
  with_heap
    (alter (fun bb => mkBasicBlock (bbName bb) (bbInsts bb ++ [I]))
       (insertBlock s) (heap s)) s.

(** Insert an instruction at the insertion point. *)
Definition Insert (I : Value) : M Value :=
  do s <- get;
  match heap s !! insertBlock s with
  | Some _ => modify (appendInst I) ;;; ret I
  | None => undefined "no insertion block"
  end.

(** [ConstantInt::get(Ty, V)]; [Ty] may be a null pointer. *)
Definition ConstantInt_get (Ty : option LLVMType) (V : Z) : M Value :=
  match Ty with
  | None => undefined "null Type pointer dereferenced"
  | Some (IntegerTy bits) => ret (ConstantInt bits (wrap bits V))
  | Some _ => fatal "cast<IntegerType>() argument of incompatible type"
  end.

Definition foldBinOp (op : BinaryOps) (lhs rhs : Value) : Value :=
  match lhs, rhs with
  | ConstantInt bits a, ConstantInt _ b =>
      match evalBinOp bits op a b with
      | Some z => ConstantInt bits z
      | None => UndefValue (IntegerTy bits)
      end
  | _, _ => UndefValue (typeOf lhs)
  end.

Definition checkBinOp (lhs rhs : Value) : M unit :=
  Assert (bool_decide (typeOf lhs = typeOf rhs) && isIntegerTy (typeOf lhs))
    "Cannot create binary operator with two operands of differing type".

Definition CreateBinOp (op : BinaryOps) (lhs rhs : Value) : M Value :=
  checkBinOp lhs rhs ;;;
  if isConstant lhs && isConstant rhs then ret (foldBinOp op lhs rhs)
  else Insert (BinaryOperator op lhs rhs).

Definition CreateSub := CreateBinOp Sub.
Definition CreateMul := CreateBinOp Mul.
Definition CreateXor := CreateBinOp Xor.

Definition isAllOnes (v : Value) : bool :=
  match v with
  | ConstantInt bits val => val =? 2 ^ bits - 1
  | _ => false
  end.

Definition isNull (v : Value) : bool :=
  match v with ConstantInt _ val => val =? 0 | _ => false end.

Definition CreateAnd (lhs rhs : Value) : M Value :=
  checkBinOp lhs rhs ;;;
  if isConstant rhs && isAllOnes rhs then ret lhs
  else if isConstant rhs && isConstant lhs then ret (foldBinOp And lhs rhs)
  else Insert (BinaryOperator And lhs rhs).

Definition CreateOr (lhs rhs : Value) : M Value :=
  checkBinOp lhs rhs ;;;
  if isConstant rhs && isNull rhs then ret lhs
  else if isConstant rhs && isConstant lhs then ret (foldBinOp Or lhs rhs)
  else Insert (BinaryOperator Or lhs rhs).

(** The overloads taking a [uint64_t] right operand build the constant
    of the left operand's type. *)
Definition withImmediate (create : Value -> Value -> M Value)
    (lhs : Value) (rhs : Z) : M Value :=
  do c <- ConstantInt_get (Some (typeOf lhs)) rhs;
  create lhs c.

Definition CreateAnd_imm := withImmediate CreateAnd.
Definition CreateXor_imm := withImmediate CreateXor.
Definition CreateShl_imm := withImmediate (CreateBinOp Shl).
Definition CreateLShr_imm := withImmediate (CreateBinOp LShr).

Definition castIsValid (op : CastOps) (from to : LLVMType) : bool :=
  match op, from, to with
  | Trunc, IntegerTy a, IntegerTy b => b <? a
  | (ZExt | SExt), IntegerTy a, IntegerTy b => a <? b
  | IntToPtr, IntegerTy _, PointerTy _ => true
  | _, _, _ => false
  end.

Definition foldCast (op : CastOps) (v : Value) (ty : LLVMType) : Value :=
  match op, v with
  | IntToPtr, _ => CastInst IntToPtr v ty
  | _, ConstantInt bits a =>
      match evalCast op bits (bitsOf ty) a with
      | Some z => ConstantInt (bitsOf ty) z
      | None => UndefValue ty
      end
  | _, _ => UndefValue ty
  end.

Definition CreateCast (op : CastOps) (v : Value) (DestTy : LLVMType) : M Value :=
  if bool_decide (typeOf v = DestTy) then ret v
  else
    Assert (castIsValid op (typeOf v) DestTy) "Invalid cast" ;;;
    if isConstant v then ret (foldCast op v DestTy)
    else Insert (CastInst op v DestTy).

Definition CreateTrunc := CreateCast Trunc.
Definition CreateZExt := CreateCast ZExt.
Definition CreateSExt := CreateCast SExt.
Definition CreateIntToPtr := CreateCast IntToPtr.

Definition CreateZExtOrTrunc (v : Value) (DestTy : LLVMType) : M Value :=
  Assert (isIntegerTy (typeOf v) && isIntegerTy DestTy)
    "Can only zero extend/truncate integers" ;;;
  if bitsOf (typeOf v) <? bitsOf DestTy then CreateZExt v DestTy
  else if bitsOf DestTy <? bitsOf (typeOf v) then CreateTrunc v DestTy
  else ret v.

Definition isIntPredicate (p : Predicate) : bool :=
  match p with FCMP_FALSE | FCMP_TRUE => false | _ => true end.

Definition foldICmp (p : Predicate) (lhs rhs : Value) : Value :=
  match lhs, rhs with
  | ConstantInt bits a, ConstantInt _ b =>
      match evalPredicate bits p a b with
      | Some c => ConstantInt 1 (if c then 1 else 0)
      | None => UndefValue (IntegerTy 1)
      end
  | _, _ => UndefValue (IntegerTy 1)
  end.

Definition CreateICmp (p : Predicate) (lhs rhs : Value) : M Value :=
  Assert (isIntPredicate p) "Invalid ICmp predicate value" ;;;
  Assert (bool_decide (typeOf lhs = typeOf rhs))
    "Both operands to ICmp instruction are not of the same type" ;;;
  if isConstant lhs && isConstant rhs then ret (foldICmp p lhs rhs)
  else Insert (ICmpInst p lhs rhs).

Definition foldSelect (c t f : Value) : Value :=
  match c with
  | ConstantInt _ b => if b =? 0 then f else t
  | _ => UndefValue (typeOf t)
  end.

Definition CreateSelect (c t f : Value) : M Value :=
  Assert (bool_decide (typeOf c = IntegerTy 1)
          && bool_decide (typeOf t = typeOf f))
    "Invalid operands for select" ;;;
  if isConstant c && isConstant t && isConstant f
  then ret (foldSelect c t f)
  else Insert (SelectInst c t f).

Definition CreateAlignedLoad (ptr : Value) (align : Z) : M Value :=
  Assert (isPointerTy (typeOf ptr)) "Ptr must have pointer type" ;;;
  Insert (LoadInst ptr align).

Definition CreateLoad (ptr : Value) : M Value := CreateAlignedLoad ptr 0.

Definition CreateAlignedStore (val ptr : Value) (align : Z) : M Value :=
  Assert (bool_decide (typeOf ptr = PointerTy (bitsOf (typeOf val)))
          && isIntegerTy (typeOf val))
    "Ptr must be a pointer to Val type" ;;;
  Insert (StoreInst val ptr align).

Definition CreateStore (val ptr : Value) : M Value :=
  CreateAlignedStore val ptr 0.

Definition CreateCall (callee : string) (ret : LLVMType)
    (args : list Value) : M Value :=
  Insert (CallInst callee ret args).

Definition CreateBr (dest : nat) : M Value := Insert (BranchInst dest).

Definition CreateCondBr (c : Value) (t f : nat) : M Value :=
  Insert (CondBranchInst c t f).

Definition CreateUnreachable : M Value := Insert UnreachableInst.

Definition SetInsertPoint (bb : nat) : M unit :=
  modify (with_insertBlock bb).

(** [BasicBlock::Create(Context, Name, TheFunction)]: a new empty block,
    appended to the function's block list. *)
Definition BasicBlock_Create (name : string) : M nat :=
  do s <- get;
  let a := nextAddress s in
  modify (fun s =>
    with_functionBlocks (functionBlocks s ++ [a])
      (with_nextAddress (S a)
         (with_heap (<[a := mkBasicBlock name []]> (heap s)) s))) ;;;
  ret a.

(** [BB->removeFromParent()]. *)
Definition removeFromParent (bb : nat) : M unit :=
  modify (fun s =>
    with_functionBlocks (filter (fun b => b ≠ bb) (functionBlocks s)) s).

(** [TheFunction->getBasicBlockList().push_back(BB)]. *)
Definition push_back (bb : nat) : M unit :=
  modify (fun s => with_functionBlocks (functionBlocks s ++ [bb]) s).

(** [BB->begin() == BB->end()]. *)
Definition empty (bb : nat) : M bool :=
  do s <- get;
  match heap s !! bb with
  | Some b => ret (bool_decide (bbInsts b = []))
  | None => undefined "dangling BasicBlock pointer"
  end.

End IRBuilder.

(** ** Collaborators

    The translator reaches these through references it is constructed with;
    their code is not part of the translator.  Each is a record of the
    operations the translator calls. *)

(** [VariableManager]. [newBasicBlock] is recorded in the state. *)
Record VariableManager : Type := {
  getOrCreate : Z -> Value;
  isEnv : Value -> bool;
  getByEnvOffset : Z -> Value
}.

(** [JumpTargetManager].  [newPC] answers with the block already attached
    to an address, if any, and with [ShouldContinue]; the calls that only
    inform the manager are recorded in the state. *)
Record JumpTargetManager : Type := {
  isPCReg : Value -> bool;
  exitTB : string;
  newPC : Z -> option nat * bool
}.

(** [Module::getFunction]: whether a function of that name is declared. *)
Record LLVMModule : Type := {
  getFunction : string -> bool
}.

(** A decoded micro-operation as [PTC::Instruction] exposes it. *)
Record PTCInstruction : Type := {
  opcode : PTCOpcode;
  InArguments : list Z;
  ConstArguments : list Z;
  OutArguments : list Z
}.

Inductive PTCMemoryAccessType : Type :=
  | PTC_MEMORY_ACCESS_UNKNOWN
  | PTC_MEMORY_ACCESS_UNALIGNED
  | PTC_MEMORY_ACCESS_NORMAL.

Inductive PTCMemoryOpcode : Type :=
  | PTC_MO_8 | PTC_MO_16 | PTC_MO_32 | PTC_MO_64 | PTC_MO_other.

Global Instance PTCMemoryAccessType_eq_dec : EqDecision PTCMemoryAccessType.
Proof. solve_decision. Defined.

Record PTCLoadStoreArg : Type := {
  access_type : PTCMemoryAccessType;
  type_ : Z
}.

(** The [ptc] interface and the helpers of [ptcinterface.h]. *)
Record PTCInterface : Type := {
  parse_load_store_arg : Z -> PTCLoadStoreArg;
  ptc_get_memory_access_size : Z -> PTCMemoryOpcode;
  ptc_is_sign_extended_load : Z -> bool;
  get_arg_label_id : Z -> Z;
  (** [static_cast<PTCCondition>]: [None] for a value that is no
      enumerator. *)
  to_PTCCondition : Z -> option PTCCondition
}.

Inductive Endianess : Type := LittleEndian | BigEndian.

Global Instance Endianess_eq_dec : EqDecision Endianess.
Proof. solve_decision. Defined.

Record Architecture : Type := {
  defaultAlignment : Z;
  endianess : Endianess
}.

(** [ErrorOr<T>] carrying [std::errc]. *)
Inductive errc : Type := invalid_argument.

Inductive ErrorOr (A : Type) : Type :=
  | Values (a : A)
  | Error (e : errc).

Arguments Values {A} a.
Arguments Error {A} e.

(** ** The instruction translator *)

Section InstructionTranslator.

Context (Variables : VariableManager).
Context (JumpTargets : JumpTargetManager).
Context (ptc : PTCInterface).
Context (TheModule : LLVMModule).
Context (SourceArchitecture TargetArchitecture : Architecture).

Import IRBuilder.

(** [using v = std::vector<Value *>]: a successful return. *)
Definition v (l : list Value) : M (ErrorOr (list Value)) := ret (Values l).

Definition Variables_newBasicBlock : M unit :=
  modify (fun s => with_newBasicBlockCount (S (newBasicBlockCount s)) s).

Definition JumpTargets_call (c : JumpTargetsCall) : M unit :=
  modify (fun s => with_JumpTargetsLog (JumpTargetsLog s ++ [c]) s).

Definition Blocks_push_back (bb : nat) : M unit :=
  modify (fun s => with_Blocks (Blocks s ++ [bb]) s).

(** Dereference of a [Type *] that may be null. *)
Definition theType (Ty : option LLVMType) : M LLVMType :=
  match Ty with
  | Some ty => ret ty
  | None => undefined "null Type pointer dereferenced"
  end.

(** The file's [CreateICmp] template. *)
Definition CreateICmp_raw (RawCondition : Z) (FirstOperand SecondOperand : Value)
  : M Value :=
  match to_PTCCondition ptc RawCondition with
  | Some Condition =>
      CreateICmp (conditionToPredicate Condition) FirstOperand SecondOperand
  | None => llvm_unreachable "Unknown comparison operator"
  end.

(** [Intrinsic::getDeclaration(&TheModule, Intrinsic::bswap, { Ty })]
    followed by a call with one argument. *)
Definition CreateCall_bswap (Ty : LLVMType) (arg : Value) : M Value :=
  Assert (bool_decide (typeOf arg = Ty))
    "Calling a function with a bad signature" ;;;
  CreateCall ("llvm.bswap.i" +:+ pretty (Z.to_N (bitsOf Ty))) Ty [arg].

(** [dyn_cast<LoadInst>(V)->getPointerOperand()]: the cast yields a null
    pointer when [V] is no load. *)
Definition LoadInst_getPointerOperand (V : Value) : M Value :=
  match V with
  | LoadInst ptr _ => ret ptr
  | _ => undefined "null LoadInst pointer dereferenced"
  end.

(** ["L" + std::to_string(LabelId)] with [unsigned LabelId]. *)
Definition labelName (raw : Z) : string :=
  "L" +:+ pretty (Z.to_N (Cxx.unsigned (get_arg_label_id ptc raw))).

(** [ConstArguments.back()]. *)
Definition back {A} (l : list A) : M A :=
  match last l with
  | Some a => ret a
  | None => undefined "back() of an empty vector"
  end.

(** The inner switch of the byte-swap case has no [break]: control that
    enters at a label runs every later arm and ends in [default]. *)
Definition bswapSwapType (Opcode : PTCOpcode) : M LLVMType :=
  match Opcode with
  | PTC_INSTRUCTION_op_bswap16_i32 | PTC_INSTRUCTION_op_bswap16_i64 =>
      let SwapType := IntegerTy 16 in
      let SwapType := IntegerTy 32 in
      let SwapType := IntegerTy 64 in
      llvm_unreachable "Unexpected opcode"
  | PTC_INSTRUCTION_op_bswap32_i32 | PTC_INSTRUCTION_op_bswap32_i64 =>
      let SwapType := IntegerTy 32 in
      let SwapType := IntegerTy 64 in
      llvm_unreachable "Unexpected opcode"
  | PTC_INSTRUCTION_op_bswap64_i64 =>
      let SwapType := IntegerTy 64 in
      llvm_unreachable "Unexpected opcode"
  | _ => llvm_unreachable "Unexpected opcode"
  end.

(** The mask of the deposit case: [getMaxValue(RegisterSize)] when the
    length is the register size, otherwise [(1 << Length) - 1] computed on
    [int] and converted to [uint64_t]. *)
Definition depositBits (Length RegisterSize : Z) : M Z :=
  if Length =? RegisterSize then lift (getMaxValue RegisterSize)
  else
    do shifted <- lift (Cxx.int_shl 1 Length);
    do minus1 <- lift (Cxx.int_sub shifted 1);
    ret (Cxx.int_to_uint64 minus1).

Definition translateOpcode (Opcode : PTCOpcode) (ConstArguments : list Z)
    (InArguments : list Value) : M (ErrorOr (list Value)) :=
  do RegisterSize <- lift (getRegisterSize Opcode);
  do RegisterType <-
    (if RegisterSize =? 32 then ret (Some (IntegerTy 32))
     else if RegisterSize =? 64 then ret (Some (IntegerTy 64))
     else if negb (RegisterSize =? 0)
          then llvm_unreachable "Unexpected register size"
          else ret None);
  match Opcode with
  | PTC_INSTRUCTION_op_movi_i32 | PTC_INSTRUCTION_op_movi_i64 =>
      do c0 <- at_ ConstArguments 0;
      do r <- ConstantInt_get RegisterType c0;
      v [r]
  | PTC_INSTRUCTION_op_discard =>
      do r <- ConstantInt_get RegisterType 0;
      v [r]
  | PTC_INSTRUCTION_op_mov_i32 | PTC_INSTRUCTION_op_mov_i64 =>
      do in0 <- at_ InArguments 0;
      do ty <- theType RegisterType;
      do r <- CreateTrunc in0 ty;
      v [r]
  | PTC_INSTRUCTION_op_setcond_i32 | PTC_INSTRUCTION_op_setcond_i64 =>
      do c0 <- at_ ConstArguments 0;
      do in0 <- at_ InArguments 0;
      do in1 <- at_ InArguments 1;
      do Compare <- CreateICmp_raw c0 in0 in1;
      do ty <- theType RegisterType;
      do r <- CreateZExt Compare ty;
      v [r]
  | PTC_INSTRUCTION_op_movcond_i32 | PTC_INSTRUCTION_op_movcond_i64 =>
      do c0 <- at_ ConstArguments 0;
      do in0 <- at_ InArguments 0;
      do in1 <- at_ InArguments 1;
      do Compare <- CreateICmp_raw c0 in0 in1;
      do in2 <- at_ InArguments 2;
      do in3 <- at_ InArguments 3;
      do Select <- CreateSelect Compare in2 in3;
      v [Select]
  | PTC_INSTRUCTION_op_qemu_ld_i32 | PTC_INSTRUCTION_op_qemu_ld_i64
  | PTC_INSTRUCTION_op_qemu_st_i32 | PTC_INSTRUCTION_op_qemu_st_i64 =>
      do c0 <- at_ ConstArguments 0;
      let MemoryAccess := parse_load_store_arg ptc c0 in
      Assert (negb (bool_decide
                (access_type MemoryAccess = PTC_MEMORY_ACCESS_UNKNOWN)))
        "MemoryAccess.access_type != PTC_MEMORY_ACCESS_UNKNOWN" ;;;
      let Alignment :=
        if bool_decide (access_type MemoryAccess = PTC_MEMORY_ACCESS_UNALIGNED)
        then 1 else defaultAlignment SourceArchitecture in
      do MemoryType <-
        match ptc_get_memory_access_size ptc (type_ MemoryAccess) with
        | PTC_MO_8 => ret (IntegerTy 8)
        | PTC_MO_16 => ret (IntegerTy 16)
        | PTC_MO_32 => ret (IntegerTy 32)
        | PTC_MO_64 => ret (IntegerTy 64)
        | PTC_MO_other => llvm_unreachable "Unexpected load size"
        end;
      let BSwapFunction : option LLVMType :=
        if negb (bool_decide (MemoryType = IntegerTy 8))
           && negb (bool_decide (endianess SourceArchitecture
                                 = endianess TargetArchitecture))
        then Some MemoryType else None in
      let SignExtend := ptc_is_sign_extended_load ptc (type_ MemoryAccess) in
      if bool_decide (Opcode = PTC_INSTRUCTION_op_qemu_ld_i32)
         || bool_decide (Opcode = PTC_INSTRUCTION_op_qemu_ld_i64)
      then
        do in0 <- at_ InArguments 0;
        do Pointer <- CreateIntToPtr in0 (PointerTy (bitsOf MemoryType));
        do Load <- CreateAlignedLoad Pointer Alignment;
        do Loaded <-
          match BSwapFunction with
          | Some ty => CreateCall_bswap ty Load
          | None => ret Load
          end;
        do ty <- theType RegisterType;
        if SignExtend
        then do r <- CreateSExt Loaded ty; v [r]
        else do r <- CreateZExt Loaded ty; v [r]
      else if bool_decide (Opcode = PTC_INSTRUCTION_op_qemu_st_i32)
              || bool_decide (Opcode = PTC_INSTRUCTION_op_qemu_st_i64)
      then
        do in1 <- at_ InArguments 1;
        do Pointer <- CreateIntToPtr in1 (PointerTy (bitsOf MemoryType));
        do in0 <- at_ InArguments 0;
        do Value_ <- CreateTrunc in0 MemoryType;
        do Value_ <-
          match BSwapFunction with
          | Some ty => CreateCall_bswap ty Value_
          | None => ret Value_
          end;
        do Store <- CreateAlignedStore Value_ Pointer Alignment;
        v []
      else llvm_unreachable "Unknown load type"
  | PTC_INSTRUCTION_op_ld8u_i32 | PTC_INSTRUCTION_op_ld8s_i32
  | PTC_INSTRUCTION_op_ld16u_i32 | PTC_INSTRUCTION_op_ld16s_i32
  | PTC_INSTRUCTION_op_ld_i32
  | PTC_INSTRUCTION_op_ld8u_i64 | PTC_INSTRUCTION_op_ld8s_i64
  | PTC_INSTRUCTION_op_ld16u_i64 | PTC_INSTRUCTION_op_ld16s_i64
  | PTC_INSTRUCTION_op_ld32u_i64 | PTC_INSTRUCTION_op_ld32s_i64
  | PTC_INSTRUCTION_op_ld_i64 =>
      do in0 <- at_ InArguments 0;
      do Base <- LoadInst_getPointerOperand in0;
      if negb (isEnv Variables Base) then ret (Error invalid_argument)
      else
        do c0 <- at_ ConstArguments 0;
        let Target := getByEnvOffset Variables c0 in
        do LoadEnvField <- CreateLoad Target;
        do ty <- theType RegisterType;
        do Fitted <- CreateZExtOrTrunc LoadEnvField ty;
        v [Fitted]
  | PTC_INSTRUCTION_op_st8_i32 | PTC_INSTRUCTION_op_st16_i32
  | PTC_INSTRUCTION_op_st_i32
  | PTC_INSTRUCTION_op_st8_i64 | PTC_INSTRUCTION_op_st16_i64
  | PTC_INSTRUCTION_op_st32_i64 | PTC_INSTRUCTION_op_st_i64 =>
      do in1 <- at_ InArguments 1;
      do Base <- LoadInst_getPointerOperand in1;
      if negb (isEnv Variables Base) then ret (Error invalid_argument)
      else
        do c0 <- at_ ConstArguments 0;
        let Target := getByEnvOffset Variables c0 in
        do TargetPointer <-
          match typeOf Target with
          | PointerTy b => ret (IntegerTy b)
          | _ => fatal "getPointerElementType() of a non-pointer"
          end;
        do in0 <- at_ InArguments 0;
        do ToStore <- CreateZExt in0 TargetPointer;
        do Store <- CreateStore ToStore Target;
        v []
  | PTC_INSTRUCTION_op_add_i32 | PTC_INSTRUCTION_op_sub_i32
  | PTC_INSTRUCTION_op_mul_i32 | PTC_INSTRUCTION_op_div_i32
  | PTC_INSTRUCTION_op_divu_i32 | PTC_INSTRUCTION_op_rem_i32
  | PTC_INSTRUCTION_op_remu_i32 | PTC_INSTRUCTION_op_and_i32
  | PTC_INSTRUCTION_op_or_i32 | PTC_INSTRUCTION_op_xor_i32
  | PTC_INSTRUCTION_op_shl_i32 | PTC_INSTRUCTION_op_shr_i32
  | PTC_INSTRUCTION_op_sar_i32
  | PTC_INSTRUCTION_op_add_i64 | PTC_INSTRUCTION_op_sub_i64
  | PTC_INSTRUCTION_op_mul_i64 | PTC_INSTRUCTION_op_div_i64
  | PTC_INSTRUCTION_op_divu_i64 | PTC_INSTRUCTION_op_rem_i64
  | PTC_INSTRUCTION_op_remu_i64 | PTC_INSTRUCTION_op_and_i64
  | PTC_INSTRUCTION_op_or_i64 | PTC_INSTRUCTION_op_xor_i64
  | PTC_INSTRUCTION_op_shl_i64 | PTC_INSTRUCTION_op_shr_i64
  | PTC_INSTRUCTION_op_sar_i64 =>
      do BinaryOp <- lift (opcodeToBinaryOp Opcode);
      do in0 <- at_ InArguments 0;
      do in1 <- at_ InArguments 1;
      do Operation <- CreateBinOp BinaryOp in0 in1;
      v [Operation]
  | PTC_INSTRUCTION_op_div2_i32 | PTC_INSTRUCTION_op_divu2_i32
  | PTC_INSTRUCTION_op_div2_i64 | PTC_INSTRUCTION_op_divu2_i64 =>
      do '(DivisionOp, RemainderOp) <-
        (if bool_decide (Opcode = PTC_INSTRUCTION_op_div2_i32)
            || bool_decide (Opcode = PTC_INSTRUCTION_op_div2_i64)
         then ret (SDiv, SRem)
         else if bool_decide (Opcode = PTC_INSTRUCTION_op_divu2_i32)
                 || bool_decide (Opcode = PTC_INSTRUCTION_op_divu2_i64)
         then ret (UDiv, URem)
         else llvm_unreachable "Unknown operation type");
      do in0 <- at_ InArguments 0;
      do in2 <- at_ InArguments 2;
      do Division <- CreateBinOp DivisionOp in0 in2;
      do Remainder <- CreateBinOp RemainderOp in0 in2;
      v [Division; Remainder]
  | PTC_INSTRUCTION_op_rotr_i32 | PTC_INSTRUCTION_op_rotr_i64
  | PTC_INSTRUCTION_op_rotl_i32 | PTC_INSTRUCTION_op_rotl_i64 =>
      do Bits <- ConstantInt_get RegisterType RegisterSize;
      do '(FirstShiftOp, SecondShiftOp) <-
        (if bool_decide (Opcode = PTC_INSTRUCTION_op_rotl_i32)
            || bool_decide (Opcode = PTC_INSTRUCTION_op_rotl_i64)
         then ret (LShr, Shl)
         else if bool_decide (Opcode = PTC_INSTRUCTION_op_rotr_i32)
                 || bool_decide (Opcode = PTC_INSTRUCTION_op_rotr_i64)
         then ret (Shl, LShr)
         else llvm_unreachable "Unexpected opcode");
      do in0 <- at_ InArguments 0;
      do in1 <- at_ InArguments 1;
      do FirstShift <- CreateBinOp FirstShiftOp in0 in1;
      do SecondShiftAmount <- CreateSub Bits in1;
      do SecondShift <- CreateBinOp SecondShiftOp in0 SecondShiftAmount;
      do r <- CreateOr FirstShift SecondShift;
      v [r]
  | PTC_INSTRUCTION_op_deposit_i32 | PTC_INSTRUCTION_op_deposit_i64 =>
      do c0 <- at_ ConstArguments 0;
      let Position := Cxx.unsigned c0 in
      if Position =? RegisterSize
      then do in0 <- at_ InArguments 0; v [in0]
      else
        do c1 <- at_ ConstArguments 1;
        let Length := Cxx.unsigned c1 in
        do Bits <- depositBits Length RegisterSize;
        do shifted <- lift (Cxx.uint64_shl Bits Position);
        let BaseMask := Cxx.uint64_not shifted in
        do in0 <- at_ InArguments 0;
        do MaskedBase <- CreateAnd_imm in0 BaseMask;
        do in1 <- at_ InArguments 1;
        do Deposit <- CreateAnd_imm in1 Bits;
        do ShiftedDeposit <- CreateShl_imm Deposit Position;
        do Result <- CreateOr MaskedBase ShiftedDeposit;
        v [Result]
  | PTC_INSTRUCTION_op_ext8s_i32 | PTC_INSTRUCTION_op_ext16s_i32
  | PTC_INSTRUCTION_op_ext8u_i32 | PTC_INSTRUCTION_op_ext16u_i32
  | PTC_INSTRUCTION_op_ext8s_i64 | PTC_INSTRUCTION_op_ext16s_i64
  | PTC_INSTRUCTION_op_ext32s_i64
  | PTC_INSTRUCTION_op_ext8u_i64 | PTC_INSTRUCTION_op_ext16u_i64
  | PTC_INSTRUCTION_op_ext32u_i64 =>
      do SourceType <-
        match Opcode with
        | PTC_INSTRUCTION_op_ext8s_i32 | PTC_INSTRUCTION_op_ext8u_i32
        | PTC_INSTRUCTION_op_ext8s_i64 | PTC_INSTRUCTION_op_ext8u_i64 =>
            ret (IntegerTy 8)
        | PTC_INSTRUCTION_op_ext16s_i32 | PTC_INSTRUCTION_op_ext16u_i32
        | PTC_INSTRUCTION_op_ext16s_i64 | PTC_INSTRUCTION_op_ext16u_i64 =>
            ret (IntegerTy 16)
        | PTC_INSTRUCTION_op_ext32s_i64 | PTC_INSTRUCTION_op_ext32u_i64 =>
            ret (IntegerTy 32)
        | _ => llvm_unreachable "Unexpected opcode"
        end;
      do in0 <- at_ InArguments 0;
      do Truncated <- CreateTrunc in0 SourceType;
      do ty <- theType RegisterType;
      match Opcode with
      | PTC_INSTRUCTION_op_ext8s_i32 | PTC_INSTRUCTION_op_ext8s_i64
      | PTC_INSTRUCTION_op_ext16s_i32 | PTC_INSTRUCTION_op_ext16s_i64
      | PTC_INSTRUCTION_op_ext32s_i64 =>
          do r <- CreateSExt Truncated ty; v [r]
      | PTC_INSTRUCTION_op_ext8u_i32 | PTC_INSTRUCTION_op_ext8u_i64
      | PTC_INSTRUCTION_op_ext16u_i32 | PTC_INSTRUCTION_op_ext16u_i64
      | PTC_INSTRUCTION_op_ext32u_i64 =>
          do r <- CreateZExt Truncated ty; v [r]
      | _ => llvm_unreachable "Unexpected opcode"
      end
  | PTC_INSTRUCTION_op_not_i32 | PTC_INSTRUCTION_op_not_i64 =>
      do in0 <- at_ InArguments 0;
      do ones <- lift (getMaxValue RegisterSize);
      do r <- CreateXor_imm in0 ones;
      v [r]
  | PTC_INSTRUCTION_op_neg_i32 | PTC_INSTRUCTION_op_neg_i64 =>
      do InitialValue <- ConstantInt_get RegisterType 0;
      do in0 <- at_ InArguments 0;
      do r <- CreateSub InitialValue in0;
      v [r]
  | PTC_INSTRUCTION_op_andc_i32 | PTC_INSTRUCTION_op_andc_i64
  | PTC_INSTRUCTION_op_orc_i32 | PTC_INSTRUCTION_op_orc_i64
  | PTC_INSTRUCTION_op_eqv_i32 | PTC_INSTRUCTION_op_eqv_i64 =>
      do ExternalOp <-
        match Opcode with
        | PTC_INSTRUCTION_op_andc_i32 | PTC_INSTRUCTION_op_andc_i64 => ret And
        | PTC_INSTRUCTION_op_orc_i32 | PTC_INSTRUCTION_op_orc_i64 => ret Or
        | PTC_INSTRUCTION_op_eqv_i32 | PTC_INSTRUCTION_op_eqv_i64 => ret Xor
        | _ => llvm_unreachable "Unexpected opcode"
        end;
      do in1 <- at_ InArguments 1;
      do ones <- lift (getMaxValue RegisterSize);
      do Negate <- CreateXor_imm in1 ones;
      do in0 <- at_ InArguments 0;
      do Result <- CreateBinOp ExternalOp in0 Negate;
      v [Result]
  | PTC_INSTRUCTION_op_nand_i32 | PTC_INSTRUCTION_op_nand_i64 =>
      do in0 <- at_ InArguments 0;
      do in1 <- at_ InArguments 1;
      do AndValue <- CreateAnd in0 in1;
      do ones <- lift (getMaxValue RegisterSize);
      do Result <- CreateXor_imm AndValue ones;
      v [Result]
  | PTC_INSTRUCTION_op_nor_i32 | PTC_INSTRUCTION_op_nor_i64 =>
      do in0 <- at_ InArguments 0;
      do in1 <- at_ InArguments 1;
      do OrValue <- CreateOr in0 in1;
      do ones <- lift (getMaxValue RegisterSize);
      do Result <- CreateXor_imm OrValue ones;
      v [Result]
  | PTC_INSTRUCTION_op_bswap16_i32 | PTC_INSTRUCTION_op_bswap32_i32
  | PTC_INSTRUCTION_op_bswap16_i64 | PTC_INSTRUCTION_op_bswap32_i64
  | PTC_INSTRUCTION_op_bswap64_i64 =>
      do SwapType <- bswapSwapType Opcode;
      do in0 <- at_ InArguments 0;
      do Truncated <- CreateTrunc in0 SwapType;
      do ty <- theType RegisterType;
      do Swapped <- CreateCall_bswap ty Truncated;
      do r <- CreateZExt Swapped ty;
      v [r]
  | PTC_INSTRUCTION_op_set_label =>
      do c0 <- at_ ConstArguments 0;
      let Label := labelName c0 in
      do s <- get;
      do Fallthrough <-
        match LabeledBasicBlocks s !! Label with
        | None =>
            do Fallthrough <- BasicBlock_Create Label;
            modify (fun s => with_LabeledBasicBlocks
                       (<[Label := Fallthrough]> (LabeledBasicBlocks s)) s) ;;;
            ret Fallthrough
        | Some Fallthrough =>
            do isEmpty <- empty Fallthrough;
            Assert isEmpty "Fallthrough->begin() == Fallthrough->end()" ;;;
            removeFromParent Fallthrough ;;;
            push_back Fallthrough ;;;
            ret Fallthrough
        end;
      do br <- CreateBr Fallthrough;
      Blocks_push_back Fallthrough ;;;
      SetInsertPoint Fallthrough ;;;
      Variables_newBasicBlock ;;;
      v []
  | PTC_INSTRUCTION_op_br | PTC_INSTRUCTION_op_brcond_i32
  | PTC_INSTRUCTION_op_brcond2_i32 | PTC_INSTRUCTION_op_brcond_i64 =>
      do last <- back ConstArguments;
      let Label := labelName last in
      do Fallthrough <- BasicBlock_Create "";
      do s <- get;
      do Target <-
        match LabeledBasicBlocks s !! Label with
        | None =>
            do Target <- BasicBlock_Create Label;
            modify (fun s => with_LabeledBasicBlocks
                       (<[Label := Target]> (LabeledBasicBlocks s)) s) ;;;
            ret Target
        | Some Target => ret Target
        end;
      (if bool_decide (Opcode = PTC_INSTRUCTION_op_br)
       then do br <- CreateBr Target; ret tt
       else if bool_decide (Opcode = PTC_INSTRUCTION_op_brcond_i32)
               || bool_decide (Opcode = PTC_INSTRUCTION_op_brcond_i64)
       then
         do c0 <- at_ ConstArguments 0;
         do in0 <- at_ InArguments 0;
         do in1 <- at_ InArguments 1;
         do Compare <- CreateICmp_raw c0 in0 in1;
         do br <- CreateCondBr Compare Target Fallthrough;
         ret tt
       else llvm_unreachable "Unhandled opcode") ;;;
      Blocks_push_back Fallthrough ;;;
      SetInsertPoint Fallthrough ;;;
      Variables_newBasicBlock ;;;
      v []
  | PTC_INSTRUCTION_op_exit_tb =>
      do call <- CreateCall (exitTB JumpTargets) VoidTy [];
      do unreachable <- CreateUnreachable;
      do NextBB <- BasicBlock_Create "";
      Blocks_push_back NextBB ;;;
      SetInsertPoint NextBB ;;;
      Variables_newBasicBlock ;;;
      v []
  | PTC_INSTRUCTION_op_goto_tb => v []
  | PTC_INSTRUCTION_op_add2_i32 | PTC_INSTRUCTION_op_sub2_i32
  | PTC_INSTRUCTION_op_add2_i64 | PTC_INSTRUCTION_op_sub2_i64 =>
      let DestinationType := IntegerTy (RegisterSize * 2) in
      do in0 <- at_ InArguments 0;
      do FirstOperandLow <- CreateSExt in0 DestinationType;
      do in1 <- at_ InArguments 1;
      do FirstOperandHigh <- CreateSExt in1 DestinationType;
      do in2 <- at_ InArguments 2;
      do SecondOperandLow <- CreateSExt in2 DestinationType;
      do in3 <- at_ InArguments 3;
      do SecondOperandHigh <- CreateSExt in3 DestinationType;
      do FirstOperandHigh <- CreateShl_imm FirstOperandHigh RegisterSize;
      do SecondOperandHigh <- CreateShl_imm SecondOperandHigh RegisterSize;
      do FirstOperand <- CreateOr FirstOperandHigh FirstOperandLow;
      do SecondOperand <- CreateOr SecondOperandHigh SecondOperandLow;
      do BinaryOp <- lift (opcodeToBinaryOp Opcode);
      do Result <- CreateBinOp BinaryOp FirstOperand SecondOperand;
      do ty <- theType RegisterType;
      do ResultLow <- CreateTrunc Result ty;
      do ShiftedResult <- CreateLShr_imm Result RegisterSize;
      do ResultHigh <- CreateTrunc ShiftedResult ty;
      v [ResultLow; ResultHigh]
  | PTC_INSTRUCTION_op_mulu2_i32 | PTC_INSTRUCTION_op_mulu2_i64
  | PTC_INSTRUCTION_op_muls2_i32 | PTC_INSTRUCTION_op_muls2_i64 =>
      let DestinationType := IntegerTy (RegisterSize * 2) in
      do '(FirstOperand, SecondOperand) <-
        (if bool_decide (Opcode = PTC_INSTRUCTION_op_mulu2_i32)
            || bool_decide (Opcode = PTC_INSTRUCTION_op_mulu2_i64)
         then
           do in0 <- at_ InArguments 0;
           do FirstOperand <- CreateZExt in0 DestinationType;
           do in1 <- at_ InArguments 1;
           do SecondOperand <- CreateZExt in1 DestinationType;
           ret (FirstOperand, SecondOperand)
         else if bool_decide (Opcode = PTC_INSTRUCTION_op_muls2_i32)
                 || bool_decide (Opcode = PTC_INSTRUCTION_op_muls2_i64)
         then
           do in0 <- at_ InArguments 0;
           do FirstOperand <- CreateSExt in0 DestinationType;
           do in1 <- at_ InArguments 1;
           do SecondOperand <- CreateSExt in1 DestinationType;
           ret (FirstOperand, SecondOperand)
         else llvm_unreachable "Unexpected opcode");
      do Result <- CreateMul FirstOperand SecondOperand;
      do ty <- theType RegisterType;
      do ResultLow <- CreateTrunc Result ty;
      do ShiftedResult <- CreateLShr_imm Result RegisterSize;
      do ResultHigh <- CreateTrunc ShiftedResult ty;
      v [ResultLow; ResultHigh]
  | PTC_INSTRUCTION_op_muluh_i32 | PTC_INSTRUCTION_op_mulsh_i32
  | PTC_INSTRUCTION_op_muluh_i64 | PTC_INSTRUCTION_op_mulsh_i64
  | PTC_INSTRUCTION_op_setcond2_i32
  | PTC_INSTRUCTION_op_trunc_shr_i32 =>
      llvm_unreachable "Instruction not implemented"
  | _ => llvm_unreachable "Unknown opcode"
  end.

(** [for (unsigned I = 0; I < N; I++) body(I)]. *)
Fixpoint for_ (I : nat) (N : nat) (body : nat -> M unit) : M unit :=
  match N with
  | O => ret tt
  | S N' => body I ;;; for_ (S I) N' body
  end.

(** The [LoadArgs] lambda. *)
Definition LoadArgs (TemporaryId : Z) : M Value :=
  CreateLoad (getOrCreate Variables TemporaryId).

(** [(Range | LoadArgs).toVector()]. *)
Fixpoint toVector (ids : list Z) : M (list Value) :=
  match ids with
  | [] => ret []
  | id :: rest =>
      do x <- LoadArgs id;
      do xs <- toVector rest;
      ret (x :: xs)
  end.

(** The body of the loop of [translate] that stores result [I]. *)
Definition storeResult (TheInstruction : PTCInstruction) (PC : Z)
    (Result : list Value) (I : nat) : M unit :=
  do out <- at_ (OutArguments TheInstruction) I;
  let Destination := getOrCreate Variables out in
  do Value_ <- at_ Result I;
  do Store <- CreateStore Value_ Destination;
  if isPCReg JumpTargets Destination then
    match asConstantInt Value_ with
    | Some val =>
        let Address := getLimitedValue val in
        if negb (PC =? Address) then JumpTargets_call (getBlockAt Address)
        else ret tt
    | None => ret tt
    end
  else ret tt.

Definition translate (TheInstruction : PTCInstruction) (PC : Z) : M bool :=
  do InArgs <- toVector (InArguments TheInstruction);
  do Result <- translateOpcode (opcode TheInstruction)
                 (ConstArguments TheInstruction) InArgs;
  match Result with
  | Error _ =>
      (if getFunction TheModule "abort" then ret tt
       else undefined "null callee") ;;;
      do call <- CreateCall "abort" VoidTy [];
      do unreachable <- CreateUnreachable;
      ret true
  | Values Result =>
      Assert (bool_decide (length Result = length (OutArguments TheInstruction)))
        "Result->size() == (size_t) TheInstruction.OutArguments.size()" ;;;
      for_ 0 (length Result) (storeResult TheInstruction PC Result) ;;;
      ret false
  end.

(** The instruction at a position of a block. *)
Definition instructionAt (s : TranslatorState) (loc : nat * nat)
  : option Value :=
  bb ← heap s !! loc.1; bbInsts bb !! loc.2.

(** [LastMarker->setArgOperand(i, V)] on the call at [loc]. *)
Definition setArgOperand (loc : nat * nat) (i : nat) (V : Value)
    (s : TranslatorState) : TranslatorState :=
  with_heap
    (alter (fun bb => mkBasicBlock (bbName bb)
              (alter (fun I =>
                        match I with
                        | CallInst callee ret args =>
                            CallInst callee ret (<[i := V]> args)
                        | _ => I
                        end) loc.2 (bbInsts bb)))
           loc.1 (heap s)) s.

Definition closeLastInstruction (PC : Z) : M unit :=
  do s <- get;
  match LastMarker s with
  | None => fatal "LastMarker != nullptr"
  | Some loc =>
      match instructionAt s loc with
      | Some (CallInst _ _ args) =>
          do Operand <- at_ args 0;
          match asConstantInt Operand with
          | None => fatal "cast<ConstantInt>() argument of incompatible type"
          | Some val =>
              let StartPC := getLimitedValue val in
              Assert (StartPC <? PC) "PC > StartPC" ;;;
              modify (setArgOperand loc 1
                        (ConstantInt 64 (Cxx.uint64 (PC - StartPC)))) ;;;
              modify (with_LastMarker None)
          end
      | _ => undefined "dangling LastMarker"
      end
  end.

(** [LastMarker = Builder.CreateCall(NewPCMarker, { getInt64(PC),
    getInt64(0) })]. *)
Definition openMarker (PC : Z) : M unit :=
  do s <- get;
  let index :=
    match heap s !! insertBlock s with
    | Some bb => length (bbInsts bb)
    | None => O
    end in
  do call <- CreateCall "newpc" VoidTy [ConstantInt 64 PC; ConstantInt 64 0];
  modify (with_LastMarker (Some (insertBlock s, index))).

(** [newInstruction]; the metadata node it also returns is not part of
    the model. *)
Definition newInstruction (TheInstruction : PTCInstruction) (IsFirst : bool)
  : M (bool * Z) :=
  do c0 <- at_ (ConstArguments TheInstruction) 0;
  do PC <-
    (if (1 <? length (ConstArguments TheInstruction))%nat
     then
       do c1 <- at_ (ConstArguments TheInstruction) 1;
       do high <- lift (Cxx.uint64_shl c1 32);
       ret (Z.lor c0 high)
     else ret c0);
  do diverged <-
    (if negb IsFirst then
       match newPC JumpTargets PC with
       | (Some DivergeTo, ShouldContinue) =>
           do br <- CreateBr DivergeTo;
           if ShouldContinue then
             Blocks_push_back DivergeTo ;;;
             SetInsertPoint DivergeTo ;;;
             Variables_newBasicBlock ;;;
             ret false
           else ret true
       | (None, _) => ret false
       end
     else ret false);
  if diverged : bool then ret (true, PC)
  else
    do s <- get;
    match LastMarker s with
    | Some _ => closeLastInstruction PC
    | None => ret tt
    end ;;;
    openMarker PC ;;;
    (if negb IsFirst then
       do s <- get;
       do atBegin <- empty (insertBlock s);
       if atBegin : bool then JumpTargets_call (registerBlock PC (insertBlock s))
       else
         match LastMarker s with
         | Some loc => JumpTargets_call (registerInstruction PC loc)
         | None => ret tt
         end
     else ret tt) ;;;
    ret (false, PC).

End InstructionTranslator.

(** ** Notions used to state the properties *)

(** The builder has a block to insert into. *)
Definition validInsertPoint (s : TranslatorState) : Prop :=
  is_Some (heap s !! insertBlock s).

(** An input operand as [translate] hands it to [translateOpcode]: the load
    of a temporary of [w] bits. *)
Definition loadOf (id w : Z) : Value := LoadInst (Storage id w) 0.

Definition op_rotl (w : Z) : PTCOpcode :=
  if w =? 32 then PTC_INSTRUCTION_op_rotl_i32 else PTC_INSTRUCTION_op_rotl_i64.

Definition op_rotr (w : Z) : PTCOpcode :=
  if w =? 32 then PTC_INSTRUCTION_op_rotr_i32 else PTC_INSTRUCTION_op_rotr_i64.

(** Rotation as the specification words it: [(x >> (w-n)) | (x << n)]
    within [w] bits for the left rotation, and symmetrically. *)
Definition rotate_left_spec (w x n : Z) : Z :=
  wrap w (Z.lor (Z.shiftr x (w - n)) (Z.shiftl x n)).

Definition rotate_right_spec (w x n : Z) : Z :=
  wrap w (Z.lor (Z.shiftl x (w - n)) (Z.shiftr x n)).

(** The wide multiplication of width [w], signed or unsigned. *)
Definition op_mul2 (signedness : bool) (w : Z) : PTCOpcode :=
  if w =? 32
  then if signedness then PTC_INSTRUCTION_op_muls2_i32
       else PTC_INSTRUCTION_op_mulu2_i32
  else if signedness then PTC_INSTRUCTION_op_muls2_i64
       else PTC_INSTRUCTION_op_mulu2_i64.

Definition op_deposit (w : Z) : PTCOpcode :=
  if w =? 32 then PTC_INSTRUCTION_op_deposit_i32
  else PTC_INSTRUCTION_op_deposit_i64.

(** The deposit as the specification words it:
    [(in0 & ~(mask(l) << p)) | ((in1 & mask(l)) << p)] within [w] bits,
    [mask(l)] being [l] ones. *)
Definition deposit_spec (w in0 in1 p l : Z) : Z :=
  Z.lor (Z.land in0 (wrap w (Z.lnot (Z.shiftl (Z.ones l) p))))
        (wrap w (Z.shiftl (Z.land in1 (Z.ones l)) p)).

(** The contents of the temporaries of a two-operand micro-operation:
    temporary 1 holds the first operand, the others the second. *)
Definition operands (x n : Z) : Z -> Z := fun id => if id =? 1 then x else n.

(** The left rotation of [x] by [n] as translated, followed by the right
    rotation of its result by [n] as translated, gives [x]. *)
Definition rotateRoundTrip (Variables : VariableManager)
    (JumpTargets : JumpTargetManager) (ptc : PTCInterface)
    (Source Target : Architecture) (w : Z) (s1 s2 : TranslatorState)
    (x n : Z) : Prop :=
  exists r1 s1' y r2 s2',
    translateOpcode Variables JumpTargets ptc Source Target
      (op_rotl w) [] [loadOf 1 w; loadOf 2 w] s1 = Done (Values [r1], s1') /\
    eval (operands x n) r1 = Some y /\
    translateOpcode Variables JumpTargets ptc Source Target
      (op_rotr w) [] [loadOf 1 w; loadOf 2 w] s2 = Done (Values [r2], s2') /\
    eval (operands y n) r2 = Some x.

(** Translating the definition of the label of [c0], whose block is [bb],
    succeeds and relocates [bb]: it becomes the last block of the function,
    the label table is unchanged, the block inserted into so far ends with
    a branch to [bb], and the insertion point is [bb]. *)
Definition setLabelRelocates (Variables : VariableManager)
    (JumpTargets : JumpTargetManager) (ptc : PTCInterface)
    (Source Target : Architecture) (c0 : Z) (InArguments : list Value)
    (bb : nat) (s : TranslatorState) : Prop :=
  exists s' previous,
    translateOpcode Variables JumpTargets ptc Source Target
      PTC_INSTRUCTION_op_set_label [c0] InArguments s = Done (Values [], s') /\
    functionBlocks s' = filter (fun b => b <> bb) (functionBlocks s) ++ [bb] /\
    LabeledBasicBlocks s' = LabeledBasicBlocks s /\
    heap s !! insertBlock s = Some previous /\
    heap s' !! insertBlock s
    = Some (mkBasicBlock (bbName previous) (bbInsts previous ++ [BranchInst bb])) /\
    insertBlock s' = bb /\
    Blocks s' = Blocks s ++ [bb].

(** A result can be stored to a destination: what [CreateStore] asserts. *)
Definition storable (V Destination : Value) : Prop :=
  typeOf Destination = PointerTy (bitsOf (typeOf V)) /\
  IRBuilder.isIntegerTy (typeOf V) = true.

(** The request the store of one result makes of the jump-target manager:
    a block at the stored address, when the destination is the program
    counter, the stored value is a constant and the constant is not the
    current program counter; nothing otherwise. *)
Definition discoveryRequest (Variables : VariableManager)
    (JumpTargets : JumpTargetManager) (PC : Z) (out : Z) (V : Value)
  : list JumpTargetsCall :=
  match V with
  | ConstantInt _ val =>
      if isPCReg JumpTargets (getOrCreate Variables out)
         && negb (getLimitedValue val =? PC)
      then [getBlockAt (getLimitedValue val)]
      else []
  | _ => []
  end.

Definition discoveryRequests (Variables : VariableManager)
    (JumpTargets : JumpTargetManager) (PC : Z) (outs : list Z)
    (Result : list Value) : list JumpTargetsCall :=
  concat (zip_with (discoveryRequest Variables JumpTargets PC) outs Result).

(** The loads and stores of fields of the process state: the opcodes of
    the two cases of [translateOpcode] that can return an error. *)
Definition isEnvLoad (Opcode : PTCOpcode) : bool :=
  match Opcode with
  | PTC_INSTRUCTION_op_ld8u_i32 | PTC_INSTRUCTION_op_ld8s_i32
  | PTC_INSTRUCTION_op_ld16u_i32 | PTC_INSTRUCTION_op_ld16s_i32
  | PTC_INSTRUCTION_op_ld_i32
  | PTC_INSTRUCTION_op_ld8u_i64 | PTC_INSTRUCTION_op_ld8s_i64
  | PTC_INSTRUCTION_op_ld16u_i64 | PTC_INSTRUCTION_op_ld16s_i64
  | PTC_INSTRUCTION_op_ld32u_i64 | PTC_INSTRUCTION_op_ld32s_i64
  | PTC_INSTRUCTION_op_ld_i64 => true
  | _ => false
  end.

Definition isEnvStore (Opcode : PTCOpcode) : bool :=
  match Opcode with
  | PTC_INSTRUCTION_op_st8_i32 | PTC_INSTRUCTION_op_st16_i32
  | PTC_INSTRUCTION_op_st_i32
  | PTC_INSTRUCTION_op_st8_i64 | PTC_INSTRUCTION_op_st16_i64
  | PTC_INSTRUCTION_op_st32_i64 | PTC_INSTRUCTION_op_st_i64 => true
  | _ => false
  end.

(** The accesses to guest memory. *)
Definition isGuestMemoryAccess (Opcode : PTCOpcode) : bool :=
  match Opcode with
  | PTC_INSTRUCTION_op_qemu_ld_i32 | PTC_INSTRUCTION_op_qemu_ld_i64
  | PTC_INSTRUCTION_op_qemu_st_i32 | PTC_INSTRUCTION_op_qemu_st_i64 => true
  | _ => false
  end.

(** The operand that carries the base of a process-state access: the first
    input of a load, the second of a store. *)
Definition baseOperand (Opcode : PTCOpcode) (InArguments : list Value)
  : option Value :=
  if isEnvLoad Opcode then InArguments !! 0%nat
  else if isEnvStore Opcode then InArguments !! 1%nat
  else None.

(** The operand was loaded from a place that is not the process state. *)
Definition notFromEnv (Variables : VariableManager) (operand : option Value)
  : Prop :=
  exists ptr align,
    operand = Some (LoadInst ptr align) /\ isEnv Variables ptr = false.

(** A process-state access whose base is not the process state. *)
Definition deniedEnvAccess (Variables : VariableManager)
    (Opcode : PTCOpcode) (InArguments : list Value) : Prop :=
  notFromEnv Variables (baseOperand Opcode InArguments).

(** The claim's words: a memory access, of either kind, whose address
    operand cannot be traced to the process state.  The address of a guest
    load is its first input, of a guest store its second. *)
Definition isMemoryAccess (Opcode : PTCOpcode) : bool :=
  isGuestMemoryAccess Opcode || isEnvLoad Opcode || isEnvStore Opcode.

Definition addressOperand (Opcode : PTCOpcode) (InArguments : list Value)
  : option Value :=
  match Opcode with
  | PTC_INSTRUCTION_op_qemu_ld_i32 | PTC_INSTRUCTION_op_qemu_ld_i64 =>
      InArguments !! 0%nat
  | PTC_INSTRUCTION_op_qemu_st_i32 | PTC_INSTRUCTION_op_qemu_st_i64 =>
      InArguments !! 1%nat
  | _ => baseOperand Opcode InArguments
  end.

Definition untracedMemoryAccess (Variables : VariableManager)
    (Opcode : PTCOpcode) (InArguments : list Value) : Prop :=
  isMemoryAccess Opcode = true /\
  notFromEnv Variables (addressOperand Opcode InArguments).

(** The dispatcher returned the recoverable failure. *)
Definition returnsFailure {A} (o : Outcome (ErrorOr A * TranslatorState))
  : bool :=
  match o with Done (Error _, _) => true | _ => false end.

(** The loads [translate] emits for the input operands, and the state
    after emitting a list of instructions. *)
Definition inputLoads (Variables : VariableManager) (ids : list Z)
  : list Value :=
  map (fun id => LoadInst (getOrCreate Variables id) 0) ids.

Definition appendInsts (Is : list Value) (s : TranslatorState)
  : TranslatorState :=
  foldl (fun s I => IRBuilder.appendInst I s) s Is.

(** A block to start from, and collaborators to instantiate the statements
    with: temporary 0 is the process state, temporary 7 the program
    counter, every temporary has 32 bits. *)
Definition entryState : TranslatorState :=
  mkState {[ 0%nat := mkBasicBlock "entry" [] ]} 1 [0%nat] 0 ∅ [] None 0 [].

Definition exampleVariables : VariableManager := {|
  getOrCreate := fun id => Storage id 32;
  isEnv := fun V => match V with Storage id _ => id =? 0 | _ => false end;
  getByEnvOffset := fun offset => Storage (1000 + offset) 32
|}.

Definition exampleJumpTargets : JumpTargetManager := {|
  isPCReg := fun V => match V with Storage id _ => id =? 7 | _ => false end;
  exitTB := "exitTB";
  newPC := fun _ => (None, false)
|}.

Definition examplePTC : PTCInterface := {|
  parse_load_store_arg := fun arg =>
    {| access_type := PTC_MEMORY_ACCESS_NORMAL; type_ := arg |};
  ptc_get_memory_access_size := fun _ => PTC_MO_32;
  ptc_is_sign_extended_load := fun _ => false;
  get_arg_label_id := fun arg => arg;
  to_PTCCondition := fun raw => if raw =? 8 then Some PTC_COND_EQ else None
|}.

Definition exampleModule : LLVMModule := {| getFunction := fun _ => true |}.

Definition exampleArchitecture : Architecture := {|
  defaultAlignment := 4;
  endianess := LittleEndian
|}.

(** A state in which label 3 has a block that already has content. *)
Definition occupiedLabelState : TranslatorState :=
  mkState
    {[ 0%nat := mkBasicBlock "entry" [];
       1%nat := mkBasicBlock "L3" [UnreachableInst] ]}
    2 [0%nat; 1%nat] 0 {[ "L3" := 1%nat ]} [] None 0 [].

(** A state in which label 3 has a block that is still empty. *)
Definition pendingLabelState : TranslatorState :=
  mkState
    {[ 0%nat := mkBasicBlock "entry" [];
       1%nat := mkBasicBlock "L3" [];
       2%nat := mkBasicBlock "" [] ]}
    3 [0%nat; 1%nat; 2%nat] 2 {[ "L3" := 1%nat ]} [2%nat] None 1 [].

(** ** Notions for the further properties *)

(** The opcodes of the case of [translateOpcode] that emits one binary
    operation on its two inputs. *)
Definition isBinaryArithmetic (Opcode : PTCOpcode) : bool :=
  match Opcode with
  | PTC_INSTRUCTION_op_add_i32 | PTC_INSTRUCTION_op_sub_i32
  | PTC_INSTRUCTION_op_mul_i32 | PTC_INSTRUCTION_op_div_i32
  | PTC_INSTRUCTION_op_divu_i32 | PTC_INSTRUCTION_op_rem_i32
  | PTC_INSTRUCTION_op_remu_i32 | PTC_INSTRUCTION_op_and_i32
  | PTC_INSTRUCTION_op_or_i32 | PTC_INSTRUCTION_op_xor_i32
  | PTC_INSTRUCTION_op_shl_i32 | PTC_INSTRUCTION_op_shr_i32
  | PTC_INSTRUCTION_op_sar_i32
  | PTC_INSTRUCTION_op_add_i64 | PTC_INSTRUCTION_op_sub_i64
  | PTC_INSTRUCTION_op_mul_i64 | PTC_INSTRUCTION_op_div_i64
  | PTC_INSTRUCTION_op_divu_i64 | PTC_INSTRUCTION_op_rem_i64
  | PTC_INSTRUCTION_op_remu_i64 | PTC_INSTRUCTION_op_and_i64
  | PTC_INSTRUCTION_op_or_i64 | PTC_INSTRUCTION_op_xor_i64
  | PTC_INSTRUCTION_op_shl_i64 | PTC_INSTRUCTION_op_shr_i64
  | PTC_INSTRUCTION_op_sar_i64 => true
  | _ => false
  end.

Definition op_not (w : Z) : PTCOpcode :=
  if w =? 32 then PTC_INSTRUCTION_op_not_i32 else PTC_INSTRUCTION_op_not_i64.

Definition op_neg (w : Z) : PTCOpcode :=
  if w =? 32 then PTC_INSTRUCTION_op_neg_i32 else PTC_INSTRUCTION_op_neg_i64.

(** The bitwise complement of a [w]-bit value. *)
Definition complement (w x : Z) : Z := 2 ^ w - 1 - x.


(** The bitwise operations the translator derives from a complement. *)
Inductive DerivedBitwise : Type := andc | orc | eqv | nand | nor.

Definition op_derived (k : DerivedBitwise) (w : Z) : PTCOpcode :=
  match k with
  | andc => if w =? 32 then PTC_INSTRUCTION_op_andc_i32
            else PTC_INSTRUCTION_op_andc_i64
  | orc => if w =? 32 then PTC_INSTRUCTION_op_orc_i32
           else PTC_INSTRUCTION_op_orc_i64
  | eqv => if w =? 32 then PTC_INSTRUCTION_op_eqv_i32
           else PTC_INSTRUCTION_op_eqv_i64
  | nand => if w =? 32 then PTC_INSTRUCTION_op_nand_i32
            else PTC_INSTRUCTION_op_nand_i64
  | nor => if w =? 32 then PTC_INSTRUCTION_op_nor_i32
           else PTC_INSTRUCTION_op_nor_i64
  end.

(** What each derived operation is to compute. *)
Definition derived_spec (k : DerivedBitwise) (w x y : Z) : Z :=
  match k with
  | andc => Z.land x (complement w y)
  | orc => Z.lor x (complement w y)
  | eqv => complement w (Z.lxor x y)
  | nand => complement w (Z.land x y)
  | nor => complement w (Z.lor x y)
  end.


(** The extensions: the width extended from and whether the sign is kept,
    as the two inner switches of the extension case select them. *)
Definition extensionOf (Opcode : PTCOpcode) : option (Z * bool) :=
  match Opcode with
  | PTC_INSTRUCTION_op_ext8s_i32 | PTC_INSTRUCTION_op_ext8s_i64 =>
      Some (8, true)
  | PTC_INSTRUCTION_op_ext8u_i32 | PTC_INSTRUCTION_op_ext8u_i64 =>
      Some (8, false)
  | PTC_INSTRUCTION_op_ext16s_i32 | PTC_INSTRUCTION_op_ext16s_i64 =>
      Some (16, true)
  | PTC_INSTRUCTION_op_ext16u_i32 | PTC_INSTRUCTION_op_ext16u_i64 =>
      Some (16, false)
  | PTC_INSTRUCTION_op_ext32s_i64 => Some (32, true)
  | PTC_INSTRUCTION_op_ext32u_i64 => Some (32, false)
  | _ => None
  end.

Definition op_setcond (w : Z) : PTCOpcode :=
  if w =? 32 then PTC_INSTRUCTION_op_setcond_i32
  else PTC_INSTRUCTION_op_setcond_i64.

Definition op_movcond (w : Z) : PTCOpcode :=
  if w =? 32 then PTC_INSTRUCTION_op_movcond_i32
  else PTC_INSTRUCTION_op_movcond_i64.

(** The meaning of a condition on two [w]-bit values: the plain conditions
    compare them as signed numbers, the ones marked [U] as unsigned. *)
Definition compares (c : PTCCondition) (w x y : Z) : bool :=
  match c with
  | PTC_COND_NEVER => false
  | PTC_COND_ALWAYS => true
  | PTC_COND_EQ => x =? y
  | PTC_COND_NE => negb (x =? y)
  | PTC_COND_LT => signed w x <? signed w y
  | PTC_COND_GE => signed w y <=? signed w x
  | PTC_COND_LE => signed w x <=? signed w y
  | PTC_COND_GT => signed w y <? signed w x
  | PTC_COND_LTU => x <? y
  | PTC_COND_GEU => y <=? x
  | PTC_COND_LEU => x <=? y
  | PTC_COND_GTU => y <? x
  end.

Definition isComparison (c : PTCCondition) : bool :=
  match c with
  | PTC_COND_NEVER | PTC_COND_ALWAYS => false
  | _ => true
  end.


(** The opcodes that build a comparison from a raw condition. *)
Definition usesCondition (Opcode : PTCOpcode) : bool :=
  match Opcode with
  | PTC_INSTRUCTION_op_setcond_i32 | PTC_INSTRUCTION_op_setcond_i64
  | PTC_INSTRUCTION_op_movcond_i32 | PTC_INSTRUCTION_op_movcond_i64
  | PTC_INSTRUCTION_op_brcond_i32 | PTC_INSTRUCTION_op_brcond_i64 => true
  | _ => false
  end.


(** An interface whose raw conditions are numbered as in TCG. *)
Definition tcgConditions : PTCInterface := {|
  parse_load_store_arg := parse_load_store_arg examplePTC;
  ptc_get_memory_access_size := ptc_get_memory_access_size examplePTC;
  ptc_is_sign_extended_load := ptc_is_sign_extended_load examplePTC;
  get_arg_label_id := get_arg_label_id examplePTC;
  to_PTCCondition := fun raw =>
    match raw with
    | 0 => Some PTC_COND_NEVER
    | 1 => Some PTC_COND_ALWAYS
    | 2 => Some PTC_COND_LT
    | 3 => Some PTC_COND_GE
    | 4 => Some PTC_COND_LTU
    | 5 => Some PTC_COND_GEU
    | 8 => Some PTC_COND_EQ
    | 9 => Some PTC_COND_NE
    | 10 => Some PTC_COND_LE
    | 11 => Some PTC_COND_GT
    | 12 => Some PTC_COND_LEU
    | 13 => Some PTC_COND_GTU
    | _ => None
    end
|}.


Definition op_div2 (signedness : bool) (w : Z) : PTCOpcode :=
  if w =? 32
  then if signedness then PTC_INSTRUCTION_op_div2_i32
       else PTC_INSTRUCTION_op_divu2_i32
  else if signedness then PTC_INSTRUCTION_op_div2_i64
       else PTC_INSTRUCTION_op_divu2_i64.


Definition op_addsub2 (subtract : bool) (w : Z) : PTCOpcode :=
  if w =? 32
  then if subtract then PTC_INSTRUCTION_op_sub2_i32
       else PTC_INSTRUCTION_op_add2_i32
  else if subtract then PTC_INSTRUCTION_op_sub2_i64
       else PTC_INSTRUCTION_op_add2_i64.

(** The double-width number the code puts together from a low and a high
    word.  Both words are sign extended before the high one is shifted and
    the two are or-ed: a low word with its top bit set fills the high half
    with ones, whatever the high word is. *)
Definition joined (w low high : Z) : Z :=
  if low <? 2 ^ (w - 1) then high * 2 ^ w + low
  else (2 ^ w - 1) * 2 ^ w + low.


(** The opcodes that end a basic block. *)
Definition isControl (Opcode : PTCOpcode) : bool :=
  match Opcode with
  | PTC_INSTRUCTION_op_set_label | PTC_INSTRUCTION_op_br
  | PTC_INSTRUCTION_op_brcond_i32 | PTC_INSTRUCTION_op_brcond2_i32
  | PTC_INSTRUCTION_op_brcond_i64 | PTC_INSTRUCTION_op_exit_tb => true
  | _ => false
  end.

(** An action that, when it returns, has done nothing to the state but
    append instructions at the insertion point. *)
Definition appendsOnly {A} (m : M A) : Prop :=
  forall s a s', m s = Done (a, s') -> exists Is, s' = appendInsts Is s.


(** No block lives at an address that is still to be handed out. *)
Definition fresh (s : TranslatorState) : Prop :=
  forall b, (nextAddress s <= b)%nat -> heap s !! b = None.


Definition op_brcond (w : Z) : PTCOpcode :=
  if w =? 32 then PTC_INSTRUCTION_op_brcond_i32
  else PTC_INSTRUCTION_op_brcond_i64.


(** A jump-target manager for which address 4100 has translated code in
    block 0. *)
Definition divergingJumpTargets : JumpTargetManager := {|
  isPCReg := isPCReg exampleJumpTargets;
  exitTB := exitTB exampleJumpTargets;
  newPC := fun PC => if PC =? 4100 then (Some 0%nat, false) else (None, false)
|}.


(** The number of values the translation of an opcode returns. *)
Definition arity (Opcode : PTCOpcode) : nat :=
  match Opcode with
  | PTC_INSTRUCTION_op_qemu_st_i32 | PTC_INSTRUCTION_op_qemu_st_i64
  | PTC_INSTRUCTION_op_st8_i32 | PTC_INSTRUCTION_op_st16_i32
  | PTC_INSTRUCTION_op_st_i32
  | PTC_INSTRUCTION_op_st8_i64 | PTC_INSTRUCTION_op_st16_i64
  | PTC_INSTRUCTION_op_st32_i64 | PTC_INSTRUCTION_op_st_i64
  | PTC_INSTRUCTION_op_set_label | PTC_INSTRUCTION_op_br
  | PTC_INSTRUCTION_op_brcond_i32 | PTC_INSTRUCTION_op_brcond2_i32
  | PTC_INSTRUCTION_op_brcond_i64
  | PTC_INSTRUCTION_op_exit_tb | PTC_INSTRUCTION_op_goto_tb => 0
  | PTC_INSTRUCTION_op_div2_i32 | PTC_INSTRUCTION_op_divu2_i32
  | PTC_INSTRUCTION_op_div2_i64 | PTC_INSTRUCTION_op_divu2_i64
  | PTC_INSTRUCTION_op_add2_i32 | PTC_INSTRUCTION_op_sub2_i32
  | PTC_INSTRUCTION_op_add2_i64 | PTC_INSTRUCTION_op_sub2_i64
  | PTC_INSTRUCTION_op_mulu2_i32 | PTC_INSTRUCTION_op_mulu2_i64
  | PTC_INSTRUCTION_op_muls2_i32 | PTC_INSTRUCTION_op_muls2_i64 => 2
  | _ => 1
  end.

(** An action whose values, when it returns some, are [n] in number. *)
Definition yields {A} (n : nat) (m : M (ErrorOr (list A))) : Prop :=
  forall s r s', m s = Done (Values r, s') -> length r = n.


(** ** Helper calls and the removal of the markers *)

(** A call micro-operation as [PTC::CallInstruction] presents it. *)
Module CallInstruction.
Record t : Type := {
  helperName : string;
  InArguments : list Z;
  OutArguments : list Z
}.
End CallInstruction.

Section HelperCalls.

Context (Variables : VariableManager).

(** [translateCall]: the function type and the declaration of the helper
    are represented by the name and the result type of the call. *)
Definition translateCall (TheCall : CallInstruction.t) : M unit :=
  do InArgs <- toVector Variables (CallInstruction.InArguments TheCall);
  Assert (length (CallInstruction.OutArguments TheCall) <=? 1)%nat
    "TheCall.OutArguments.size() <= 1" ;;;
  do '(ResultDestination, ResultType) <-
    (if negb (length (CallInstruction.OutArguments TheCall) =? 0)%nat
     then
       do out <- at_ (CallInstruction.OutArguments TheCall) 0;
       let ResultDestination := getOrCreate Variables out in
       match typeOf ResultDestination with
       | PointerTy b => ret (Some ResultDestination, IntegerTy b)
       | _ => fatal "getPointerElementType() of a non-pointer"
       end
     else ret (None, VoidTy));
  let HelperName := "helper_" +:+ CallInstruction.helperName TheCall in
  do Result <- IRBuilder.CreateCall HelperName ResultType InArgs;
  if negb (length (CallInstruction.OutArguments TheCall) =? 0)%nat
  then
    match ResultDestination with
    | Some Destination =>
        do Store <- IRBuilder.CreateStore Result Destination; ret tt
    | None => undefined "null pointer dereferenced"
    end
  else ret tt.

End HelperCalls.

(** A user of [NewPCMarker]: a call to it. *)
Definition isNewPCMarkerCall (I : Value) : bool :=
  match I with
  | CallInst callee _ _ => bool_decide (callee = "newpc")
  | _ => false
  end.

(** [removeNewPCMarkers]: every call to the marker that is in a block is
    erased from it. *)
Definition removeNewPCMarkers : M unit :=
  modify (fun s =>
    with_heap
      ((fun bb =>
          mkBasicBlock (bbName bb)
            (filter (fun I => isNewPCMarkerCall I = false) (bbInsts bb)))
         <$> heap s) s).

(** No block holds a marker. *)
Definition markerFree (s : TranslatorState) : Prop :=
  forall b bb, heap s !! b = Some bb ->
    Forall (fun I => isNewPCMarkerCall I = false) (bbInsts bb).


Definition op_qemu_ld (w : Z) : PTCOpcode :=
  if w =? 32 then PTC_INSTRUCTION_op_qemu_ld_i32
  else PTC_INSTRUCTION_op_qemu_ld_i64.

Definition op_qemu_st (w : Z) : PTCOpcode :=
  if w =? 32 then PTC_INSTRUCTION_op_qemu_st_i32
  else PTC_INSTRUCTION_op_qemu_st_i64.

(** The number of bits of a guest memory access. *)
Definition memoryBits (size : PTCMemoryOpcode) : option Z :=
  match size with
  | PTC_MO_8 => Some 8
  | PTC_MO_16 => Some 16
  | PTC_MO_32 => Some 32
  | PTC_MO_64 => Some 64
  | PTC_MO_other => None
  end.


Definition bigEndianArchitecture : Architecture := {|
  defaultAlignment := 8;
  endianess := BigEndian
|}.


Definition op_mov (w : Z) : PTCOpcode :=
  if w =? 32 then PTC_INSTRUCTION_op_mov_i32 else PTC_INSTRUCTION_op_mov_i64.

(** The opcodes the dispatcher has no translation for: the ones it names
    as not implemented, the ones [translate] never hands to it, the second
    form of the conditional branch and any opcode it does not list. *)
Definition isUntranslated (Opcode : PTCOpcode) : bool :=
  match Opcode with
  | PTC_INSTRUCTION_op_muluh_i32 | PTC_INSTRUCTION_op_mulsh_i32
  | PTC_INSTRUCTION_op_muluh_i64 | PTC_INSTRUCTION_op_mulsh_i64
  | PTC_INSTRUCTION_op_setcond2_i32 | PTC_INSTRUCTION_op_trunc_shr_i32
  | PTC_INSTRUCTION_op_brcond2_i32
  | PTC_INSTRUCTION_op_call | PTC_INSTRUCTION_op_debug_insn_start
  | PTC_INSTRUCTION_unlisted => true
  | _ => false
  end.


(** The run ended in a fatal error or in undefined behaviour: nothing was
    returned. *)
Definition stops {A} (o : Outcome A) : bool :=
  match o with Done _ => false | _ => true end.

(** * Properties *)

(** ** Running the monad *)

Lemma Insert_valid s I :
  validInsertPoint s -> IRBuilder.Insert I s = Done (I, IRBuilder.appendInst I s).
Proof.
  intros [bb Hbb]. unfold IRBuilder.Insert, bind, get. rewrite Hbb. reflexivity.
Qed.

Lemma validInsertPoint_appendInst s I :
  validInsertPoint s -> validInsertPoint (IRBuilder.appendInst I s).
Proof.
  intros [bb Hbb]. unfold validInsertPoint, IRBuilder.appendInst.
  destruct s; simpl in *. rewrite lookup_alter_eq, Hbb. eauto.
Qed.

Lemma validInsertPoint_entryState : validInsertPoint entryState.
Proof. unfold validInsertPoint. simpl. rewrite lookup_singleton_eq. eauto. Qed.

Create HintDb vip.
#[local] Hint Resolve validInsertPoint_appendInst validInsertPoint_entryState : vip.

Lemma bind_Done {A B} (m : M A) (k : A -> M B) s a s' r :
  m s = Done (a, s') -> k a s' = r -> bind m k s = r.
Proof. intros Hm Hk. unfold bind. rewrite Hm. exact Hk. Qed.

Create HintDb exec.
#[local] Hint Unfold IRBuilder.CreateBinOp IRBuilder.CreateSub
  IRBuilder.CreateMul IRBuilder.CreateXor IRBuilder.CreateAnd
  IRBuilder.CreateOr IRBuilder.CreateAnd_imm IRBuilder.CreateXor_imm
  IRBuilder.CreateShl_imm IRBuilder.CreateLShr_imm IRBuilder.withImmediate
  IRBuilder.CreateCast IRBuilder.CreateTrunc IRBuilder.CreateZExt
  IRBuilder.CreateSExt IRBuilder.CreateIntToPtr IRBuilder.CreateZExtOrTrunc
  IRBuilder.CreateICmp IRBuilder.CreateSelect IRBuilder.CreateAlignedLoad
  IRBuilder.CreateLoad IRBuilder.CreateAlignedStore IRBuilder.CreateStore
  IRBuilder.CreateCall IRBuilder.CreateBr IRBuilder.CreateCondBr
  IRBuilder.CreateUnreachable IRBuilder.checkBinOp v theType : exec.

(** Run an action whose outcome does not depend on the contents of the
    state beyond the presence of an insertion block. *)
Ltac exec :=
  lazymatch goal with
  | |- bind _ _ _ = _ =>
      eapply bind_Done; [ exec | cbv beta iota zeta; exec ]
  | |- IRBuilder.Insert _ _ = _ => apply Insert_valid; eauto 30 with vip
  | |- (if ?b then _ else _) _ = _ =>
      let b' := eval vm_compute in b in
      change b with b'; cbv beta iota zeta; exec
  | |- _ => first [ reflexivity | progress (autounfold with exec); exec ]
  end.

(** ** Arithmetic on bit vectors *)

Lemma wrap_range w z : 0 <= w -> 0 <= wrap w z < 2 ^ w.
Proof.
  intros. unfold wrap. apply Z.mod_pos_bound. apply Z.pow_pos_nonneg; lia.
Qed.

Lemma wrap_small w z : 0 <= z < 2 ^ w -> wrap w z = z.
Proof. intros. unfold wrap. apply Z.mod_small. lia. Qed.

Lemma testbit_high w x i :
  0 <= x < 2 ^ w -> 0 <= w -> w <= i -> Z.testbit x i = false.
Proof.
  intros Hx Hw Hi. rewrite <- (Z.mod_small x (2 ^ w)) by lia.
  apply Z.mod_pow2_bits_high. lia.
Qed.

Lemma wrap_lor w a b : 0 <= w -> wrap w (Z.lor a b) = Z.lor (wrap w a) (wrap w b).
Proof.
  intros Hw. unfold wrap. apply Z.bits_inj'. intros i Hi.
  rewrite Z.lor_spec, !Z.testbit_mod_pow2, Z.lor_spec by lia.
  destruct (i <? w); reflexivity.
Qed.

Lemma shiftr_range w a n : 0 <= n -> 0 <= a < 2 ^ w -> 0 <= Z.shiftr a n < 2 ^ w.
Proof.
  intros Hn Ha. rewrite Z.shiftr_div_pow2 by lia.
  assert (0 < 2 ^ n) by (apply Z.pow_pos_nonneg; lia).
  split.
  - apply Z.div_pos; lia.
  - apply Z.le_lt_trans with a; [|lia]. apply Z.div_le_upper_bound; nia.
Qed.

(** Rotating right by [n] and then left by [n], both written as two shifts
    and an or, gives the value back. *)
Lemma rotate_bits w x n :
  0 < n < w -> 0 <= x < 2 ^ w ->
  let y := Z.lor (Z.shiftr x n) (wrap w (Z.shiftl x (w - n))) in
  Z.lor (wrap w (Z.shiftl y n)) (Z.shiftr y (w - n)) = x.
Proof.
  intros Hn Hx y. apply Z.bits_inj'. intros i Hi.
  unfold y, wrap.
  rewrite Z.lor_spec, Z.shiftr_spec, Z.lor_spec, Z.shiftr_spec by lia.
  destruct (Z.lt_ge_cases i w) as [Hlt|Hge].
  - rewrite Z.mod_pow2_bits_low, Z.shiftl_spec by lia.
    rewrite (testbit_high w x (i + (w - n) + n)) by lia.
    destruct (Z.lt_ge_cases i n) as [Hin|Hin].
    + rewrite (Z.testbit_neg_r _ (i - n)) by lia.
      rewrite Z.mod_pow2_bits_low, Z.shiftl_spec by lia.
      replace (i + (w - n) - (w - n)) with i by lia. reflexivity.
    + rewrite Z.lor_spec, Z.shiftr_spec by lia.
      replace (i - n + n) with i by lia.
      rewrite Z.mod_pow2_bits_low, Z.shiftl_spec by lia.
      rewrite (Z.testbit_neg_r x (i - n - (w - n))) by lia.
      rewrite Z.mod_pow2_bits_high by lia.
      rewrite !orb_false_r. reflexivity.
  - rewrite Z.mod_pow2_bits_high by lia.
    rewrite (testbit_high w x (i + (w - n) + n)) by lia.
    rewrite Z.mod_pow2_bits_high by lia.
    rewrite (testbit_high w x i) by lia. reflexivity.
Qed.

(** ** Rotations *)

Section Rotations.

Context (Variables : VariableManager) (JumpTargets : JumpTargetManager).
Context (ptc : PTCInterface) (Source Target : Architecture).

Ltac rotate_eval w mem a b :=
  intros mem;
  pose proof (wrap_range w (mem a) ltac:(lia));
  pose proof (wrap_range w (mem b) ltac:(lia));
  cbn [eval loadOf typeOf bitsOf evalBinOp mbind option_bind];
  set (x := wrap w (mem a)) in *; set (n := wrap w (mem b)) in *;
  clearbody x n;
  change (wrap w w) with w;
  destruct (Z.ltb_spec n w); destruct (Z.ltb_spec 0 n);
  cbn [andb mbind option_bind]; try reflexivity;
  [ rewrite (wrap_small w (w - n)) by lia;
    destruct (Z.ltb_spec (w - n) w); [reflexivity | lia]
  | replace n with 0 by lia; reflexivity ].

(** What the case of [rotl] emits evaluates to: a logical shift right by
    [n] or-ed with a shift left by [w - n]; nothing when a shift amount
    reaches [w]. *)
Lemma translate_rotl w s a b :
  w = 32 \/ w = 64 -> validInsertPoint s ->
  exists r s',
    translateOpcode Variables JumpTargets ptc Source Target
      (op_rotl w) [] [loadOf a w; loadOf b w] s
    = Done (Values [r], s') /\
    forall mem,
      eval mem r =
      let x := wrap w (mem a) in
      let n := wrap w (mem b) in
      if (0 <? n) && (n <? w)
      then Some (Z.lor (Z.shiftr x n) (wrap w (Z.shiftl x (w - n))))
      else None.
Proof.
  intros Hw Hs.
  destruct Hw as [-> | ->];
    (eexists _, _; split;
     [ unfold translateOpcode, op_rotl;
       simpl (_ =? _); cbv iota; exec | ]).
  - rotate_eval 32 mem a b.
  - rotate_eval 64 mem a b.
Qed.

Lemma translate_rotr w s a b :
  w = 32 \/ w = 64 -> validInsertPoint s ->
  exists r s',
    translateOpcode Variables JumpTargets ptc Source Target
      (op_rotr w) [] [loadOf a w; loadOf b w] s
    = Done (Values [r], s') /\
    forall mem,
      eval mem r =
      let x := wrap w (mem a) in
      let n := wrap w (mem b) in
      if (0 <? n) && (n <? w)
      then Some (Z.lor (wrap w (Z.shiftl x n)) (Z.shiftr x (w - n)))
      else None.
Proof.
  intros Hw Hs.
  destruct Hw as [-> | ->];
    (eexists _, _; split;
     [ unfold translateOpcode, op_rotr;
       simpl (_ =? _); cbv iota; exec | ]).
  - rotate_eval 32 mem a b.
  - rotate_eval 64 mem a b.
Qed.

End Rotations.

(** C1.  The claim: the translated rotate-left of [x] by [n] is
    [(x >> (w-n)) | (x << n)] within [w] bits, and the translated
    rotate-right is [(x << (w-n)) | (x >> n)].  The code does the opposite:
    for [w] in 32, 64 and [0 < n < w], what [rotl] emits evaluates to the
    specification's rotate-right and what [rotr] emits to its rotate-left;
    at [w = 32], [x = 1], [n = 1] the two differ. *)
Theorem rotate_directions_swapped
    (Variables : VariableManager) (JumpTargets : JumpTargetManager)
    (ptc : PTCInterface) (Source Target : Architecture)
    (w : Z) (s : TranslatorState) (a b : Z) (mem : Z -> Z) (x n : Z) :
  w = 32 \/ w = 64 ->
  validInsertPoint s ->
  wrap w (mem a) = x -> wrap w (mem b) = n -> 0 < n < w ->
  exists l r sl sr,
    translateOpcode Variables JumpTargets ptc Source Target
      (op_rotl w) [] [loadOf a w; loadOf b w] s = Done (Values [l], sl) /\
    translateOpcode Variables JumpTargets ptc Source Target
      (op_rotr w) [] [loadOf a w; loadOf b w] s = Done (Values [r], sr) /\
    eval mem l = Some (rotate_right_spec w x n) /\
    eval mem r = Some (rotate_left_spec w x n) /\
    rotate_left_spec 32 1 1 = 2 /\
    rotate_right_spec 32 1 1 = 2147483648.
Proof.
  intros Hw Hs Hx Hn Hrange.
  assert (0 <= w) by lia.
  pose proof (wrap_range w (mem a) ltac:(lia)) as Hxr. rewrite Hx in Hxr.
  destruct (translate_rotl Variables JumpTargets ptc Source Target w s a b Hw Hs)
    as (l & sl & Hl & El).
  destruct (translate_rotr Variables JumpTargets ptc Source Target w s a b Hw Hs)
    as (r & sr & Hr & Er).
  exists l, r, sl, sr.
  assert (Hcond : (0 <? n) && (n <? w) = true).
  { apply andb_true_intro; split; [apply Z.ltb_lt | apply Z.ltb_lt]; lia. }
  repeat split; try assumption; try reflexivity.
  - rewrite El. cbv zeta. rewrite Hx, Hn, Hcond. f_equal.
    unfold rotate_right_spec. rewrite wrap_lor by lia.
    rewrite (wrap_small w (Z.shiftr x n)) by (apply shiftr_range; lia).
    apply Z.lor_comm.
  - rewrite Er. cbv zeta. rewrite Hx, Hn, Hcond. f_equal.
    unfold rotate_left_spec. rewrite wrap_lor by lia.
    rewrite (wrap_small w (Z.shiftr x (w - n))) by (apply shiftr_range; lia).
    apply Z.lor_comm.
Qed.

Lemma rotate_directions_swapped_witness :
  exists l r sl sr,
    translateOpcode exampleVariables exampleJumpTargets examplePTC
      exampleArchitecture exampleArchitecture
      (op_rotl 32) [] [loadOf 1 32; loadOf 2 32] entryState
    = Done (Values [l], sl) /\
    translateOpcode exampleVariables exampleJumpTargets examplePTC
      exampleArchitecture exampleArchitecture
      (op_rotr 32) [] [loadOf 1 32; loadOf 2 32] entryState
    = Done (Values [r], sr) /\
    eval (operands 1 1) l = Some (rotate_right_spec 32 1 1) /\
    eval (operands 1 1) r = Some (rotate_left_spec 32 1 1) /\
    rotate_left_spec 32 1 1 = 2 /\
    rotate_right_spec 32 1 1 = 2147483648.
Proof.
  apply (rotate_directions_swapped exampleVariables exampleJumpTargets
           examplePTC exampleArchitecture exampleArchitecture
           32 entryState 1 2 (operands 1 1) 1 1).
  - left; reflexivity.
  - apply validInsertPoint_entryState.
  - reflexivity.
  - reflexivity.
  - lia.
Defined.

(** For the amounts [0 < n < w] the two shifts the code emits are both
    defined, and the left rotation by [n] as translated followed by the
    right rotation by [n] as translated gives [x] again. *)
Lemma rotate_round_trip
    (Variables : VariableManager) (JumpTargets : JumpTargetManager)
    (ptc : PTCInterface) (Source Target : Architecture)
    (w : Z) (s1 s2 : TranslatorState) (x n : Z) :
  w = 32 \/ w = 64 ->
  validInsertPoint s1 -> validInsertPoint s2 ->
  0 <= x < 2 ^ w -> 0 < n < w ->
  rotateRoundTrip Variables JumpTargets ptc Source Target w s1 s2 x n.
Proof.
  intros Hw Hs1 Hs2 Hx Hn.
  assert (Hnr : 0 <= n < 2 ^ w).
  { destruct Hw as [-> | ->]; lia. }
  destruct (translate_rotl Variables JumpTargets ptc Source Target w s1 1 2 Hw Hs1)
    as (r1 & s1' & H1 & E1).
  destruct (translate_rotr Variables JumpTargets ptc Source Target w s2 1 2 Hw Hs2)
    as (r2 & s2' & H2 & E2).
  assert (Hcond : (0 <? n) && (n <? w) = true).
  { apply andb_true_intro; split; [apply Z.ltb_lt | apply Z.ltb_lt]; lia. }
  set (y := Z.lor (Z.shiftr x n) (wrap w (Z.shiftl x (w - n)))).
  assert (Hy : 0 <= y < 2 ^ w).
  { unfold y. rewrite <- (wrap_small w (Z.shiftr x n)) by (apply shiftr_range; lia).
    rewrite <- wrap_lor by lia. apply wrap_range. lia. }
  exists r1, s1', y, r2, s2'. repeat split.
  - exact H1.
  - rewrite E1. cbv zeta.
    change (operands x n 1) with x. change (operands x n 2) with n.
    rewrite (wrap_small w x), (wrap_small w n), Hcond by lia. reflexivity.
  - exact H2.
  - rewrite E2. cbv zeta.
    change (operands y n 1) with y. change (operands y n 2) with n.
    rewrite (wrap_small w y), (wrap_small w n), Hcond by lia. f_equal.
    apply rotate_bits; lia.
Qed.

Lemma rotate_round_trip_witness :
  rotateRoundTrip exampleVariables exampleJumpTargets examplePTC
    exampleArchitecture exampleArchitecture 32 entryState entryState
    305419896 8.
Proof.
  apply (rotate_round_trip exampleVariables exampleJumpTargets examplePTC
           exampleArchitecture exampleArchitecture 32 entryState entryState
           305419896 8).
  - left; reflexivity.
  - apply validInsertPoint_entryState.
  - apply validInsertPoint_entryState.
  - lia.
  - lia.
Defined.

(** The rotations the specification words are the identity at the
    amount 0. *)
Lemma rotate_spec_zero w x :
  0 < w -> 0 <= x < 2 ^ w ->
  rotate_left_spec w x 0 = x /\ rotate_right_spec w x 0 = x.
Proof.
  intros Hw Hx. unfold rotate_left_spec, rotate_right_spec.
  rewrite Z.sub_0_r, Z.shiftl_0_r, Z.shiftr_0_r.
  assert (Hp : 0 < 2 ^ w) by (apply Z.pow_pos_nonneg; lia).
  split.
  - rewrite Z.shiftr_div_pow2, Z.div_small, Z.lor_0_l by lia.
    apply wrap_small. exact Hx.
  - rewrite wrap_lor by lia. rewrite Z.shiftl_mul_pow2 by lia.
    unfold wrap at 1. rewrite Z.mod_mul, Z.lor_0_l by lia.
    apply wrap_small. exact Hx.
Qed.

(** C5.  The claim: for every [x] of [w] bits and every amount
    [0 <= n < w], the left rotation by [n] as translated followed by the
    right rotation by [n] as translated gives [x] again.  At the amount 0
    the rotation the specification words is the identity, so the claim asks
    for [x] there.  The code has no case for the amount 0: for the left and
    for the right rotation alike it emits a shift by [w - 0 = w], which has
    no defined value, so at the amount 0 neither rotation has a value and
    there is no round trip, whatever [x] and the states. *)
Theorem rotate_by_zero_has_no_value
    (Variables : VariableManager) (JumpTargets : JumpTargetManager)
    (ptc : PTCInterface) (Source Target : Architecture)
    (w : Z) (s1 s2 : TranslatorState) (x : Z) :
  w = 32 \/ w = 64 ->
  validInsertPoint s1 -> validInsertPoint s2 ->
  0 <= x < 2 ^ w ->
  rotate_right_spec w (rotate_left_spec w x 0) 0 = x /\
  (exists r s',
     translateOpcode Variables JumpTargets ptc Source Target
       (op_rotl w) [] [loadOf 1 w; loadOf 2 w] s1 = Done (Values [r], s') /\
     eval (operands x 0) r = None) /\
  (exists r s',
     translateOpcode Variables JumpTargets ptc Source Target
       (op_rotr w) [] [loadOf 1 w; loadOf 2 w] s2 = Done (Values [r], s') /\
     eval (operands x 0) r = None) /\
  ~ rotateRoundTrip Variables JumpTargets ptc Source Target w s1 s2 x 0.
Proof.
  intros Hw Hs1 Hs2 Hx.
  assert (Hw0 : 0 < w) by (destruct Hw; lia).
  destruct (rotate_spec_zero w x Hw0 Hx) as [Hl Hr].
  destruct (translate_rotl Variables JumpTargets ptc Source Target w s1 1 2
              Hw Hs1) as (r1 & s1' & H1 & E1).
  destruct (translate_rotr Variables JumpTargets ptc Source Target w s2 1 2
              Hw Hs2) as (r2 & s2' & H2 & E2).
  assert (Hzero : wrap w (operands x 0 2) = 0).
  { change (operands x 0 2) with 0. apply wrap_small.
    split; [lia | apply Z.pow_pos_nonneg; lia]. }
  assert (N1 : eval (operands x 0) r1 = None).
  { rewrite E1. cbv zeta. rewrite Hzero. reflexivity. }
  assert (N2 : eval (operands x 0) r2 = None).
  { rewrite E2. cbv zeta. rewrite Hzero. reflexivity. }
  split; [rewrite Hl; exact Hr|].
  split; [exists r1, s1'; split; assumption|].
  split; [exists r2, s2'; split; assumption|].
  intros (r & s' & y & _ & _ & H & E & _).
  rewrite H1 in H. injection H as <- _.
  rewrite N1 in E. discriminate E.
Qed.

Lemma rotate_by_zero_has_no_value_witness :
  rotate_right_spec 32 (rotate_left_spec 32 1 0) 0 = 1 /\
  (exists r s',
     translateOpcode exampleVariables exampleJumpTargets examplePTC
       exampleArchitecture exampleArchitecture
       (op_rotl 32) [] [loadOf 1 32; loadOf 2 32] entryState
     = Done (Values [r], s') /\
     eval (operands 1 0) r = None) /\
  (exists r s',
     translateOpcode exampleVariables exampleJumpTargets examplePTC
       exampleArchitecture exampleArchitecture
       (op_rotr 32) [] [loadOf 1 32; loadOf 2 32] entryState
     = Done (Values [r], s') /\
     eval (operands 1 0) r = None) /\
  ~ rotateRoundTrip exampleVariables exampleJumpTargets examplePTC
      exampleArchitecture exampleArchitecture 32 entryState entryState 1 0.
Proof.
  apply (rotate_by_zero_has_no_value exampleVariables exampleJumpTargets
           examplePTC exampleArchitecture exampleArchitecture
           32 entryState entryState 1).
  - left; reflexivity.
  - apply validInsertPoint_entryState.
  - apply validInsertPoint_entryState.
  - lia.
Defined.

(** ** Byte swaps, discard, deposit *)

(** C2.  The claim: every byte-swap micro-operation translates successfully
    to the truncated, byte-reversed, zero-extended input.  The code never
    gets there: the inner switch that selects the swap type has no [break],
    so every byte-swap opcode runs into its [default] arm and the
    translation is fatal, whatever the operands and the state. *)
Theorem bswap_is_fatal
    (Variables : VariableManager) (JumpTargets : JumpTargetManager)
    (ptc : PTCInterface) (Source Target : Architecture)
    (ConstArguments : list Z) (InArguments : list Value)
    (s : TranslatorState) :
  let translateOpcode' Opcode :=
    translateOpcode Variables JumpTargets ptc Source Target
      Opcode ConstArguments InArguments s in
  translateOpcode' PTC_INSTRUCTION_op_bswap16_i32 = Fatal "Unexpected opcode" /\
  translateOpcode' PTC_INSTRUCTION_op_bswap32_i32 = Fatal "Unexpected opcode" /\
  translateOpcode' PTC_INSTRUCTION_op_bswap16_i64 = Fatal "Unexpected opcode" /\
  translateOpcode' PTC_INSTRUCTION_op_bswap32_i64 = Fatal "Unexpected opcode" /\
  translateOpcode' PTC_INSTRUCTION_op_bswap64_i64 = Fatal "Unexpected opcode".
Proof. repeat split; reflexivity. Qed.

(** C4.  The claim: translating [discard] succeeds with one result, the
    zero constant of the opcode's width.  In the code the width table gives
    [discard] the width 0, for which no register type is selected, and the
    zero constant is requested of a null type: the translation has no
    defined outcome, whatever the operands and the state. *)
Theorem discard_has_no_register_type
    (Variables : VariableManager) (JumpTargets : JumpTargetManager)
    (ptc : PTCInterface) (Source Target : Architecture)
    (ConstArguments : list Z) (InArguments : list Value)
    (s : TranslatorState) :
  getRegisterSize PTC_INSTRUCTION_op_discard = Done 0 /\
  translateOpcode Variables JumpTargets ptc Source Target
    PTC_INSTRUCTION_op_discard ConstArguments InArguments s
  = Undefined "null Type pointer dereferenced".
Proof. split; reflexivity. Qed.

(** C3.  The claim: the deposit of length [l] at position [p] equals
    [(in0 & ~(mask(l) << p)) | ((in1 & mask(l)) << p)] for every [l],
    lengths from 32 to 63 at width 64 included.  The code computes
    [mask(l)] as [(1 << Length) - 1] on [int]: for every such length at
    width 64 the shift count is not below the width of [int] and the
    translation has no defined outcome. *)
Theorem deposit_wide_length_undefined
    (Variables : VariableManager) (JumpTargets : JumpTargetManager)
    (ptc : PTCInterface) (Source Target : Architecture)
    (p l : Z) (InArguments : list Value) (s : TranslatorState) :
  0 <= p -> 32 <= l < 64 -> p + l <= 64 ->
  translateOpcode Variables JumpTargets ptc Source Target
    PTC_INSTRUCTION_op_deposit_i64 [p; l] InArguments s
  = Undefined "shift count not below the width of int".
Proof.
  intros Hp Hl Hpl.
  unfold translateOpcode.
  eapply bind_Done; [reflexivity|]. cbv beta iota zeta.
  eapply bind_Done; [reflexivity|]. cbv beta iota zeta.
  eapply bind_Done; [reflexivity|]. cbv beta iota zeta.
  assert (Hup : Cxx.unsigned p = p).
  { unfold Cxx.unsigned. apply Z.mod_small. lia. }
  assert (Hul : Cxx.unsigned l = l).
  { unfold Cxx.unsigned. apply Z.mod_small. lia. }
  rewrite Hup.
  destruct (Z.eqb_spec p 64); [lia|].
  eapply bind_Done; [reflexivity|]. cbv beta iota zeta.
  rewrite Hul. unfold depositBits.
  destruct (Z.eqb_spec l 64); [lia|].
  unfold bind, lift, Cxx.int_shl.
  destruct (Z.ltb_spec l 32); [lia|].
  rewrite andb_false_r. reflexivity.
Qed.

Lemma deposit_wide_length_undefined_witness :
  translateOpcode exampleVariables exampleJumpTargets examplePTC
    exampleArchitecture exampleArchitecture
    PTC_INSTRUCTION_op_deposit_i64 [0; 32] [loadOf 1 64; loadOf 2 64] entryState
  = Undefined "shift count not below the width of int".
Proof.
  apply (deposit_wide_length_undefined exampleVariables exampleJumpTargets
           examplePTC exampleArchitecture exampleArchitecture
           0 32 [loadOf 1 64; loadOf 2 64] entryState); lia.
Defined.

(** ** Deposit within the range of [int] *)

Lemma CreateBinOp_inst op lhs rhs s :
  validInsertPoint s ->
  typeOf lhs = typeOf rhs ->
  IRBuilder.isIntegerTy (typeOf lhs) = true ->
  isConstant lhs && isConstant rhs = false ->
  IRBuilder.CreateBinOp op lhs rhs s
  = Done (BinaryOperator op lhs rhs,
          IRBuilder.appendInst (BinaryOperator op lhs rhs) s).
Proof.
  intros Hs Hty Hint Hc.
  unfold IRBuilder.CreateBinOp, IRBuilder.checkBinOp.
  rewrite bool_decide_eq_true_2 by exact Hty. rewrite Hint, Hc.
  eapply bind_Done; [reflexivity|]. apply Insert_valid. exact Hs.
Qed.

Lemma CreateAnd_inst lhs rhs s :
  validInsertPoint s ->
  typeOf lhs = typeOf rhs ->
  IRBuilder.isIntegerTy (typeOf lhs) = true ->
  isConstant lhs = false ->
  IRBuilder.isAllOnes rhs = false ->
  IRBuilder.CreateAnd lhs rhs s
  = Done (BinaryOperator And lhs rhs,
          IRBuilder.appendInst (BinaryOperator And lhs rhs) s).
Proof.
  intros Hs Hty Hint Hc Hones.
  unfold IRBuilder.CreateAnd, IRBuilder.checkBinOp.
  rewrite bool_decide_eq_true_2 by exact Hty. rewrite Hint, Hc, Hones.
  rewrite !andb_false_r.
  eapply bind_Done; [reflexivity|]. apply Insert_valid. exact Hs.
Qed.

Lemma CreateOr_inst lhs rhs s :
  validInsertPoint s ->
  typeOf lhs = typeOf rhs ->
  IRBuilder.isIntegerTy (typeOf lhs) = true ->
  isConstant rhs = false ->
  IRBuilder.CreateOr lhs rhs s
  = Done (BinaryOperator Or lhs rhs,
          IRBuilder.appendInst (BinaryOperator Or lhs rhs) s).
Proof.
  intros Hs Hty Hint Hc.
  unfold IRBuilder.CreateOr, IRBuilder.checkBinOp.
  rewrite bool_decide_eq_true_2 by exact Hty. rewrite Hint, Hc.
  eapply bind_Done; [reflexivity|]. apply Insert_valid. exact Hs.
Qed.

Section Deposit.

Context (Variables : VariableManager) (JumpTargets : JumpTargetManager).
Context (ptc : PTCInterface) (Source Target : Architecture).

(** For the lengths whose mask the [int] arithmetic can hold, what the
    deposit case emits evaluates to the deposit of the specification. *)
Lemma translate_deposit_short w p l s a b :
  w = 32 \/ w = 64 -> validInsertPoint s ->
  0 <= p -> 0 < l <= 30 -> p + l <= w ->
  exists r s',
    translateOpcode Variables JumpTargets ptc Source Target
      (op_deposit w) [p; l] [loadOf a w; loadOf b w] s
    = Done (Values [r], s') /\
    forall mem,
      eval mem r
      = Some (deposit_spec w (wrap w (mem a)) (wrap w (mem b)) p l).
Proof.
  intros Hw Hs Hp Hl Hpl.
  assert (Hup : Cxx.unsigned p = p).
  { unfold Cxx.unsigned. apply Z.mod_small. destruct Hw; lia. }
  assert (Hul : Cxx.unsigned l = l).
  { unfold Cxx.unsigned. apply Z.mod_small. lia. }
  assert (Hpow : 0 < 2 ^ l) by (apply Z.pow_pos_nonneg; lia).
  assert (Hpow30 : 2 ^ l <= 2 ^ 30) by (apply Z.pow_le_mono_r; lia).
  assert (Hbits : depositBits l w s = Done (Z.ones l, s)).
  { unfold depositBits. destruct (Z.eqb_spec l w); [destruct Hw; lia|].
    unfold bind, lift, Cxx.int_shl, Cxx.int_sub, Cxx.int_to_uint64,
      Cxx.uint64, Cxx.INT_MIN, Cxx.INT_MAX, ret.
    rewrite Z.mul_1_l.
    destruct (Z.leb_spec 0 l); [|lia]. destruct (Z.ltb_spec l 32); [|lia].
    cbn [andb Z.leb Z.compare].
    destruct (Z.ltb_spec (2 ^ l) (2 ^ 32)); [|lia].
    destruct (Z.leb_spec (2 ^ l) (2 ^ 31 - 1)); [|lia].
    destruct (Z.leb_spec (- 2 ^ 31) (2 ^ l - 1)); [|lia].
    destruct (Z.leb_spec (2 ^ l - 1) (2 ^ 31 - 1)); [|lia].
    cbn [andb]. rewrite Z.mod_small by lia.
    rewrite Z.ones_equiv. reflexivity. }
  set (m := Z.shiftl (Z.ones l) p).
  assert (Hm : 0 < m < 2 ^ w).
  { unfold m. rewrite Z.shiftl_mul_pow2, Z.ones_equiv by lia.
    assert (0 < 2 ^ p) by (apply Z.pow_pos_nonneg; lia).
    assert (2 ^ l * 2 ^ p <= 2 ^ w).
    { rewrite <- Z.pow_add_r by lia. apply Z.pow_le_mono_r; lia. }
    assert (2 ^ 1 <= 2 ^ l) by (apply Z.pow_le_mono_r; lia).
    change (2 ^ 1) with 2 in *.
    replace (Z.pred (2 ^ l)) with (2 ^ l - 1) by lia.
    rewrite Z.mul_sub_distr_r. nia. }
  assert (Hshl : Cxx.uint64_shl (Z.ones l) p = Done m).
  { unfold Cxx.uint64_shl, Cxx.uint64.
    destruct (Z.leb_spec 0 p); [|lia].
    destruct (Z.ltb_spec p 64); [|destruct Hw; lia].
    cbn [andb]. rewrite <- Z.shiftl_mul_pow2 by lia. fold m.
    rewrite Z.mod_small; [reflexivity|].
    assert (2 ^ w <= 2 ^ 64) by (apply Z.pow_le_mono_r; destruct Hw; lia).
    lia. }
  assert (Hnot : wrap w (Cxx.uint64_not m) = 2 ^ w - 1 - m).
  { unfold wrap, Cxx.uint64_not. destruct Hw as [-> | ->].
    - replace (2 ^ 64 - 1 - m) with (2 ^ 32 - 1 - m + (2 ^ 32 - 1) * 2 ^ 32)
        by lia.
      rewrite Z.mod_add by lia. apply Z.mod_small. lia.
    - apply Z.mod_small. lia. }
  assert (Hlnot : wrap w (Z.lnot m) = 2 ^ w - 1 - m).
  { unfold wrap, Z.lnot.
    replace (Z.pred (- m)) with (2 ^ w - 1 - m + (-1) * 2 ^ w) by lia.
    rewrite Z.mod_add by lia. apply Z.mod_small. lia. }
  assert (Hones : 0 <= Z.ones l < 2 ^ 30).
  { rewrite Z.ones_equiv. lia. }
  assert (H30 : 2 ^ 30 < 2 ^ w - 1) by (destruct Hw as [-> | ->]; lia).
  assert (Hwp : wrap w p = p).
  { apply wrap_small. assert (2 ^ p < 2 ^ w) by (apply Z.pow_lt_mono_r; lia).
    assert (p < 2 ^ p) by (apply Z.pow_gt_lin_r; lia). lia. }
  assert (Hexec :
    translateOpcode Variables JumpTargets ptc Source Target
      (op_deposit w) [p; l] [loadOf a w; loadOf b w] s
    = Done (Values
              [BinaryOperator Or
                 (BinaryOperator And (loadOf a w)
                    (ConstantInt w (wrap w (Cxx.uint64_not m))))
                 (BinaryOperator Shl
                    (BinaryOperator And (loadOf b w)
                       (ConstantInt w (wrap w (Z.ones l))))
                    (ConstantInt w (wrap w p)))],
            IRBuilder.appendInst
              (BinaryOperator Or
                 (BinaryOperator And (loadOf a w)
                    (ConstantInt w (wrap w (Cxx.uint64_not m))))
                 (BinaryOperator Shl
                    (BinaryOperator And (loadOf b w)
                       (ConstantInt w (wrap w (Z.ones l))))
                    (ConstantInt w (wrap w p))))
              (IRBuilder.appendInst
                 (BinaryOperator Shl
                    (BinaryOperator And (loadOf b w)
                       (ConstantInt w (wrap w (Z.ones l))))
                    (ConstantInt w (wrap w p)))
                 (IRBuilder.appendInst
                    (BinaryOperator And (loadOf b w)
                       (ConstantInt w (wrap w (Z.ones l))))
                    (IRBuilder.appendInst
                       (BinaryOperator And (loadOf a w)
                          (ConstantInt w (wrap w (Cxx.uint64_not m))))
                       s))))).
  { assert (Hall1 : IRBuilder.isAllOnes
                      (ConstantInt w (wrap w (Cxx.uint64_not m))) = false).
    { cbn [IRBuilder.isAllOnes]. apply Z.eqb_neq. rewrite Hnot. lia. }
    assert (Hall2 : IRBuilder.isAllOnes
                      (ConstantInt w (wrap w (Z.ones l))) = false).
    { cbn [IRBuilder.isAllOnes]. apply Z.eqb_neq.
      rewrite wrap_small by lia. lia. }
    destruct Hw as [-> | ->];
      (unfold translateOpcode, op_deposit; simpl (_ =? _); cbv iota;
       do 3 (eapply bind_Done; [reflexivity|]; cbv beta iota zeta);
       rewrite Hup;
       lazymatch goal with
       | |- context [p =? ?k] => destruct (Z.eqb_spec p k); [lia|]
       end;
       eapply bind_Done; [reflexivity|]; cbv beta iota zeta;
       rewrite Hul;
       eapply bind_Done; [exact Hbits|]; cbv beta iota zeta;
       rewrite Hshl;
       do 2 (eapply bind_Done; [reflexivity|]; cbv beta iota zeta);
       eapply bind_Done;
       [ unfold IRBuilder.CreateAnd_imm, IRBuilder.withImmediate;
         eapply bind_Done; [reflexivity|];
         apply CreateAnd_inst;
         [exact Hs | reflexivity | reflexivity | reflexivity | exact Hall1]
       | ];
       cbv beta iota zeta;
       eapply bind_Done; [reflexivity|]; cbv beta iota zeta;
       eapply bind_Done;
       [ unfold IRBuilder.CreateAnd_imm, IRBuilder.withImmediate;
         eapply bind_Done; [reflexivity|];
         apply CreateAnd_inst;
         [ eauto with vip | reflexivity | reflexivity | reflexivity
         | exact Hall2 ]
       | ];
       cbv beta iota zeta;
       eapply bind_Done;
       [ unfold IRBuilder.CreateShl_imm, IRBuilder.withImmediate;
         eapply bind_Done; [reflexivity|];
         apply CreateBinOp_inst;
         [ eauto with vip | reflexivity | reflexivity | reflexivity ]
       | ];
       cbv beta iota zeta;
       eapply bind_Done;
       [ apply CreateOr_inst;
         [ eauto 10 with vip | reflexivity | reflexivity | reflexivity ]
       | ];
       reflexivity). }
  eexists _, _. split; [exact Hexec|].
  intros mem.
  cbn [eval loadOf typeOf bitsOf evalBinOp mbind option_bind].
  rewrite Hwp.
  destruct (Z.ltb_spec p w); [|lia].
  cbn [mbind option_bind].
  unfold deposit_spec. fold m.
  rewrite Hnot, Hlnot, (wrap_small w (Z.ones l)) by lia.
  reflexivity.
Qed.

(** The length [w] is the one the code sets apart. *)
Lemma translate_deposit_full w s a b :
  w = 32 \/ w = 64 -> validInsertPoint s ->
  exists r s',
    translateOpcode Variables JumpTargets ptc Source Target
      (op_deposit w) [0; w] [loadOf a w; loadOf b w] s
    = Done (Values [r], s') /\
    forall mem,
      eval mem r
      = Some (deposit_spec w (wrap w (mem a)) (wrap w (mem b)) 0 w).
Proof.
  intros Hw Hs.
  destruct Hw as [-> | ->];
    (eexists _, _; split;
     [ unfold translateOpcode, op_deposit; simpl (_ =? _); cbv iota; exec
     | intros mem;
       cbn [eval loadOf typeOf bitsOf evalBinOp mbind option_bind];
       unfold deposit_spec;
       lazymatch goal with
       | |- context [wrap ?w (mem b)] =>
           pose proof (wrap_range w (mem b) ltac:(lia)) as Hy;
           set (y := wrap w (mem b)) in *;
           set (x := wrap w (mem a)) in *;
           rewrite (Z.land_ones y w) by lia;
           rewrite (Z.mod_small y) by lia
       end;
       reflexivity ]).
Qed.

End Deposit.

(** ** Wide multiplication *)

Lemma pow2_double w : 0 <= w -> 2 ^ (2 * w) = 2 ^ w * 2 ^ w.
Proof. intros. replace (2 * w) with (w + w) by lia. apply Z.pow_add_r; lia. Qed.

Lemma pow2_pred w : 0 < w -> 2 ^ w = 2 * 2 ^ (w - 1).
Proof.
  intros. replace w with (Z.succ (w - 1)) at 1 by lia.
  apply Z.pow_succ_r. lia.
Qed.

(** The low and high halves of a double-width value put it together
    again. *)
Lemma split_halves w P :
  0 < w -> 0 <= P < 2 ^ (2 * w) ->
  wrap w (Z.shiftr P w) * 2 ^ w + wrap w P = P.
Proof.
  intros Hw HP. rewrite pow2_double in HP by lia.
  assert (0 < 2 ^ w) by (apply Z.pow_pos_nonneg; lia).
  rewrite Z.shiftr_div_pow2 by lia.
  rewrite (wrap_small w (P / 2 ^ w)).
  - unfold wrap. rewrite (Z.div_mod P (2 ^ w)) at 3 by lia. lia.
  - split.
    + apply Z.div_pos; lia.
    + apply Z.div_lt_upper_bound; lia.
Qed.

Lemma signed_range w A :
  0 < w -> 0 <= A < 2 ^ w -> - 2 ^ (w - 1) <= signed w A < 2 ^ (w - 1).
Proof.
  intros Hw HA. unfold signed. rewrite (pow2_pred w) in * by lia.
  destruct (Z.ltb_spec A (2 ^ (w - 1))); lia.
Qed.

Lemma signed_wrap k z :
  0 < k -> - 2 ^ (k - 1) <= z < 2 ^ (k - 1) -> signed k (wrap k z) = z.
Proof.
  intros Hk Hz. unfold signed, wrap.
  assert (0 < 2 ^ (k - 1)) by (apply Z.pow_pos_nonneg; lia).
  pose proof (pow2_pred k Hk) as Hp.
  destruct (Z.lt_ge_cases z 0) as [Hneg | Hpos].
  - replace (z mod 2 ^ k) with (z + 2 ^ k).
    + destruct (Z.ltb_spec (z + 2 ^ k) (2 ^ (k - 1))); lia.
    + symmetry. rewrite <- (Z.mod_add z 1 (2 ^ k)) by lia.
      rewrite Z.mul_1_l. apply Z.mod_small. lia.
  - rewrite Z.mod_small by lia.
    destruct (Z.ltb_spec z (2 ^ (k - 1))); lia.
Qed.

Lemma wrap_mul k a b : wrap k (wrap k a * wrap k b) = wrap k (a * b).
Proof.
  unfold wrap. destruct (Z.eq_dec (2 ^ k) 0) as [E | E].
  - rewrite E, !Z.mod_0_r. reflexivity.
  - rewrite Z.mul_mod_idemp_l, Z.mul_mod_idemp_r by exact E. reflexivity.
Qed.

Section WideMultiply.

Context (Variables : VariableManager) (JumpTargets : JumpTargetManager).
Context (ptc : PTCInterface) (Source Target : Architecture).

(** What the wide-multiply case emits evaluates to: the two halves of the
    product, taken modulo [2^(2w)], of the operands extended to [2w] bits. *)
Lemma translate_mul2 signedness w s a b :
  w = 32 \/ w = 64 -> validInsertPoint s ->
  exists lo hi s',
    translateOpcode Variables JumpTargets ptc Source Target
      (op_mul2 signedness w) [] [loadOf a w; loadOf b w] s
    = Done (Values [lo; hi], s') /\
    forall mem,
      let extend x := if signedness then wrap (2 * w) (signed w x) else x in
      let P := wrap (2 * w) (extend (wrap w (mem a)) * extend (wrap w (mem b))) in
      eval mem lo = Some (wrap w P) /\
      eval mem hi = Some (wrap w (Z.shiftr P w)).
Proof.
  intros Hw Hs.
  destruct Hw as [-> | ->]; destruct signedness;
    (eexists _, _, _; split;
     [ unfold translateOpcode, op_mul2; simpl (_ =? _); cbv iota; exec
     | intros mem; split; reflexivity ]).
Qed.

End WideMultiply.

(** C6.  For every wide multiplication ([mulu2], [muls2] at widths 32 and
    64) with operands [A] and [B], the two results [low] and [high] are
    [w]-bit values with [high * 2^w + low] equal to the exact product: of
    [A] and [B] as unsigned numbers for the unsigned variant, and, read as a
    signed [2w]-bit number, of [A] and [B] as signed numbers for the signed
    variant. *)
Theorem wide_multiply_exact
    (Variables : VariableManager) (JumpTargets : JumpTargetManager)
    (ptc : PTCInterface) (Source Target : Architecture)
    (signedness : bool) (w : Z) (s : TranslatorState) (a b : Z)
    (mem : Z -> Z) (A B : Z) :
  w = 32 \/ w = 64 ->
  validInsertPoint s ->
  wrap w (mem a) = A -> wrap w (mem b) = B ->
  exists lo hi s' low high,
    translateOpcode Variables JumpTargets ptc Source Target
      (op_mul2 signedness w) [] [loadOf a w; loadOf b w] s
    = Done (Values [lo; hi], s') /\
    eval mem lo = Some low /\ eval mem hi = Some high /\
    0 <= low < 2 ^ w /\ 0 <= high < 2 ^ w /\
    if signedness
    then signed (2 * w) (high * 2 ^ w + low) = signed w A * signed w B
    else high * 2 ^ w + low = A * B.
Proof.
  intros Hw Hs HA HB.
  assert (Hw0 : 0 < w) by (destruct Hw; lia).
  destruct (translate_mul2 Variables JumpTargets ptc Source Target
              signedness w s a b Hw Hs) as (lo & hi & s' & Ht & He).
  specialize (He mem). cbv zeta in He. rewrite HA, HB in He.
  destruct He as [Elo Ehi].
  pose proof (wrap_range w (mem a) ltac:(lia)) as RA. rewrite HA in RA.
  pose proof (wrap_range w (mem b) ltac:(lia)) as RB. rewrite HB in RB.
  eexists lo, hi, s', _, _.
  split; [exact Ht|]. split; [exact Elo|]. split; [exact Ehi|].
  split; [apply wrap_range; lia|]. split; [apply wrap_range; lia|].
  rewrite split_halves by (try apply wrap_range; lia).
  destruct signedness.
  - rewrite wrap_mul. apply signed_wrap; [lia|].
    pose proof (signed_range w A Hw0 RA) as SA.
    pose proof (signed_range w B Hw0 RB) as SB.
    replace (2 * w - 1) with (Z.succ (2 * (w - 1))) by lia.
    rewrite Z.pow_succ_r, pow2_double by lia.
    assert (0 < 2 ^ (w - 1)) by (apply Z.pow_pos_nonneg; lia).
    nia.
  - apply wrap_small. rewrite pow2_double by lia. nia.
Qed.

Lemma wide_multiply_exact_witness :
  exists lo hi s' low high,
    translateOpcode exampleVariables exampleJumpTargets examplePTC
      exampleArchitecture exampleArchitecture
      (op_mul2 true 32) [] [loadOf 1 32; loadOf 2 32] entryState
    = Done (Values [lo; hi], s') /\
    eval (operands 4294967295 3) lo = Some low /\
    eval (operands 4294967295 3) hi = Some high /\
    0 <= low < 2 ^ 32 /\ 0 <= high < 2 ^ 32 /\
    signed (2 * 32) (high * 2 ^ 32 + low)
    = signed 32 4294967295 * signed 32 3.
Proof.
  apply (wide_multiply_exact exampleVariables exampleJumpTargets examplePTC
           exampleArchitecture exampleArchitecture
           true 32 entryState 1 2 (operands 4294967295 3) 4294967295 3).
  - left; reflexivity.
  - apply validInsertPoint_entryState.
  - reflexivity.
  - reflexivity.
Defined.

(** ** Instruction boundaries *)

Lemma getLimitedValue_uint64 A : 0 <= A < 2 ^ 64 -> getLimitedValue A = A.
Proof. intros. unfold getLimitedValue. apply Z.min_l. lia. Qed.

Lemma instructionAt_setArgOperand s loc callee ret_ args V :
  instructionAt s loc = Some (CallInst callee ret_ args) ->
  instructionAt (with_LastMarker None (setArgOperand loc 1 V s)) loc
  = Some (CallInst callee ret_ (<[1%nat := V]> args)).
Proof.
  unfold instructionAt, setArgOperand. destruct s as [h ? ? ? ? ? ? ? ?].
  simpl. intros H. rewrite lookup_alter_eq.
  destruct (h !! loc.1) as [bb|]; simpl in *; [|discriminate].
  rewrite list_lookup_alter_eq. rewrite H. reflexivity.
Qed.

(** Closing a marker that was opened at [A]: the length becomes [B - A]
    when [A < B], and the assertion fails otherwise. *)
Lemma closeLastInstruction_open s loc callee ret_ len A B :
  LastMarker s = Some loc ->
  instructionAt s loc = Some (CallInst callee ret_ [ConstantInt 64 A; len]) ->
  0 <= A < 2 ^ 64 -> 0 <= B < 2 ^ 64 ->
  (A < B ->
   exists s',
     closeLastInstruction B s = Done (tt, s') /\
     LastMarker s' = None /\
     instructionAt s' loc
     = Some (CallInst callee ret_ [ConstantInt 64 A; ConstantInt 64 (B - A)])) /\
  (B <= A -> closeLastInstruction B s = Fatal "PC > StartPC").
Proof.
  intros HL HI HA HB.
  unfold closeLastInstruction, bind, get. rewrite HL, HI. simpl.
  rewrite getLimitedValue_uint64 by lia.
  split; intros Hcmp.
  - destruct (Z.ltb_spec A B); [|lia]. simpl.
    eexists. split; [reflexivity|]. split.
    + destruct s; reflexivity.
    + rewrite (instructionAt_setArgOperand _ _ _ _ _ _ HI). simpl.
      unfold Cxx.uint64. rewrite Z.mod_small by lia. reflexivity.
  - destruct (Z.ltb_spec A B); [lia|]. reflexivity.
Qed.

Lemma openMarker_valid s A :
  validInsertPoint s ->
  exists s' loc,
    openMarker A s = Done (tt, s') /\
    LastMarker s' = Some loc /\
    instructionAt s' loc
    = Some (CallInst "newpc" VoidTy [ConstantInt 64 A; ConstantInt 64 0]).
Proof.
  intros [bb Hbb].
  unfold openMarker, bind, get, IRBuilder.CreateCall, IRBuilder.Insert, modify.
  unfold bind, get, modify, ret. rewrite Hbb.
  eexists _, _. split; [reflexivity|]. split; [reflexivity|].
  unfold instructionAt, IRBuilder.appendInst. destruct s as [h ? ? ib ? ? ? ? ?].
  simpl in *. rewrite lookup_alter_eq, Hbb. simpl.
  rewrite lookup_app_r by lia. rewrite Nat.sub_diag. reflexivity.
Qed.

(** C8.  A marker opened at address [A] and closed at address [B]: when
    [B > A] closing succeeds, leaves no marker open and sets the marker's
    length to exactly [B - A]; when [B <= A] closing fails on its
    assertion. *)
Theorem close_marker_length (s : TranslatorState) (A B : Z) :
  validInsertPoint s ->
  0 <= A < 2 ^ 64 -> 0 <= B < 2 ^ 64 ->
  exists s1 loc,
    openMarker A s = Done (tt, s1) /\
    LastMarker s1 = Some loc /\
    instructionAt s1 loc
    = Some (CallInst "newpc" VoidTy [ConstantInt 64 A; ConstantInt 64 0]) /\
    (A < B ->
     exists s2,
       closeLastInstruction B s1 = Done (tt, s2) /\
       LastMarker s2 = None /\
       instructionAt s2 loc
       = Some (CallInst "newpc" VoidTy
                 [ConstantInt 64 A; ConstantInt 64 (B - A)])) /\
    (B <= A -> closeLastInstruction B s1 = Fatal "PC > StartPC").
Proof.
  intros Hs HA HB.
  destruct (openMarker_valid s A Hs) as (s1 & loc & Ho & HL & HI).
  exists s1, loc. split; [exact Ho|]. split; [exact HL|]. split; [exact HI|].
  exact (closeLastInstruction_open s1 loc _ _ _ A B HL HI HA HB).
Qed.

Lemma close_marker_length_witness :
  exists s1 loc,
    openMarker 4096 entryState = Done (tt, s1) /\
    LastMarker s1 = Some loc /\
    instructionAt s1 loc
    = Some (CallInst "newpc" VoidTy [ConstantInt 64 4096; ConstantInt 64 0]) /\
    (4096 < 4100 ->
     exists s2,
       closeLastInstruction 4100 s1 = Done (tt, s2) /\
       LastMarker s2 = None /\
       instructionAt s2 loc
       = Some (CallInst "newpc" VoidTy
                 [ConstantInt 64 4096; ConstantInt 64 (4100 - 4096)])) /\
    (4100 <= 4096 -> closeLastInstruction 4100 s1 = Fatal "PC > StartPC").
Proof.
  apply (close_marker_length entryState 4096 4100).
  - apply validInsertPoint_entryState.
  - lia.
  - lia.
Defined.

(** [newInstruction] is where markers are opened and closed: for the first
    instruction of a translation it opens the marker at the address held by
    the leading constant operand. *)
Lemma newInstruction_first (JumpTargets : JumpTargetManager)
    (TheInstruction : PTCInstruction) (A : Z) (s : TranslatorState) :
  ConstArguments TheInstruction = [A] ->
  LastMarker s = None ->
  newInstruction JumpTargets TheInstruction true s
  = (openMarker A ;;; ret (false, A)) s.
Proof.
  intros HA HL. unfold newInstruction. rewrite HA.
  do 3 (eapply bind_Done; [reflexivity|]; cbv beta iota zeta).
  simpl negb. cbv iota.
  eapply bind_Done; [reflexivity|]. cbv beta iota zeta.
  rewrite HL. unfold bind at 1. unfold ret at 1.
  unfold bind. destruct (openMarker A s) as [[[] s1] | |]; reflexivity.
Qed.

(** For a later instruction at a new address it first closes the marker
    that is open; a failure to close is a failure of [newInstruction]. *)
Lemma newInstruction_closes_previous (JumpTargets : JumpTargetManager)
    (TheInstruction : PTCInstruction) (B : Z) (s : TranslatorState)
    (loc : nat * nat) (msg : string) :
  ConstArguments TheInstruction = [B] ->
  (newPC JumpTargets B).1 = None ->
  LastMarker s = Some loc ->
  closeLastInstruction B s = Fatal msg ->
  newInstruction JumpTargets TheInstruction false s = Fatal msg.
Proof.
  intros HB Hnew HL Hclose. unfold newInstruction. rewrite HB.
  do 2 (eapply bind_Done; [reflexivity|]; cbv beta iota zeta).
  destruct (newPC JumpTargets B) as [[bb|] c]; [discriminate Hnew|].
  do 2 (eapply bind_Done; [reflexivity|]; cbv beta iota zeta).
  rewrite HL. unfold bind at 1. unfold bind at 1. rewrite Hclose. reflexivity.
Qed.

(** ** Label definitions *)

Lemma validInsertPoint_with_functionBlocks l s :
  validInsertPoint s -> validInsertPoint (with_functionBlocks l s).
Proof. intros H. exact H. Qed.

#[local] Hint Resolve validInsertPoint_with_functionBlocks : vip.

(** C9, as amended.  When the definition of a label is translated and the
    label already has a block in the label table: if that block is still
    empty, translation succeeds and the block is relocated to the end of
    the function's block order, not replaced, and the insertion point
    advances into it; if the block already has content, translation fails
    on the assertion that the block is empty. *)
Theorem set_label_existing_block
    (Variables : VariableManager) (JumpTargets : JumpTargetManager)
    (ptc : PTCInterface) (Source Target : Architecture)
    (c0 : Z) (InArguments : list Value) (bb : nat) (blk : BasicBlock)
    (s : TranslatorState) :
  validInsertPoint s ->
  LabeledBasicBlocks s !! labelName ptc c0 = Some bb ->
  heap s !! bb = Some blk ->
  (bbInsts blk = [] ->
   setLabelRelocates Variables JumpTargets ptc Source Target
     c0 InArguments bb s) /\
  (bbInsts blk <> [] ->
   translateOpcode Variables JumpTargets ptc Source Target
     PTC_INSTRUCTION_op_set_label [c0] InArguments s
   = Fatal "Fallthrough->begin() == Fallthrough->end()").
Proof.
  intros Hs HL Hb.
  assert (Hempty : IRBuilder.empty bb s
                   = Done (bool_decide (bbInsts blk = []), s)).
  { unfold IRBuilder.empty, bind, get. rewrite Hb. reflexivity. }
  split; intros Hinsts.
  - destruct Hs as [previous Hprev].
    eexists _, previous. split.
    + unfold translateOpcode.
      do 4 (eapply bind_Done; [reflexivity|]; cbv beta iota zeta).
      rewrite HL.
      eapply bind_Done.
      { eapply bind_Done; [exact Hempty|]. cbv beta iota zeta.
        rewrite bool_decide_eq_true_2 by exact Hinsts. exec. }
      cbv beta iota zeta.
      assert (validInsertPoint s) by (exists previous; exact Hprev).
      exec.
    + unfold IRBuilder.appendInst. destruct s as [h ? ? ib ? ? ? ? ?].
      simpl in *. rewrite lookup_alter_eq, Hprev. simpl.
      repeat split; reflexivity.
  - unfold translateOpcode.
    do 4 (eapply bind_Done; [reflexivity|]; cbv beta iota zeta).
    rewrite HL. unfold bind at 1 2. rewrite Hempty.
    rewrite bool_decide_eq_false_2 by exact Hinsts. reflexivity.
Qed.

Lemma set_label_existing_block_witness :
  setLabelRelocates exampleVariables exampleJumpTargets examplePTC
    exampleArchitecture exampleArchitecture 3 [] 1%nat pendingLabelState.
Proof.
  refine (proj1 (set_label_existing_block exampleVariables exampleJumpTargets
                   examplePTC exampleArchitecture exampleArchitecture
                   3 [] 1%nat (mkBasicBlock "L3" []) pendingLabelState
                   _ _ _) _).
  - exists (mkBasicBlock "" []). reflexivity.
  - reflexivity.
  - reflexivity.
  - reflexivity.
Defined.

(** C9 as stated fails: label 3 has a block in the label table, the block
    already has content, and translating the definition of the label does
    not relocate it (the translation is fatal). *)
Lemma set_label_occupied_block_not_relocated :
  LabeledBasicBlocks occupiedLabelState !! labelName examplePTC 3 = Some 1%nat /\
  heap occupiedLabelState !! 1%nat
  = Some (mkBasicBlock "L3" [UnreachableInst]) /\
  ~ setLabelRelocates exampleVariables exampleJumpTargets examplePTC
      exampleArchitecture exampleArchitecture 3 [] 1%nat occupiedLabelState.
Proof.
  split; [reflexivity|]. split; [reflexivity|].
  intros (s' & previous & Hrun & _).
  vm_compute in Hrun. discriminate Hrun.
Qed.

(** ** Storing the results *)

Section StoreResults.

Context (Variables : VariableManager) (JumpTargets : JumpTargetManager).
Context (TheInstruction : PTCInstruction) (PC : Z) (Result : list Value).

Lemma JumpTargetsLog_appendInst I s :
  JumpTargetsLog (IRBuilder.appendInst I s) = JumpTargetsLog s.
Proof. destruct s; reflexivity. Qed.

Lemma validInsertPoint_with_JumpTargetsLog l s :
  validInsertPoint s -> validInsertPoint (with_JumpTargetsLog l s).
Proof. intros H. exact H. Qed.

Lemma storeResult_step I out V s :
  OutArguments TheInstruction !! I = Some out ->
  Result !! I = Some V ->
  storable V (getOrCreate Variables out) ->
  validInsertPoint s ->
  exists s',
    storeResult Variables JumpTargets TheInstruction PC Result I s
    = Done (tt, s') /\
    validInsertPoint s' /\
    JumpTargetsLog s'
    = JumpTargetsLog s ++ discoveryRequest Variables JumpTargets PC out V.
Proof.
  intros Hout HV [Hty Hint] Hs.
  remember (getOrCreate Variables out) as D eqn:HD.
  assert (Hstore : IRBuilder.CreateStore V D s
                   = Done (StoreInst V D 0,
                           IRBuilder.appendInst (StoreInst V D 0) s)).
  { unfold IRBuilder.CreateStore, IRBuilder.CreateAlignedStore.
    rewrite bool_decide_eq_true_2 by exact Hty. rewrite Hint.
    eapply bind_Done; [reflexivity|]. apply Insert_valid. exact Hs. }
  pose proof (validInsertPoint_appendInst s (StoreInst V D 0) Hs) as Hs'.
  unfold storeResult, at_. rewrite Hout, HV.
  cbv [bind ret]. unfold discoveryRequest. rewrite <- HD, Hstore.
  destruct (isPCReg JumpTargets D).
  - destruct V; simpl;
      try (eexists; split; [reflexivity|]; split; [exact Hs'|];
           rewrite JumpTargetsLog_appendInst, app_nil_r; reflexivity).
    rewrite (Z.eqb_sym (getLimitedValue val) PC).
    destruct (PC =? getLimitedValue val); simpl.
    + eexists; split; [reflexivity|]; split; [exact Hs'|].
      rewrite JumpTargetsLog_appendInst, app_nil_r; reflexivity.
    + eexists; split; [reflexivity|]; split.
      * apply validInsertPoint_with_JumpTargetsLog. exact Hs'.
      * destruct s; reflexivity.
  - eexists; split; [reflexivity|]; split; [exact Hs'|].
    rewrite JumpTargetsLog_appendInst.
    destruct V; simpl; rewrite app_nil_r; reflexivity.
Qed.

(** The loop of [translate] over the results from index [I] on. *)
Lemma for_storeResult N : forall I s,
  validInsertPoint s ->
  (I + N)%nat = length Result ->
  length Result = length (OutArguments TheInstruction) ->
  Forall2 (fun V out => storable V (getOrCreate Variables out))
    Result (OutArguments TheInstruction) ->
  exists s',
    for_ I N (storeResult Variables JumpTargets TheInstruction PC Result) s
    = Done (tt, s') /\
    validInsertPoint s' /\
    JumpTargetsLog s'
    = JumpTargetsLog s
      ++ discoveryRequests Variables JumpTargets PC
           (drop I (OutArguments TheInstruction)) (drop I Result).
Proof.
  induction N as [|N IH]; intros I s Hs HN Hlen Hall.
  - exists s. split; [reflexivity|]. split; [exact Hs|].
    unfold discoveryRequests.
    rewrite (drop_ge Result) by lia. rewrite zip_with_nil_r.
    simpl. rewrite app_nil_r. reflexivity.
  - destruct (lookup_lt_is_Some_2 Result I ltac:(lia)) as [V HV].
    destruct (lookup_lt_is_Some_2 (OutArguments TheInstruction) I ltac:(lia))
      as [out Hout].
    assert (Hst : storable V (getOrCreate Variables out)).
    { exact (Forall2_lookup_lr
               (fun V out => storable V (getOrCreate Variables out))
               _ _ I V out Hall HV Hout). }
    destruct (storeResult_step I out V s Hout HV Hst Hs) as (s1 & H1 & Hs1 & L1).
    destruct (IH (S I) s1 Hs1 ltac:(lia) Hlen Hall) as (s2 & H2 & Hs2 & L2).
    exists s2. split; [|split; [exact Hs2|]].
    + simpl. eapply bind_Done; [exact H1|]. exact H2.
    + rewrite L2, L1. unfold discoveryRequests.
      rewrite (drop_S _ _ _ HV), (drop_S _ _ _ Hout). simpl.
      rewrite <- app_assoc. reflexivity.
Qed.

End StoreResults.

(** C10.  After a successful translation of a micro-operation, storing the
    results asks the jump-target manager for a block at an address exactly
    for the results whose destination is the program counter, whose value
    is a constant, and whose constant differs from the current program
    counter: [translate] succeeds, and what it adds to the calls made on
    the jump-target manager is the list of these requests, in the order of
    the results. *)
Theorem discovery_requests_of_translate
    (Variables : VariableManager) (JumpTargets : JumpTargetManager)
    (ptc : PTCInterface) (TheModule : LLVMModule)
    (Source Target : Architecture)
    (TheInstruction : PTCInstruction) (PC : Z)
    (s s0 s1 : TranslatorState) (InArgs Result : list Value) :
  toVector Variables (InArguments TheInstruction) s = Done (InArgs, s0) ->
  translateOpcode Variables JumpTargets ptc Source Target
    (opcode TheInstruction) (ConstArguments TheInstruction) InArgs s0
  = Done (Values Result, s1) ->
  validInsertPoint s1 ->
  Forall2 (fun V out => storable V (getOrCreate Variables out))
    Result (OutArguments TheInstruction) ->
  exists s',
    translate Variables JumpTargets ptc TheModule Source Target
      TheInstruction PC s = Done (false, s') /\
    JumpTargetsLog s'
    = JumpTargetsLog s1
      ++ discoveryRequests Variables JumpTargets PC
           (OutArguments TheInstruction) Result.
Proof.
  intros Hload Hop Hs1 Hall.
  pose proof (Forall2_length _ _ _ Hall) as Hlen.
  destruct (for_storeResult Variables JumpTargets TheInstruction PC Result
              (length Result) 0%nat s1 Hs1 eq_refl Hlen Hall)
    as (s' & Hfor & _ & Hlog).
  exists s'. split.
  - unfold translate.
    eapply bind_Done; [exact Hload|]. cbv beta.
    eapply bind_Done; [exact Hop|]. cbv beta iota.
    rewrite bool_decide_eq_true_2 by exact Hlen.
    eapply bind_Done; [reflexivity|].
    eapply bind_Done; [exact Hfor|]. reflexivity.
  - exact Hlog.
Qed.

Lemma discovery_requests_of_translate_witness :
  exists s',
    translate exampleVariables exampleJumpTargets examplePTC exampleModule
      exampleArchitecture exampleArchitecture
      {| opcode := PTC_INSTRUCTION_op_movi_i32; InArguments := [];
         ConstArguments := [16]; OutArguments := [7] |} 100 entryState
    = Done (false, s') /\
    JumpTargetsLog s' = JumpTargetsLog entryState ++ [getBlockAt 16].
Proof.
  apply (discovery_requests_of_translate exampleVariables exampleJumpTargets
           examplePTC exampleModule exampleArchitecture exampleArchitecture
           {| opcode := PTC_INSTRUCTION_op_movi_i32; InArguments := [];
              ConstArguments := [16]; OutArguments := [7] |} 100
           entryState entryState entryState [] [ConstantInt 32 16]).
  - reflexivity.
  - reflexivity.
  - apply validInsertPoint_entryState.
  - repeat constructor.
Defined.

(** ** The recoverable failure *)

Lemma returnsFailure_bind {A B} (m : M A) (k : A -> M (ErrorOr B)) s :
  (forall a s', returnsFailure (k a s') = false) ->
  returnsFailure (bind m k s) = false.
Proof.
  intros H. unfold bind. destruct (m s) as [[a s']| |]; [apply H | reflexivity..].
Qed.

Lemma bind_Done_eq {A B} (m : M A) (k : A -> M B) s a s' :
  m s = Done (a, s') -> bind m k s = k a s'.
Proof. intros Hm. unfold bind. rewrite Hm. reflexivity. Qed.

(** No path of the action returns the failure. *)
Ltac nofail :=
  lazymatch goal with
  | |- returnsFailure (bind _ _ _) = false =>
      apply returnsFailure_bind; intros; nofail
  | |- returnsFailure ((if ?b then _ else _) _) = false =>
      destruct b; nofail
  | |- returnsFailure ((match ?x with _ => _ end) _) = false =>
      destruct x; nofail
  | |- _ => first [ reflexivity | progress cbv beta iota zeta; nofail ]
  end.

Section RecoverableFailure.

Context (Variables : VariableManager) (JumpTargets : JumpTargetManager).
Context (ptc : PTCInterface) (TheModule : LLVMModule).
Context (Source Target : Architecture).

(** Outside the process-state loads and stores the dispatcher never
    returns the failure. *)
Lemma translateOpcode_no_failure Opcode ConstArguments InArguments s :
  isEnvLoad Opcode = false -> isEnvStore Opcode = false ->
  returnsFailure
    (translateOpcode Variables JumpTargets ptc Source Target
       Opcode ConstArguments InArguments s) = false.
Proof.
  intros Hl Hs.
  destruct Opcode; try discriminate Hl; try discriminate Hs;
    unfold translateOpcode; nofail.
Qed.

Lemma bind_at_ {A B} (l : list A) (i : nat) (k : A -> M B) s :
  bind (at_ l i) k s
  = match l !! i with
    | Some a => k a s
    | None => Undefined "vector index out of range"
    end.
Proof. unfold bind, at_. destruct (l !! i); reflexivity. Qed.

Lemma bind_Undefined {A B} (m : M A) (k : A -> M B) s msg :
  m s = Undefined msg -> bind m k s = Undefined msg.
Proof. intros Hm. unfold bind. rewrite Hm. reflexivity. Qed.

Ltac refute_failure :=
  lazymatch goal with
  | |- returnsFailure ?t = true -> _ =>
      let H := fresh in
      assert (H : returnsFailure t = false) by nofail;
      rewrite H; discriminate
  end.

(** One process-state access: the failure is returned, with the state
    untouched, exactly when the base operand is a load from a place that
    is not the process state. *)
Ltac env_access_case :=
  unfold translateOpcode, deniedEnvAccess, notFromEnv, baseOperand;
  cbn [isEnvLoad isEnvStore];
  rewrite (bind_Done_eq _ _ _ _ _ eq_refl); cbv beta iota zeta;
  rewrite (bind_Done_eq _ _ _ _ _ eq_refl); cbv beta iota zeta;
  rewrite bind_at_;
  lazymatch goal with
  | |- context [?l !! ?i] => destruct (l !! i) as [[]|]
  end;
  try rewrite (bind_Undefined _ _ _ _ eq_refl);
  try (split; [intros (? & ? & ? & ?); discriminate | discriminate]);
  rewrite (bind_Done_eq _ _ _ _ _ eq_refl); cbv beta iota zeta;
  lazymatch goal with
  | |- context [isEnv Variables ?p] =>
      destruct (isEnv Variables p) eqn:?
  end;
  cbn [negb];
  [ split; [intros (? & ? & [= <- <-] & ?); congruence | refute_failure ]
  | split; [reflexivity | intros _; eauto ] ].

Lemma translateOpcode_env_access Opcode ConstArguments InArguments s :
  isEnvLoad Opcode = true \/ isEnvStore Opcode = true ->
  (deniedEnvAccess Variables Opcode InArguments ->
   translateOpcode Variables JumpTargets ptc Source Target
     Opcode ConstArguments InArguments s
   = Done (Error invalid_argument, s)) /\
  (returnsFailure
     (translateOpcode Variables JumpTargets ptc Source Target
        Opcode ConstArguments InArguments s) = true ->
   deniedEnvAccess Variables Opcode InArguments).
Proof.
  intros [H | H]; destruct Opcode; try discriminate H; clear H;
    env_access_case.
Qed.

(** The dispatcher returns the failure exactly for a process-state access
    whose base is not the process state. *)
Lemma translateOpcode_failure_iff Opcode ConstArguments InArguments s :
  returnsFailure
    (translateOpcode Variables JumpTargets ptc Source Target
       Opcode ConstArguments InArguments s) = true
  <-> deniedEnvAccess Variables Opcode InArguments.
Proof.
  destruct (isEnvLoad Opcode) eqn:Hl; [|destruct (isEnvStore Opcode) eqn:Hs].
  - destruct (translateOpcode_env_access Opcode ConstArguments InArguments s
                (or_introl Hl)) as [Hd Hf].
    split; [exact Hf|]. intros H. rewrite (Hd H). reflexivity.
  - destruct (translateOpcode_env_access Opcode ConstArguments InArguments s
                (or_intror Hs)) as [Hd Hf].
    split; [exact Hf|]. intros H. rewrite (Hd H). reflexivity.
  - rewrite translateOpcode_no_failure by assumption.
    unfold deniedEnvAccess, notFromEnv, baseOperand. rewrite Hl, Hs.
    split; [discriminate|]. intros (? & ? & ? & _). discriminate.
Qed.

Lemma validInsertPoint_appendInsts Is : forall s,
  validInsertPoint s -> validInsertPoint (appendInsts Is s).
Proof.
  induction Is as [|I Is IH]; intros s Hs; [exact Hs|].
  apply IH. apply validInsertPoint_appendInst. exact Hs.
Qed.

(** The loads of the input operands are emitted in order. *)
Lemma toVector_loads ids : forall s,
  validInsertPoint s ->
  Forall (fun id =>
            IRBuilder.isPointerTy (typeOf (getOrCreate Variables id)) = true)
    ids ->
  toVector Variables ids s
  = Done (inputLoads Variables ids, appendInsts (inputLoads Variables ids) s).
Proof.
  induction ids as [|id ids IH]; intros s Hs Hptr; [reflexivity|].
  inversion Hptr as [|? ? Hid Hrest]; subst.
  simpl.
  eapply bind_Done.
  { unfold LoadArgs, IRBuilder.CreateLoad, IRBuilder.CreateAlignedLoad.
    rewrite Hid. eapply bind_Done; [reflexivity|].
    apply Insert_valid. exact Hs. }
  cbv beta.
  eapply bind_Done.
  { apply IH; [apply validInsertPoint_appendInst; exact Hs | exact Hrest]. }
  reflexivity.
Qed.

(** [translate] reports an instruction as terminal only after a
    failure. *)
Lemma translate_true_after_failure TheInstruction PC s s' :
  validInsertPoint s ->
  Forall (fun id =>
            IRBuilder.isPointerTy (typeOf (getOrCreate Variables id)) = true)
    (InArguments TheInstruction) ->
  translate Variables JumpTargets ptc TheModule Source Target
    TheInstruction PC s = Done (true, s') ->
  returnsFailure
    (translateOpcode Variables JumpTargets ptc Source Target
       (opcode TheInstruction) (ConstArguments TheInstruction)
       (inputLoads Variables (InArguments TheInstruction))
       (appendInsts (inputLoads Variables (InArguments TheInstruction)) s))
  = true.
Proof.
  intros Hs Hptr. unfold translate.
  rewrite (bind_Done_eq _ _ _ _ _ (toVector_loads _ s Hs Hptr)).
  unfold bind at 1.
  destruct (translateOpcode _ _ _ _ _ _ _ _ _) as [[[Result | e] s1] | |];
    try discriminate; [|reflexivity].
  unfold bind.
  destruct (Assert _ _ s1) as [[[] s2] | |]; try discriminate.
  destruct (for_ _ _ _ s2) as [[[] s3] | |]; discriminate.
Qed.

End RecoverableFailure.

(** C7, as amended.  The dispatcher returns the recoverable failure if and
    only if the micro-operation is a load or store of a process-state field
    whose base operand was loaded from a place that is not the process
    state (accesses to guest memory are not checked and never return it).
    In exactly that case [translate] emits, after the loads of the input
    operands, a call to [abort] followed by [unreachable] at the insertion
    point, stores no output operand, and reports the micro-operation as
    terminal. *)
Theorem recoverable_failure
    (Variables : VariableManager) (JumpTargets : JumpTargetManager)
    (ptc : PTCInterface) (TheModule : LLVMModule)
    (Source Target : Architecture)
    (TheInstruction : PTCInstruction) (PC : Z) (s : TranslatorState) :
  validInsertPoint s ->
  Forall (fun id =>
            IRBuilder.isPointerTy (typeOf (getOrCreate Variables id)) = true)
    (InArguments TheInstruction) ->
  getFunction TheModule "abort" = true ->
  let loads := inputLoads Variables (InArguments TheInstruction) in
  let s0 := appendInsts loads s in
  (forall Opcode ConstArguments InArguments s',
     returnsFailure
       (translateOpcode Variables JumpTargets ptc Source Target
          Opcode ConstArguments InArguments s') = true
     <-> deniedEnvAccess Variables Opcode InArguments) /\
  (deniedEnvAccess Variables (opcode TheInstruction) loads ->
   translate Variables JumpTargets ptc TheModule Source Target
     TheInstruction PC s
   = Done (true,
           appendInsts [CallInst "abort" VoidTy []; UnreachableInst] s0)) /\
  (forall s',
     translate Variables JumpTargets ptc TheModule Source Target
       TheInstruction PC s = Done (true, s') ->
     deniedEnvAccess Variables (opcode TheInstruction) loads).
Proof.
  intros Hs Hptr Habort loads s0.
  split; [|split].
  - intros. apply translateOpcode_failure_iff.
  - intros Hdenied. unfold translate.
    rewrite (bind_Done_eq _ _ _ _ _
               (toVector_loads Variables _ s Hs Hptr)).
    fold loads. fold s0.
    assert (Hfail :
      translateOpcode Variables JumpTargets ptc Source Target
        (opcode TheInstruction) (ConstArguments TheInstruction) loads s0
      = Done (Error invalid_argument, s0)).
    { destruct Hdenied as (ptr & align & Hbase & Henv).
      unfold baseOperand in Hbase.
      destruct (isEnvLoad (opcode TheInstruction)) eqn:Hl;
        [|destruct (isEnvStore (opcode TheInstruction)) eqn:Hst;
          [|discriminate Hbase]].
      - apply translateOpcode_env_access; [left; exact Hl|].
        exists ptr, align. unfold baseOperand. rewrite Hl. auto.
      - apply translateOpcode_env_access; [right; exact Hst|].
        exists ptr, align. unfold baseOperand. rewrite Hl, Hst. auto. }
    rewrite (bind_Done_eq _ _ _ _ _ Hfail). cbv beta iota.
    rewrite Habort.
    assert (Hs0 : validInsertPoint s0).
    { apply validInsertPoint_appendInsts. exact Hs. }
    exec.
  - intros s' Htrue.
    apply (translateOpcode_failure_iff Variables JumpTargets ptc Source Target
             _ (ConstArguments TheInstruction) _ s0).
    exact (translate_true_after_failure Variables JumpTargets ptc TheModule
             Source Target TheInstruction PC s s' Hs Hptr Htrue).
Qed.

Lemma recoverable_failure_witness :
  let TheInstruction :=
    {| opcode := PTC_INSTRUCTION_op_ld_i32; InArguments := [5];
       ConstArguments := [16]; OutArguments := [9] |} in
  deniedEnvAccess exampleVariables PTC_INSTRUCTION_op_ld_i32
    [LoadInst (Storage 5 32) 0] /\
  translate exampleVariables exampleJumpTargets examplePTC exampleModule
    exampleArchitecture exampleArchitecture TheInstruction 100 entryState
  = Done (true,
          appendInsts [LoadInst (Storage 5 32) 0;
                       CallInst "abort" VoidTy []; UnreachableInst]
            entryState).
Proof.
  intros TheInstruction.
  assert (Hdenied : deniedEnvAccess exampleVariables
                      PTC_INSTRUCTION_op_ld_i32 [LoadInst (Storage 5 32) 0]).
  { exists (Storage 5 32), 0. split; reflexivity. }
  split; [exact Hdenied|].
  refine (proj1 (proj2
            (recoverable_failure exampleVariables exampleJumpTargets
               examplePTC exampleModule exampleArchitecture
               exampleArchitecture TheInstruction 100 entryState _ _ _))
            Hdenied).
  - apply validInsertPoint_entryState.
  - repeat constructor.
  - reflexivity.
Defined.

(** C7 as stated fails for accesses to guest memory: a guest load whose
    address operand was loaded from a temporary that is not the process
    state is a memory access with an untraced address, and the dispatcher
    returns a value for it, not the failure. *)
Lemma guest_load_is_not_checked :
  untracedMemoryAccess exampleVariables
    PTC_INSTRUCTION_op_qemu_ld_i32 [loadOf 5 32] /\
  (exists r s',
     translateOpcode exampleVariables exampleJumpTargets examplePTC
       exampleArchitecture exampleArchitecture
       PTC_INSTRUCTION_op_qemu_ld_i32 [0] [loadOf 5 32] entryState
     = Done (Values [r], s')) /\
  ~ (returnsFailure
       (translateOpcode exampleVariables exampleJumpTargets examplePTC
          exampleArchitecture exampleArchitecture
          PTC_INSTRUCTION_op_qemu_ld_i32 [0] [loadOf 5 32] entryState) = true
     <-> untracedMemoryAccess exampleVariables
           PTC_INSTRUCTION_op_qemu_ld_i32 [loadOf 5 32]).
Proof.
  assert (Hu : untracedMemoryAccess exampleVariables
                 PTC_INSTRUCTION_op_qemu_ld_i32 [loadOf 5 32]).
  { split; [reflexivity|]. exists (Storage 5 32), 0. split; reflexivity. }
  split; [exact Hu|]. split.
  - eexists _, _. unfold translateOpcode. exec.
  - intros [_ H]. specialize (H Hu). vm_compute in H. discriminate H.
Qed.

(** * Further properties *)

(** ** Binary operations *)

(** X1.  Every opcode of the binary-arithmetic case has a width of 32 or 64
    and an operation in the table of binary operations; translating it
    emits exactly one instruction, that operation on the two inputs in
    their order, whose value is the operation's value at that width. *)
Theorem binary_opcode_emits_table_operation
    (Variables : VariableManager) (JumpTargets : JumpTargetManager)
    (ptc : PTCInterface) (Source Target : Architecture)
    (Opcode : PTCOpcode) (ConstArguments : list Z) (a b : Z)
    (s : TranslatorState) :
  isBinaryArithmetic Opcode = true ->
  validInsertPoint s ->
  exists w BinaryOp,
    (w = 32 \/ w = 64) /\
    getRegisterSize Opcode = Done w /\
    opcodeToBinaryOp Opcode = Done BinaryOp /\
    translateOpcode Variables JumpTargets ptc Source Target
      Opcode ConstArguments [loadOf a w; loadOf b w] s
    = Done (Values [BinaryOperator BinaryOp (loadOf a w) (loadOf b w)],
            IRBuilder.appendInst
              (BinaryOperator BinaryOp (loadOf a w) (loadOf b w)) s) /\
    forall mem,
      eval mem (BinaryOperator BinaryOp (loadOf a w) (loadOf b w))
      = evalBinOp w BinaryOp (wrap w (mem a)) (wrap w (mem b)).
Proof.
  intros Hop Hs.
  destruct Opcode; try discriminate Hop; clear Hop;
    (eexists _, _;
     refine (conj _ (conj eq_refl (conj eq_refl (conj _ _))));
     [ first [left; reflexivity | right; reflexivity]
     | unfold translateOpcode; exec
     | intros mem; reflexivity ]).
Qed.

Lemma binary_opcode_emits_table_operation_witness :
  exists w BinaryOp,
    (w = 32 \/ w = 64) /\
    getRegisterSize PTC_INSTRUCTION_op_sar_i64 = Done w /\
    opcodeToBinaryOp PTC_INSTRUCTION_op_sar_i64 = Done BinaryOp /\
    translateOpcode exampleVariables exampleJumpTargets examplePTC
      exampleArchitecture exampleArchitecture
      PTC_INSTRUCTION_op_sar_i64 [] [loadOf 1 w; loadOf 2 w] entryState
    = Done (Values [BinaryOperator BinaryOp (loadOf 1 w) (loadOf 2 w)],
            IRBuilder.appendInst
              (BinaryOperator BinaryOp (loadOf 1 w) (loadOf 2 w)) entryState) /\
    forall mem,
      eval mem (BinaryOperator BinaryOp (loadOf 1 w) (loadOf 2 w))
      = evalBinOp w BinaryOp (wrap w (mem 1)) (wrap w (mem 2)).
Proof.
  apply (binary_opcode_emits_table_operation exampleVariables
           exampleJumpTargets examplePTC exampleArchitecture
           exampleArchitecture PTC_INSTRUCTION_op_sar_i64 [] 1 2 entryState).
  - reflexivity.
  - apply validInsertPoint_entryState.
Defined.

(** ** Complement, negation and the derived bitwise operations *)

Lemma below_pow2_of_bits w z :
  0 <= w -> 0 <= z ->
  (forall i, w <= i -> Z.testbit z i = false) -> z < 2 ^ w.
Proof.
  intros Hw Hz Hbits.
  replace z with (z mod 2 ^ w).
  - apply Z.mod_pos_bound. apply Z.pow_pos_nonneg; lia.
  - apply Z.bits_inj'. intros i Hi. rewrite Z.testbit_mod_pow2 by lia.
    destruct (Z.ltb_spec i w); [reflexivity|]. rewrite Hbits by lia.
    reflexivity.
Qed.

Lemma land_range w x y :
  0 <= w -> 0 <= x < 2 ^ w -> 0 <= y < 2 ^ w -> 0 <= Z.land x y < 2 ^ w.
Proof.
  intros Hw Hx Hy. split; [apply Z.land_nonneg; lia|].
  apply below_pow2_of_bits; [lia | apply Z.land_nonneg; lia|].
  intros i Hi. rewrite Z.land_spec, (testbit_high w x i) by lia. reflexivity.
Qed.

Lemma lor_range w x y :
  0 <= w -> 0 <= x < 2 ^ w -> 0 <= y < 2 ^ w -> 0 <= Z.lor x y < 2 ^ w.
Proof.
  intros Hw Hx Hy. split; [apply Z.lor_nonneg; lia|].
  apply below_pow2_of_bits; [lia | apply Z.lor_nonneg; lia|].
  intros i Hi.
  rewrite Z.lor_spec, (testbit_high w x i), (testbit_high w y i) by lia.
  reflexivity.
Qed.

Lemma lxor_range w x y :
  0 <= w -> 0 <= x < 2 ^ w -> 0 <= y < 2 ^ w -> 0 <= Z.lxor x y < 2 ^ w.
Proof.
  intros Hw Hx Hy. split; [apply Z.lxor_nonneg; lia|].
  apply below_pow2_of_bits; [lia | apply Z.lxor_nonneg; lia|].
  intros i Hi.
  rewrite Z.lxor_spec, (testbit_high w x i), (testbit_high w y i) by lia.
  reflexivity.
Qed.

Lemma testbit_ones_low w i : 0 <= i < w -> Z.testbit (2 ^ w - 1) i = true.
Proof.
  intros Hi. replace (2 ^ w - 1) with (Z.ones w) by (rewrite Z.ones_equiv; lia).
  apply Z.ones_spec_low. lia.
Qed.

(** Exclusive or with all ones is the complement. *)
Lemma lxor_all_ones w x :
  0 <= w -> 0 <= x < 2 ^ w -> Z.lxor x (2 ^ w - 1) = complement w x.
Proof.
  intros Hw Hx. unfold complement.
  assert (Hones : 0 <= 2 ^ w - 1 < 2 ^ w) by lia.
  assert (Hdisj : Z.land x (Z.lxor x (2 ^ w - 1)) = 0).
  { apply Z.bits_inj'. intros i Hi.
    rewrite Z.land_spec, Z.lxor_spec, Z.bits_0.
    destruct (Z.lt_ge_cases i w).
    - rewrite testbit_ones_low by lia. destruct (Z.testbit x i); reflexivity.
    - rewrite (testbit_high w x i) by lia. reflexivity. }
  pose proof (Z.add_nocarry_lxor _ _ Hdisj) as Hadd.
  rewrite <- Z.lxor_assoc in Hadd.
  rewrite Z.lxor_nilpotent, Z.lxor_0_l in Hadd. lia.
Qed.

Lemma complement_range w x : 0 <= x < 2 ^ w -> 0 <= complement w x < 2 ^ w.
Proof. unfold complement. lia. Qed.

Lemma testbit_complement w x i :
  0 <= x < 2 ^ w -> 0 <= i < w ->
  Z.testbit (complement w x) i = negb (Z.testbit x i).
Proof.
  intros Hx Hi. rewrite <- lxor_all_ones by lia.
  rewrite Z.lxor_spec, testbit_ones_low by lia.
  destruct (Z.testbit x i); reflexivity.
Qed.

Section Bitwise.

Context (Variables : VariableManager) (JumpTargets : JumpTargetManager).
Context (ptc : PTCInterface) (Source Target : Architecture).

(** X2.  The translation of [not] computes the bitwise complement: the
    result is [2^w - 1 - x], and each of its [w] bits is the negation of
    the corresponding bit of [x]. *)
Theorem not_is_complement w s a mem x :
  w = 32 \/ w = 64 -> validInsertPoint s -> wrap w (mem a) = x ->
  exists r s',
    translateOpcode Variables JumpTargets ptc Source Target
      (op_not w) [] [loadOf a w] s = Done (Values [r], s') /\
    eval mem r = Some (complement w x) /\
    forall i, 0 <= i < w ->
      Z.testbit (complement w x) i = negb (Z.testbit x i).
Proof.
  intros Hw Hs Hx.
  assert (Hr : 0 <= x < 2 ^ w).
  { rewrite <- Hx. apply wrap_range. destruct Hw; lia. }
  destruct Hw as [-> | ->];
    (eexists _, _; split;
     [ unfold translateOpcode, op_not; simpl (_ =? _); cbv iota; exec
     | split;
       [ cbn [eval loadOf typeOf bitsOf evalBinOp mbind option_bind];
         rewrite Hx; f_equal;
         lazymatch goal with
         | |- Z.lxor x (wrap ?w ?c) = _ =>
             change (wrap w c) with (2 ^ w - 1)
         end;
         apply lxor_all_ones; lia
       | intros i Hi; apply testbit_complement; lia ] ]).
Qed.

(** X3.  The translation of [neg] computes the two's complement negation:
    the result is a [w]-bit value whose sum with [x] is 0 modulo [2^w]. *)
Theorem neg_is_additive_inverse w s a mem x :
  w = 32 \/ w = 64 -> validInsertPoint s -> wrap w (mem a) = x ->
  exists r s' y,
    translateOpcode Variables JumpTargets ptc Source Target
      (op_neg w) [] [loadOf a w] s = Done (Values [r], s') /\
    eval mem r = Some y /\
    0 <= y < 2 ^ w /\
    wrap w (x + y) = 0.
Proof.
  intros Hw Hs Hx.
  assert (Hw0 : 0 <= w) by (destruct Hw; lia).
  exists (BinaryOperator Sub (ConstantInt w 0) (loadOf a w)).
  eexists _, (wrap w (0 - x)).
  split; [|split; [|split]].
  - destruct Hw as [-> | ->];
      (unfold translateOpcode, op_neg; simpl (_ =? _); cbv iota; exec).
  - cbn [eval loadOf typeOf bitsOf evalBinOp mbind option_bind].
    rewrite Hx. reflexivity.
  - apply wrap_range. lia.
  - unfold wrap. rewrite Z.add_mod_idemp_r by (apply Z.pow_nonzero; lia).
    replace (x + (0 - x)) with 0 by lia. apply Z.mod_0_l.
    apply Z.pow_nonzero; lia.
Qed.

(** X4.  The operations derived from a complement compute what their
    names say: [andc] is [x & ~y], [orc] is [x | ~y], [eqv] is [~(x ^ y)],
    [nand] is [~(x & y)] and [nor] is [~(x | y)], on [w] bits. *)
Theorem derived_bitwise_semantics k w s a b mem x y :
  w = 32 \/ w = 64 -> validInsertPoint s ->
  wrap w (mem a) = x -> wrap w (mem b) = y ->
  exists r s',
    translateOpcode Variables JumpTargets ptc Source Target
      (op_derived k w) [] [loadOf a w; loadOf b w] s
    = Done (Values [r], s') /\
    eval mem r = Some (derived_spec k w x y).
Proof.
  intros Hw Hs Hx Hy.
  assert (Hw0 : 0 <= w) by (destruct Hw; lia).
  assert (Hxr : 0 <= x < 2 ^ w) by (rewrite <- Hx; apply wrap_range; lia).
  assert (Hyr : 0 <= y < 2 ^ w) by (rewrite <- Hy; apply wrap_range; lia).
  pose proof (land_range w x y Hw0 Hxr Hyr) as Hland.
  pose proof (lor_range w x y Hw0 Hxr Hyr) as Hlor.
  pose proof (lxor_range w x y Hw0 Hxr Hyr) as Hlxor.
  destruct Hw as [-> | ->]; destruct k;
    (eexists _, _; split;
     [ unfold translateOpcode, op_derived; simpl (_ =? _); cbv iota; exec
     | cbn [eval loadOf typeOf bitsOf evalBinOp mbind option_bind];
       rewrite ?Hx, ?Hy; f_equal; unfold derived_spec;
       repeat lazymatch goal with
       | |- context [wrap ?w 4294967295] =>
           change (wrap w 4294967295) with (2 ^ w - 1)
       | |- context [wrap ?w 18446744073709551615] =>
           change (wrap w 18446744073709551615) with (2 ^ w - 1)
       end;
       rewrite <- ?Z.lxor_assoc;
       rewrite ?lxor_all_ones by lia; reflexivity ]).
Qed.

End Bitwise.

Lemma not_is_complement_witness :
  exists r s',
    translateOpcode exampleVariables exampleJumpTargets examplePTC
      exampleArchitecture exampleArchitecture
      (op_not 32) [] [loadOf 1 32] entryState = Done (Values [r], s') /\
    eval (operands 255 0) r = Some (complement 32 255) /\
    forall i, 0 <= i < 32 ->
      Z.testbit (complement 32 255) i = negb (Z.testbit 255 i).
Proof.
  apply (not_is_complement exampleVariables exampleJumpTargets examplePTC
           exampleArchitecture exampleArchitecture
           32 entryState 1 (operands 255 0) 255).
  - left; reflexivity.
  - apply validInsertPoint_entryState.
  - reflexivity.
Defined.

Lemma neg_is_additive_inverse_witness :
  exists r s' y,
    translateOpcode exampleVariables exampleJumpTargets examplePTC
      exampleArchitecture exampleArchitecture
      (op_neg 64) [] [loadOf 1 64] entryState = Done (Values [r], s') /\
    eval (operands 5 0) r = Some y /\
    0 <= y < 2 ^ 64 /\
    wrap 64 (5 + y) = 0.
Proof.
  apply (neg_is_additive_inverse exampleVariables exampleJumpTargets
           examplePTC exampleArchitecture exampleArchitecture
           64 entryState 1 (operands 5 0) 5).
  - right; reflexivity.
  - apply validInsertPoint_entryState.
  - reflexivity.
Defined.

Lemma derived_bitwise_semantics_witness :
  exists r s',
    translateOpcode exampleVariables exampleJumpTargets examplePTC
      exampleArchitecture exampleArchitecture
      (op_derived eqv 32) [] [loadOf 1 32; loadOf 2 32] entryState
    = Done (Values [r], s') /\
    eval (operands 12 10) r = Some (derived_spec eqv 32 12 10).
Proof.
  apply (derived_bitwise_semantics exampleVariables exampleJumpTargets
           examplePTC exampleArchitecture exampleArchitecture
           eqv 32 entryState 1 2 (operands 12 10) 12 10).
  - left; reflexivity.
  - apply validInsertPoint_entryState.
  - reflexivity.
  - reflexivity.
Defined.

(** ** Extensions, conditions and selections *)

Section ExtensionsAndConditions.

Context (Variables : VariableManager) (JumpTargets : JumpTargetManager).
Context (ptc : PTCInterface) (Source Target : Architecture).

(** X5.  An extension from [k] bits keeps the low [k] bits of its input:
    the zero extensions give that [k]-bit number, the sign extensions a
    [w]-bit value that, read as signed, is the low [k] bits read as
    signed. *)
Theorem extension_semantics Opcode k sgn w s a mem x :
  extensionOf Opcode = Some (k, sgn) ->
  getRegisterSize Opcode = Done w ->
  validInsertPoint s -> wrap w (mem a) = x ->
  exists r s' y,
    translateOpcode Variables JumpTargets ptc Source Target
      Opcode [] [loadOf a w] s = Done (Values [r], s') /\
    eval mem r = Some y /\
    0 <= y < 2 ^ w /\
    if sgn : bool then signed w y = signed k (wrap k x) else y = wrap k x.
Proof.
  intros Hext Hsize Hs Hx.
  destruct Opcode; try discriminate Hext;
    injection Hext as <- <-; injection Hsize as <-;
    (eexists _, _, _; split; [unfold translateOpcode; exec|];
     cbn [eval loadOf typeOf bitsOf evalCast mbind option_bind];
     rewrite Hx; split; [reflexivity|];
     lazymatch goal with
     | |- context [signed ?k (wrap ?k x)] =>
         pose proof (signed_range k (wrap k x) ltac:(lia)
                       (wrap_range k x ltac:(lia))) as Hsr;
         split; [apply wrap_range; lia | apply signed_wrap; lia]
     | |- _ =>
         lazymatch goal with
         | |- context [wrap ?k x] =>
             pose proof (wrap_range k x ltac:(lia));
             split; [lia | reflexivity]
         end
     end).
Qed.

Lemma bind_Fatal {A B} (m : M A) (k : A -> M B) s msg :
  m s = Fatal msg -> bind m k s = Fatal msg.
Proof. intros Hm. unfold bind. rewrite Hm. reflexivity. Qed.

Lemma CreateICmp_raw_comparison raw c a b w s :
  to_PTCCondition ptc raw = Some c -> isComparison c = true ->
  validInsertPoint s ->
  CreateICmp_raw ptc raw (loadOf a w) (loadOf b w) s
  = Done (ICmpInst (conditionToPredicate c) (loadOf a w) (loadOf b w),
          IRBuilder.appendInst
            (ICmpInst (conditionToPredicate c) (loadOf a w) (loadOf b w)) s).
Proof.
  intros Hc Hcmp Hs. unfold CreateICmp_raw. rewrite Hc.
  destruct c; try discriminate Hcmp; cbn [conditionToPredicate];
    unfold IRBuilder.CreateICmp;
    rewrite (bool_decide_eq_true_2 (typeOf (loadOf a w) = typeOf (loadOf b w)))
      by reflexivity;
    exec.
Qed.

Lemma eval_comparison c w a b mem :
  isComparison c = true ->
  eval mem (ICmpInst (conditionToPredicate c) (loadOf a w) (loadOf b w))
  = Some (if compares c w (wrap w (mem a)) (wrap w (mem b)) then 1 else 0).
Proof. intros Hcmp. destruct c; try discriminate Hcmp; reflexivity. Qed.

(** X6.  [setcond] gives 1 when its condition holds of the two inputs and 0
    when it does not, for each of the ten comparisons. *)
Theorem setcond_semantics w raw c a b s mem :
  w = 32 \/ w = 64 ->
  to_PTCCondition ptc raw = Some c -> isComparison c = true ->
  validInsertPoint s ->
  exists r s',
    translateOpcode Variables JumpTargets ptc Source Target
      (op_setcond w) [raw] [loadOf a w; loadOf b w] s
    = Done (Values [r], s') /\
    eval mem r
    = Some (if compares c w (wrap w (mem a)) (wrap w (mem b)) then 1 else 0).
Proof.
  intros Hw Hc Hcmp Hs.
  destruct Hw as [-> | ->];
    (eexists _, _; split;
     [ unfold translateOpcode, op_setcond; simpl (_ =? _); cbv iota;
       repeat (eapply bind_Done; [reflexivity|]; cbv beta iota zeta);
       eapply bind_Done; [apply CreateICmp_raw_comparison; eassumption|];
       cbv beta iota zeta; exec
     | change (eval mem (CastInst ZExt ?x ?ty))
         with (y ← eval mem x; evalCast ZExt (bitsOf (typeOf x)) (bitsOf ty) y);
       rewrite eval_comparison by assumption; reflexivity ]).
Qed.

(** X7.  [movcond] selects its third input when the condition holds of the
    first two, and its fourth input when it does not. *)
Theorem movcond_semantics w raw c a b t f s mem :
  w = 32 \/ w = 64 ->
  to_PTCCondition ptc raw = Some c -> isComparison c = true ->
  validInsertPoint s ->
  exists r s',
    translateOpcode Variables JumpTargets ptc Source Target
      (op_movcond w) [raw] [loadOf a w; loadOf b w; loadOf t w; loadOf f w] s
    = Done (Values [r], s') /\
    eval mem r
    = Some (if compares c w (wrap w (mem a)) (wrap w (mem b))
            then wrap w (mem t) else wrap w (mem f)).
Proof.
  intros Hw Hc Hcmp Hs.
  destruct Hw as [-> | ->];
    (eexists _, _; split;
     [ unfold translateOpcode, op_movcond; simpl (_ =? _); cbv iota;
       repeat (eapply bind_Done; [reflexivity|]; cbv beta iota zeta);
       eapply bind_Done; [apply CreateICmp_raw_comparison; eassumption|];
       cbv beta iota zeta; exec
     | change (eval mem (SelectInst ?x ?y ?z))
         with (b ← eval mem x; if b =? 0 then eval mem z else eval mem y);
       rewrite eval_comparison by assumption;
       destruct (compares c _ _ _); reflexivity ]).
Qed.


Lemma CreateICmp_raw_invalid raw V1 V2 s :
  (forall c, to_PTCCondition ptc raw = Some c -> isComparison c = false) ->
  CreateICmp_raw ptc raw V1 V2 s
  = Fatal (match to_PTCCondition ptc raw with
           | Some _ => "Invalid ICmp predicate value"
           | None => "Unknown comparison operator"
           end).
Proof.
  intros H. unfold CreateICmp_raw.
  destruct (to_PTCCondition ptc raw) as [c|]; [|reflexivity].
  specialize (H c eq_refl). destruct c; try discriminate H; reflexivity.
Qed.

Lemma back_last {A} (l : list A) x s : last l = Some x -> back l s = Done (x, s).
Proof. intros H. unfold back. rewrite H. reflexivity. Qed.

(** X8.  A condition that is no integer comparison (never, always) or that
    is unknown stops [setcond], [movcond] and [brcond] with a fatal error
    when the comparison is built; nothing is returned. *)
Theorem invalid_condition_is_fatal Opcode raw cs a wa b wb ins s :
  usesCondition Opcode = true ->
  (forall c, to_PTCCondition ptc raw = Some c -> isComparison c = false) ->
  translateOpcode Variables JumpTargets ptc Source Target
    Opcode (raw :: cs) (loadOf a wa :: loadOf b wb :: ins) s
  = Fatal (match to_PTCCondition ptc raw with
           | Some _ => "Invalid ICmp predicate value"
           | None => "Unknown comparison operator"
           end).
Proof.
  intros Huses Hc.
  destruct (proj2 (last_is_Some (raw :: cs)) ltac:(discriminate)) as [lbl Hl].
  destruct Opcode; try discriminate Huses; unfold translateOpcode;
    repeat (eapply bind_Done; [reflexivity|]; cbv beta iota zeta);
    first
    [ apply bind_Fatal; apply CreateICmp_raw_invalid; exact Hc
    | eapply bind_Done; [exact (back_last _ _ _ Hl)|];
      cbv beta iota zeta;
      eapply bind_Done;
        [unfold IRBuilder.BasicBlock_Create; reflexivity|];
      cbv beta iota zeta;
      eapply bind_Done; [reflexivity|]; cbv beta iota zeta;
      match goal with
      | |- context [LabeledBasicBlocks ?s0 !! ?l] =>
          destruct (LabeledBasicBlocks s0 !! l)
      end;
      (eapply bind_Done;
         [first [reflexivity
                | unfold IRBuilder.BasicBlock_Create; reflexivity]|];
       cbv beta iota zeta);
      apply bind_Fatal;
      repeat match goal with
             | |- (if ?b then _ else _) _ = _ =>
                 let b' := eval vm_compute in b in
                 change b with b'; cbv beta iota zeta
             end;
      repeat (eapply bind_Done; [reflexivity|]; cbv beta iota zeta);
      apply bind_Fatal; apply CreateICmp_raw_invalid; exact Hc ].
Qed.

End ExtensionsAndConditions.

Lemma extension_semantics_witness :
  exists r s' y,
    translateOpcode exampleVariables exampleJumpTargets examplePTC
      exampleArchitecture exampleArchitecture
      PTC_INSTRUCTION_op_ext8s_i32 [] [loadOf 1 32] entryState
    = Done (Values [r], s') /\
    eval (operands 511 0) r = Some y /\
    0 <= y < 2 ^ 32 /\
    signed 32 y = signed 8 (wrap 8 511).
Proof.
  apply (extension_semantics exampleVariables exampleJumpTargets examplePTC
           exampleArchitecture exampleArchitecture
           PTC_INSTRUCTION_op_ext8s_i32 8 true 32 entryState 1
           (operands 511 0) 511).
  - reflexivity.
  - reflexivity.
  - apply validInsertPoint_entryState.
  - reflexivity.
Defined.

Lemma setcond_semantics_witness :
  exists r s',
    translateOpcode exampleVariables exampleJumpTargets tcgConditions
      exampleArchitecture exampleArchitecture
      (op_setcond 32) [2] [loadOf 1 32; loadOf 2 32] entryState
    = Done (Values [r], s') /\
    eval (operands 4294967295 3) r
    = Some (if compares PTC_COND_LT 32 (wrap 32 4294967295) (wrap 32 3)
            then 1 else 0).
Proof.
  apply (setcond_semantics exampleVariables exampleJumpTargets tcgConditions
           exampleArchitecture exampleArchitecture
           32 2 PTC_COND_LT 1 2 entryState (operands 4294967295 3)).
  - left; reflexivity.
  - reflexivity.
  - reflexivity.
  - apply validInsertPoint_entryState.
Defined.

Lemma movcond_semantics_witness :
  exists r s',
    translateOpcode exampleVariables exampleJumpTargets tcgConditions
      exampleArchitecture exampleArchitecture
      (op_movcond 64) [13]
      [loadOf 1 64; loadOf 2 64; loadOf 3 64; loadOf 4 64] entryState
    = Done (Values [r], s') /\
    eval (fun id => 10 * id) r
    = Some (if compares PTC_COND_GTU 64 (wrap 64 10) (wrap 64 20)
            then wrap 64 30 else wrap 64 40).
Proof.
  apply (movcond_semantics exampleVariables exampleJumpTargets tcgConditions
           exampleArchitecture exampleArchitecture
           64 13 PTC_COND_GTU 1 2 3 4 entryState (fun id => 10 * id)).
  - right; reflexivity.
  - reflexivity.
  - reflexivity.
  - apply validInsertPoint_entryState.
Defined.

Lemma invalid_condition_is_fatal_witness :
  translateOpcode exampleVariables exampleJumpTargets tcgConditions
    exampleArchitecture exampleArchitecture
    PTC_INSTRUCTION_op_brcond_i32 [0; 5] [loadOf 1 32; loadOf 2 32] entryState
  = Fatal "Invalid ICmp predicate value".
Proof.
  apply (invalid_condition_is_fatal exampleVariables exampleJumpTargets
           tcgConditions exampleArchitecture exampleArchitecture
           PTC_INSTRUCTION_op_brcond_i32 0 [5] 1 32 2 32 [] entryState).
  - reflexivity.
  - intros c H. injection H as <-. reflexivity.
Defined.

(** ** Deposits, bit by bit *)

Lemma deposit_spec_bits w x y p l i :
  0 <= p -> 0 <= l -> 0 <= i < w ->
  Z.testbit (deposit_spec w x y p l) i
  = if (p <=? i) && (i <? p + l) then Z.testbit y (i - p) else Z.testbit x i.
Proof.
  intros Hp Hl Hi. unfold deposit_spec, wrap.
  rewrite Z.lor_spec, Z.land_spec, !Z.testbit_mod_pow2 by lia.
  destruct (Z.ltb_spec i w); [|lia]. cbn [andb].
  rewrite Z.lnot_spec, !Z.shiftl_spec, Z.land_spec by lia.
  destruct (Z.leb_spec p i).
  - rewrite !Z.testbit_ones_nonneg by lia.
    destruct (Z.ltb_spec (i - p) l), (Z.ltb_spec i (p + l)); try lia;
      cbn [andb negb orb].
    + rewrite Bool.andb_false_r, Bool.andb_true_r. reflexivity.
    + rewrite Bool.andb_false_r, Bool.andb_true_r, Bool.orb_false_r.
      reflexivity.
  - rewrite !(Z.testbit_neg_r _ (i - p)) by lia.
    cbn [andb negb]. rewrite Bool.andb_true_r, Bool.orb_false_r. reflexivity.
Qed.

(** X9.  A deposit of a length up to 30, or of the whole register at
    position 0, returns its first input with the [l] bits from position [p]
    replaced by the low [l] bits of its second input. *)
Theorem deposit_inserts_field
    (Variables : VariableManager) (JumpTargets : JumpTargetManager)
    (ptc : PTCInterface) (Source Target : Architecture)
    (w p l : Z) (s : TranslatorState) (a b : Z) (mem : Z -> Z) :
  w = 32 \/ w = 64 -> validInsertPoint s ->
  0 <= p -> p + l <= w -> 0 < l <= 30 \/ (p = 0 /\ l = w) ->
  exists r s' y,
    translateOpcode Variables JumpTargets ptc Source Target
      (op_deposit w) [p; l] [loadOf a w; loadOf b w] s
    = Done (Values [r], s') /\
    eval mem r = Some y /\
    forall i, 0 <= i < w ->
      Z.testbit y i
      = if (p <=? i) && (i <? p + l)
        then Z.testbit (wrap w (mem b)) (i - p)
        else Z.testbit (wrap w (mem a)) i.
Proof.
  intros Hw Hs Hp Hpl [Hl | [-> ->]].
  - destruct (translate_deposit_short Variables JumpTargets ptc Source Target
                w p l s a b Hw Hs Hp Hl Hpl) as (r & s' & Hrun & Heval).
    exists r, s', (deposit_spec w (wrap w (mem a)) (wrap w (mem b)) p l).
    split; [exact Hrun|]. split; [apply Heval|].
    intros i Hi. apply deposit_spec_bits; lia.
  - destruct (translate_deposit_full Variables JumpTargets ptc Source Target
                w s a b Hw Hs) as (r & s' & Hrun & Heval).
    exists r, s', (deposit_spec w (wrap w (mem a)) (wrap w (mem b)) 0 w).
    split; [exact Hrun|]. split; [apply Heval|].
    intros i Hi. apply deposit_spec_bits; lia.
Qed.

Lemma deposit_inserts_field_witness :
  exists r s' y,
    translateOpcode exampleVariables exampleJumpTargets examplePTC
      exampleArchitecture exampleArchitecture
      (op_deposit 32) [8; 4] [loadOf 1 32; loadOf 2 32] entryState
    = Done (Values [r], s') /\
    eval (operands 4294967295 5) r = Some y /\
    forall i, 0 <= i < 32 ->
      Z.testbit y i
      = if (8 <=? i) && (i <? 8 + 4)
        then Z.testbit (wrap 32 5) (i - 8)
        else Z.testbit (wrap 32 4294967295) i.
Proof.
  apply (deposit_inserts_field exampleVariables exampleJumpTargets examplePTC
           exampleArchitecture exampleArchitecture
           32 8 4 entryState 1 2 (operands 4294967295 5)).
  - left; reflexivity.
  - apply validInsertPoint_entryState.
  - lia.
  - lia.
  - left; lia.
Defined.

(** ** Division with remainder *)

Lemma quot_range M a b :
  2 <= M -> - M <= a < M -> b <> 0 -> ~ (a = - M /\ b = -1) ->
  - M <= a ÷ b < M.
Proof.
  intros HM Ha Hb Hov.
  destruct (Z.eq_dec b 1) as [-> | H1]; [rewrite Z.quot_1_r; lia|].
  destruct (Z.eq_dec b (-1)) as [-> | H2].
  - change (-1) with (- (1)). rewrite Z.quot_opp_r, Z.quot_1_r by lia. lia.
  - assert (Habs : Z.abs (a ÷ b) <= M - 1).
    { rewrite <- Z.quot_abs by lia.
      rewrite Z.quot_div_nonneg by lia.
      apply Z.lt_succ_r. apply Z.div_lt_upper_bound; nia. }
    lia.
Qed.

Section Division.

Context (Variables : VariableManager) (JumpTargets : JumpTargetManager).
Context (ptc : PTCInterface) (Source Target : Architecture).

Lemma translate_div2 (signedness : bool) w s a c (High : Value) :
  w = 32 \/ w = 64 -> validInsertPoint s ->
  let DivisionOp := if signedness then SDiv else UDiv in
  let RemainderOp := if signedness then SRem else URem in
  let Division := BinaryOperator DivisionOp (loadOf a w) (loadOf c w) in
  let Remainder := BinaryOperator RemainderOp (loadOf a w) (loadOf c w) in
  translateOpcode Variables JumpTargets ptc Source Target
    (op_div2 signedness w) [] [loadOf a w; High; loadOf c w] s
  = Done (Values [Division; Remainder],
          IRBuilder.appendInst Remainder (IRBuilder.appendInst Division s)).
Proof.
  intros Hw Hs.
  destruct Hw as [-> | ->]; destruct signedness;
    (unfold translateOpcode, op_div2; simpl (_ =? _); cbv iota; exec).
Qed.

(** X10.  [div2] and [divu2] divide their first input by their third and
    return the quotient and the remainder of that division; the second
    input, the high half of the dividend, is not used.  For a divisor other
    than zero (and, signed, other than the one overflowing quotient) the
    results satisfy the division identity with a remainder smaller than the
    divisor; for a zero divisor they have no defined value. *)
Theorem div2_semantics (signedness : bool) w s a c mem x y :
  w = 32 \/ w = 64 -> validInsertPoint s ->
  wrap w (mem a) = x -> wrap w (mem c) = y ->
  exists q r s',
    (forall High',
       translateOpcode Variables JumpTargets ptc Source Target
         (op_div2 signedness w) [] [loadOf a w; High'; loadOf c w] s
       = Done (Values [q; r], s')) /\
    (y = 0 -> eval mem q = None /\ eval mem r = None) /\
    (y <> 0 ->
     if signedness
     then ~ (signed w x = - 2 ^ (w - 1) /\ signed w y = -1) ->
          exists qv rv,
            eval mem q = Some qv /\ eval mem r = Some rv /\
            0 <= qv < 2 ^ w /\ 0 <= rv < 2 ^ w /\
            signed w x = signed w qv * signed w y + signed w rv /\
            Z.abs (signed w rv) < Z.abs (signed w y) /\
            0 <= signed w rv * signed w x
     else exists qv rv,
            eval mem q = Some qv /\ eval mem r = Some rv /\
            x = qv * y + rv /\ 0 <= rv < y).
Proof.
  intros Hw Hs Hx Hy.
  eexists _, _, _. split.
  { intros High'. apply translate_div2; assumption. }
  assert (Hxr : 0 <= x < 2 ^ w) by (subst x; apply wrap_range; destruct Hw; lia).
  assert (Hyr : 0 <= y < 2 ^ w) by (subst y; apply wrap_range; destruct Hw; lia).
  assert (Hw0 : 0 < w) by (destruct Hw; lia).
  cbn [eval loadOf typeOf bitsOf mbind option_bind]. rewrite Hx, Hy.
  split.
  - intros ->. destruct signedness; split; reflexivity.
  - intros Hy0. destruct signedness.
    + intros Hov. unfold evalBinOp.
      destruct (Z.eqb_spec y 0) as [|_]; [contradiction|]. cbn [orb].
      assert (Hcond : (signed w x =? - 2 ^ (w - 1)) && (signed w y =? -1) = false).
      { apply Bool.andb_false_iff.
        destruct (Z.eqb_spec (signed w x) (- 2 ^ (w - 1))),
                 (Z.eqb_spec (signed w y) (-1)); tauto. }
      rewrite Hcond.
      pose proof (signed_range w x Hw0 Hxr) as Hsx.
      pose proof (signed_range w y Hw0 Hyr) as Hsy.
      assert (Hsy0 : signed w y <> 0).
      { unfold signed. destruct (Z.ltb_spec y (2 ^ (w - 1))); lia. }
      assert (HM : 2 <= 2 ^ (w - 1)).
      { change 2 with (2 ^ 1) at 1. apply Z.pow_le_mono_r; destruct Hw; lia. }
      pose proof (quot_range _ _ _ HM Hsx Hsy0 Hov) as Hq.
      pose proof (Z.rem_bound_abs (signed w x) (signed w y) Hsy0) as Hr.
      pose proof (Z.rem_sign_mul (signed w x) (signed w y) Hsy0) as Hsign.
      pose proof (Z.quot_rem' (signed w x) (signed w y)) as Hqr.
      eexists _, _. split; [reflexivity|]. split; [reflexivity|].
      split; [apply wrap_range; lia|]. split; [apply wrap_range; lia|].
      rewrite !signed_wrap by lia. split; [lia|]. split; [lia|]. lia.
    + unfold evalBinOp.
      destruct (Z.eqb_spec y 0) as [|_]; [contradiction|].
      eexists _, _. split; [reflexivity|]. split; [reflexivity|].
      split.
      * rewrite Z.mul_comm. apply Z.div_mod. lia.
      * apply Z.mod_pos_bound. lia.
Qed.

End Division.

Lemma div2_semantics_witness :
  exists q r s',
    (forall High',
       translateOpcode exampleVariables exampleJumpTargets examplePTC
         exampleArchitecture exampleArchitecture
         (op_div2 true 32) [] [loadOf 1 32; High'; loadOf 2 32] entryState
       = Done (Values [q; r], s')) /\
    (2 = 0 -> eval (operands 4294967289 2) q = None /\
              eval (operands 4294967289 2) r = None) /\
    (2 <> 0 ->
     ~ (signed 32 4294967289 = - 2 ^ (32 - 1) /\ signed 32 2 = -1) ->
     exists qv rv,
       eval (operands 4294967289 2) q = Some qv /\
       eval (operands 4294967289 2) r = Some rv /\
       0 <= qv < 2 ^ 32 /\ 0 <= rv < 2 ^ 32 /\
       signed 32 4294967289 = signed 32 qv * signed 32 2 + signed 32 rv /\
       Z.abs (signed 32 rv) < Z.abs (signed 32 2) /\
       0 <= signed 32 rv * signed 32 4294967289).
Proof.
  apply (div2_semantics exampleVariables exampleJumpTargets examplePTC
           exampleArchitecture exampleArchitecture
           true 32 entryState 1 2 (operands 4294967289 2) 4294967289 2).
  - left; reflexivity.
  - apply validInsertPoint_entryState.
  - reflexivity.
  - reflexivity.
Defined.

(** ** Double-word addition and subtraction *)

Lemma lor_high_low w h l :
  0 <= w -> 0 <= l < 2 ^ w -> Z.lor (h * 2 ^ w) l = h * 2 ^ w + l.
Proof.
  intros Hw Hl.
  assert (Hland : Z.land (h * 2 ^ w) l = 0).
  { apply Z.bits_inj'. intros i Hi.
    rewrite Z.land_spec, Z.bits_0, <- Z.shiftl_mul_pow2 by lia.
    destruct (Z.lt_ge_cases i w).
    - rewrite Z.shiftl_spec_low by lia. reflexivity.
    - rewrite (testbit_high w l i) by lia. apply Bool.andb_false_r. }
  rewrite <- Z.lxor_lor by exact Hland.
  symmetry. apply Z.add_nocarry_lxor. exact Hland.
Qed.

Lemma joined_as_emitted w low high :
  0 < w -> 0 <= low < 2 ^ w -> 0 <= high < 2 ^ w ->
  Z.lor (wrap (2 * w) (Z.shiftl (wrap (2 * w) (signed w high)) w))
        (wrap (2 * w) (signed w low))
  = joined w low high.
Proof.
  intros Hw Hl Hh.
  assert (Hp : 0 < 2 ^ w) by (apply Z.pow_pos_nonneg; lia).
  pose proof (pow2_double w ltac:(lia)) as Hd.
  pose proof (pow2_pred w Hw) as Hpred.
  assert (Hhigh : wrap (2 * w) (Z.shiftl (wrap (2 * w) (signed w high)) w)
                  = high * 2 ^ w).
  { rewrite Z.shiftl_mul_pow2 by lia. unfold wrap.
    rewrite Z.mul_mod_idemp_l by lia.
    unfold signed. destruct (Z.ltb_spec high (2 ^ (w - 1))).
    - apply Z.mod_small. nia.
    - replace ((high - 2 ^ w) * 2 ^ w)
        with (high * 2 ^ w + (-1) * 2 ^ (2 * w)) by lia.
      rewrite Z.mod_add by lia. apply Z.mod_small. nia. }
  rewrite Hhigh. unfold joined, signed.
  destruct (Z.ltb_spec low (2 ^ (w - 1))).
  - rewrite wrap_small by nia. apply lor_high_low; lia.
  - assert (Hlow : wrap (2 * w) (low - 2 ^ w) = (2 ^ w - 1) * 2 ^ w + low).
    { unfold wrap.
      replace (low - 2 ^ w) with ((2 ^ w - 1) * 2 ^ w + low + (-1) * 2 ^ (2 * w))
        by lia.
      rewrite Z.mod_add by lia. apply Z.mod_small. nia. }
    rewrite Hlow.
    rewrite <- (lor_high_low w (2 ^ w - 1) low) by lia.
    rewrite Z.lor_assoc. f_equal.
    rewrite <- !Z.shiftl_mul_pow2, <- Z.shiftl_lor by lia.
    f_equal. replace (2 ^ w - 1) with (Z.ones w)
      by (rewrite Z.ones_equiv; lia).
    apply Z.bits_inj'. intros i Hi.
    rewrite Z.lor_spec, Z.testbit_ones_nonneg by lia.
    destruct (Z.ltb_spec i w).
    + apply Bool.orb_true_r.
    + rewrite (testbit_high w high i) by lia. reflexivity.
Qed.

(** X11.  [add2] and [sub2] return the low and the high word of the sum or
    difference, modulo [2^(2w)], of the two double-width numbers the code
    joins from its (low, high) input pairs.  Each pair is joined as
    [joined] says: as [high * 2^w + low] when the top bit of the low word
    is clear, with the high half all ones when it is set. *)
Theorem add2_sub2_semantics
    (Variables : VariableManager) (JumpTargets : JumpTargetManager)
    (ptc : PTCInterface) (Source Target : Architecture)
    (subtract : bool) (w : Z) (s : TranslatorState)
    (a0 a1 b0 b1 : Z) (mem : Z -> Z) :
  w = 32 \/ w = 64 -> validInsertPoint s ->
  exists lo hi s' low high,
    translateOpcode Variables JumpTargets ptc Source Target
      (op_addsub2 subtract w) []
      [loadOf a0 w; loadOf a1 w; loadOf b0 w; loadOf b1 w] s
    = Done (Values [lo; hi], s') /\
    eval mem lo = Some low /\ eval mem hi = Some high /\
    0 <= low < 2 ^ w /\ 0 <= high < 2 ^ w /\
    let A := joined w (wrap w (mem a0)) (wrap w (mem a1)) in
    let B := joined w (wrap w (mem b0)) (wrap w (mem b1)) in
    high * 2 ^ w + low = wrap (2 * w) (if subtract then A - B else A + B).
Proof.
  intros Hw Hs.
  assert (Hw0 : 0 < w) by (destruct Hw; lia).
  pose proof (joined_as_emitted w _ _ Hw0
                (wrap_range w (mem a0) ltac:(lia))
                (wrap_range w (mem a1) ltac:(lia))) as HA.
  pose proof (joined_as_emitted w _ _ Hw0
                (wrap_range w (mem b0) ltac:(lia))
                (wrap_range w (mem b1) ltac:(lia))) as HB.
  cbv zeta.
  set (A := joined w (wrap w (mem a0)) (wrap w (mem a1))) in *.
  set (B := joined w (wrap w (mem b0)) (wrap w (mem b1))) in *.
  set (R := wrap (2 * w) (if subtract then A - B else A + B)).
  assert (HR : 0 <= R < 2 ^ (2 * w)) by (apply wrap_range; lia).
  assert (Hlow : 0 <= wrap w R < 2 ^ w) by (apply wrap_range; lia).
  assert (Hhigh : 0 <= wrap w (Z.shiftr R w) < 2 ^ w)
    by (apply wrap_range; lia).
  pose proof (split_halves w R Hw0 HR) as Hsplit.
  clearbody A B.
  destruct Hw as [-> | ->]; destruct subtract;
    (eexists _, _, _, (wrap _ R), (wrap _ (Z.shiftr R _));
     split;
     [ unfold translateOpcode, op_addsub2; simpl (_ =? _); cbv iota; exec |];
     cbn [eval loadOf typeOf bitsOf evalCast mbind option_bind
          evalBinOp Z.ltb Z.compare Z.mul Pos.mul Pos.compare
          Pos.compare_cont];
     change (32 * 2) with (2 * 32) in *; change (64 * 2) with (2 * 64) in *;
     change (wrap (2 * 32) 32) with 32; change (wrap (2 * 64) 64) with 64;
     change (32 <? 2 * 32) with true; change (64 <? 2 * 64) with true;
     cbn [mbind option_bind];
     rewrite ?HA, ?HB;
     split; [reflexivity|]; split; [reflexivity|];
     split; [exact Hlow|]; split; [exact Hhigh|]; exact Hsplit).
Qed.

Lemma add2_sub2_semantics_witness :
  exists lo hi s' low high,
    translateOpcode exampleVariables exampleJumpTargets examplePTC
      exampleArchitecture exampleArchitecture
      (op_addsub2 false 32) []
      [loadOf 1 32; loadOf 2 32; loadOf 3 32; loadOf 4 32] entryState
    = Done (Values [lo; hi], s') /\
    eval (fun id => id) lo = Some low /\ eval (fun id => id) hi = Some high /\
    0 <= low < 2 ^ 32 /\ 0 <= high < 2 ^ 32 /\
    let A := joined 32 (wrap 32 1) (wrap 32 2) in
    let B := joined 32 (wrap 32 3) (wrap 32 4) in
    high * 2 ^ 32 + low = wrap (2 * 32) (A + B).
Proof.
  apply (add2_sub2_semantics exampleVariables exampleJumpTargets examplePTC
           exampleArchitecture exampleArchitecture
           false 32 entryState 1 2 3 4 (fun id => id)).
  - left; reflexivity.
  - apply validInsertPoint_entryState.
Defined.

(** ** Accesses to the process state *)

Section ProcessState.

Context (Variables : VariableManager) (JumpTargets : JumpTargetManager).
Context (ptc : PTCInterface) (Source Target : Architecture).

Lemma CreateZExtOrTrunc_load id p w s :
  validInsertPoint s ->
  let Load := LoadInst (Storage id p) 0 in
  let Cast := CastInst (if p <? w then ZExt else Trunc) Load (IntegerTy w) in
  IRBuilder.CreateZExtOrTrunc Load (IntegerTy w) s
  = if p =? w then Done (Load, s)
    else Done (Cast, IRBuilder.appendInst Cast s).
Proof.
  intros Hs Load Cast. unfold IRBuilder.CreateZExtOrTrunc.
  eapply bind_Done; [reflexivity|]. cbv beta iota zeta.
  subst Cast Load. cbn [typeOf bitsOf].
  destruct (Z.eqb_spec p w) as [-> | Hne].
  - rewrite Z.ltb_irrefl. reflexivity.
  - destruct (Z.ltb_spec p w) as [Hlt | Hge].
    + unfold IRBuilder.CreateZExt, IRBuilder.CreateCast. cbn [typeOf].
      rewrite bool_decide_eq_false_2 by congruence.
      eapply bind_Done.
      { unfold IRBuilder.castIsValid.
        destruct (Z.ltb_spec p w); [reflexivity | lia]. }
      cbv beta iota zeta. cbn [isConstant]. apply Insert_valid. exact Hs.
    + destruct (Z.ltb_spec w p) as [_ | ?]; [|lia].
      unfold IRBuilder.CreateTrunc, IRBuilder.CreateCast. cbn [typeOf].
      rewrite bool_decide_eq_false_2 by congruence.
      eapply bind_Done.
      { unfold IRBuilder.castIsValid.
        destruct (Z.ltb_spec w p); [reflexivity | lia]. }
      cbv beta iota zeta. cbn [isConstant]. apply Insert_valid. exact Hs.
Qed.

(** X12.  A load from the process state returns the field at the given
    offset, zero extended or truncated to the register width.  Every load
    opcode of one register width is translated alike: the access size and
    the signedness in the opcode's name play no part. *)
Theorem env_load_ignores_size_and_sign w c0 base al id p s mem :
  w = 32 \/ w = 64 -> 0 < p -> validInsertPoint s ->
  isEnv Variables base = true ->
  getByEnvOffset Variables c0 = Storage id p ->
  exists r s',
    (forall Opcode,
       isEnvLoad Opcode = true -> getRegisterSize Opcode = Done w ->
       translateOpcode Variables JumpTargets ptc Source Target
         Opcode [c0] [LoadInst base al] s
       = Done (Values [r], s')) /\
    eval mem r = Some (wrap w (wrap p (mem id))).
Proof.
  intros Hw Hp Hs Hbase Hfield.
  set (Load := LoadInst (Storage id p) 0).
  set (Cast := CastInst (if p <? w then ZExt else Trunc) Load (IntegerTy w)).
  set (s1 := IRBuilder.appendInst Load s).
  assert (Hs1 : validInsertPoint s1) by (apply validInsertPoint_appendInst; exact Hs).
  pose proof (CreateZExtOrTrunc_load id p w s1 Hs1) as Hfit.
  cbv zeta in Hfit. fold Load Cast in Hfit.
  exists (if p =? w then Load else Cast),
         (if p =? w then s1 else IRBuilder.appendInst Cast s1).
  split.
  - intros Opcode Hload Hsize.
    assert (Hrun : forall ty, ty = IntegerTy w ->
      (do Base <- LoadInst_getPointerOperand (LoadInst base al);
       if negb (isEnv Variables Base) then ret (Error invalid_argument)
       else
         do c <- at_ [c0] 0;
         do LoadEnvField <- IRBuilder.CreateLoad (getByEnvOffset Variables c);
         do Fitted <- IRBuilder.CreateZExtOrTrunc LoadEnvField ty;
         v [Fitted]) s
      = Done (Values [if p =? w then Load else Cast],
              if p =? w then s1 else IRBuilder.appendInst Cast s1)).
    { intros ty ->.
      eapply bind_Done; [reflexivity|]. cbv beta iota zeta.
      rewrite Hbase. cbn [negb].
      eapply bind_Done; [reflexivity|]. cbv beta iota zeta.
      rewrite Hfield.
      eapply bind_Done; [exec|]. cbv beta iota zeta.
      destruct (p =? w); (eapply bind_Done; [exact Hfit|]; reflexivity). }
    destruct Hw as [-> | ->];
      destruct Opcode; try discriminate Hload; try discriminate Hsize;
      unfold translateOpcode;
      do 3 (eapply bind_Done; [reflexivity|]; cbv beta iota zeta);
      (etransitivity; [|apply (Hrun _ eq_refl)]); reflexivity.
  - destruct (Z.eqb_spec p w) as [-> | Hne].
    + subst Load. cbn [eval]. unfold wrap. rewrite Z.mod_mod; [reflexivity|].
      apply Z.pow_nonzero; lia.
    + subst Cast Load.
      cbn [eval typeOf bitsOf mbind option_bind].
      destruct (Z.ltb_spec p w).
      * cbn [evalCast]. f_equal. symmetry. apply wrap_small.
        pose proof (wrap_range p (mem id) ltac:(lia)).
        assert (2 ^ p <= 2 ^ w) by (apply Z.pow_le_mono_r; lia). lia.
      * reflexivity.
Qed.

(** X13.  A store to the process state writes its first input, zero
    extended to the width of the field at the given offset, into that
    field; the access size in the opcode's name plays no part.  A field
    narrower than the register cannot be written: building the extension
    is a fatal error. *)
Theorem env_store_width Opcode w c0 base al a id p s :
  isEnvStore Opcode = true -> getRegisterSize Opcode = Done w ->
  validInsertPoint s ->
  isEnv Variables base = true ->
  getByEnvOffset Variables c0 = Storage id p ->
  translateOpcode Variables JumpTargets ptc Source Target
    Opcode [c0] [loadOf a w; LoadInst base al] s
  = if p <? w then Fatal "Invalid cast"
    else
      let ToStore :=
        if p =? w then loadOf a w
        else CastInst ZExt (loadOf a w) (IntegerTy p) in
      let s1 := if p =? w then s else IRBuilder.appendInst ToStore s in
      Done (Values [],
            IRBuilder.appendInst (StoreInst ToStore (Storage id p) 0) s1).
Proof.
  intros Hstore Hsize Hs Hbase Hfield.
  assert (Hrun :
    (do Base <- LoadInst_getPointerOperand (LoadInst base al);
     if negb (isEnv Variables Base) then ret (Error invalid_argument)
     else
       do c <- at_ [c0] 0;
       let Target := getByEnvOffset Variables c in
       do TargetPointer <-
         match typeOf Target with
         | PointerTy b => ret (IntegerTy b)
         | _ => fatal "getPointerElementType() of a non-pointer"
         end;
       do in0 <- at_ [loadOf a w; LoadInst base al] 0;
       do ToStore <- IRBuilder.CreateZExt in0 TargetPointer;
       do Store <- IRBuilder.CreateStore ToStore Target;
       v []) s
    = if p <? w then Fatal "Invalid cast"
      else
        let ToStore :=
          if p =? w then loadOf a w
          else CastInst ZExt (loadOf a w) (IntegerTy p) in
        let s1 := if p =? w then s else IRBuilder.appendInst ToStore s in
        Done (Values [],
              IRBuilder.appendInst (StoreInst ToStore (Storage id p) 0) s1)).
  { eapply bind_Done; [reflexivity|]. cbv beta iota zeta.
    rewrite Hbase. cbn [negb].
    eapply bind_Done; [reflexivity|]. cbv beta iota zeta.
    rewrite Hfield. cbn [typeOf].
    eapply bind_Done; [reflexivity|]. cbv beta iota zeta.
    eapply bind_Done; [reflexivity|]. cbv beta iota zeta.
    unfold IRBuilder.CreateZExt, IRBuilder.CreateCast.
    cbn [typeOf loadOf].
    destruct (Z.eqb_spec p w) as [-> | Hne].
    - rewrite Z.ltb_irrefl, bool_decide_eq_true_2 by reflexivity.
      eapply bind_Done; [reflexivity|]. cbv beta iota zeta.
      eapply bind_Done; [|reflexivity].
      unfold IRBuilder.CreateStore, IRBuilder.CreateAlignedStore.
      cbn [typeOf bitsOf IRBuilder.isIntegerTy].
      rewrite bool_decide_eq_true_2 by reflexivity.
      eapply bind_Done; [reflexivity|]. apply Insert_valid. exact Hs.
    - rewrite bool_decide_eq_false_2 by congruence.
      unfold IRBuilder.castIsValid.
      destruct (Z.ltb_spec p w) as [Hlt | Hge].
      + destruct (Z.ltb_spec w p); [lia|]. reflexivity.
      + destruct (Z.ltb_spec w p); [|lia].
        eapply bind_Done.
        { eapply bind_Done; [reflexivity|]. cbv beta iota zeta.
          cbn [isConstant]. apply Insert_valid. exact Hs. }
        cbv beta iota zeta.
        eapply bind_Done; [|reflexivity].
        unfold IRBuilder.CreateStore, IRBuilder.CreateAlignedStore.
        cbn [typeOf bitsOf IRBuilder.isIntegerTy].
        rewrite bool_decide_eq_true_2 by reflexivity.
        eapply bind_Done; [reflexivity|]. apply Insert_valid.
        apply validInsertPoint_appendInst. exact Hs. }
  destruct Opcode; try discriminate Hstore;
    injection Hsize as <-;
    unfold translateOpcode;
    do 3 (eapply bind_Done; [reflexivity|]; cbv beta iota zeta);
    exact Hrun.
Qed.

End ProcessState.

Lemma env_load_ignores_size_and_sign_witness :
  exists r s',
    (forall Opcode,
       isEnvLoad Opcode = true -> getRegisterSize Opcode = Done 64 ->
       translateOpcode exampleVariables exampleJumpTargets examplePTC
         exampleArchitecture exampleArchitecture
         Opcode [4] [LoadInst (Storage 0 32) 0] entryState
       = Done (Values [r], s')) /\
    eval (fun _ => 2 ^ 32 + 5) r = Some (wrap 64 (wrap 32 (2 ^ 32 + 5))).
Proof.
  apply (env_load_ignores_size_and_sign exampleVariables exampleJumpTargets
           examplePTC exampleArchitecture exampleArchitecture
           64 4 (Storage 0 32) 0 1004 32 entryState (fun _ => 2 ^ 32 + 5)).
  - right; reflexivity.
  - lia.
  - apply validInsertPoint_entryState.
  - reflexivity.
  - reflexivity.
Defined.

Lemma env_store_width_witness :
  translateOpcode exampleVariables exampleJumpTargets examplePTC
    exampleArchitecture exampleArchitecture
    PTC_INSTRUCTION_op_st8_i32 [4] [loadOf 1 32; LoadInst (Storage 0 32) 0]
    entryState
  = if 32 <? 32 then Fatal "Invalid cast"
    else
      let ToStore :=
        if 32 =? 32 then loadOf 1 32
        else CastInst ZExt (loadOf 1 32) (IntegerTy 32) in
      let s1 :=
        if 32 =? 32 then entryState
        else IRBuilder.appendInst ToStore entryState in
      Done (Values [],
            IRBuilder.appendInst (StoreInst ToStore (Storage 1004 32) 0) s1).
Proof.
  apply (env_store_width exampleVariables exampleJumpTargets examplePTC
           exampleArchitecture exampleArchitecture
           PTC_INSTRUCTION_op_st8_i32 32 4 (Storage 0 32) 0 1 1004 32
           entryState).
  - reflexivity.
  - reflexivity.
  - apply validInsertPoint_entryState.
  - reflexivity.
  - reflexivity.
Defined.

(** ** What the translation of an opcode leaves alone *)

Lemma appendInsts_app Is Js s :
  appendInsts (Is ++ Js) s = appendInsts Js (appendInsts Is s).
Proof. unfold appendInsts. apply foldl_app. Qed.

Lemma appendsOnly_ret {A} (a : A) : appendsOnly (ret a).
Proof. intros s a' s' H. injection H as _ <-. exists []. reflexivity. Qed.

Lemma appendsOnly_bind {A B} (m : M A) (k : A -> M B) :
  appendsOnly m -> (forall a, appendsOnly (k a)) -> appendsOnly (bind m k).
Proof.
  intros Hm Hk s b s' H. unfold bind in H.
  destruct (m s) as [[a s1]| |] eqn:E; try discriminate H.
  destruct (Hm _ _ _ E) as [Is ->].
  destruct (Hk a _ _ _ H) as [Js ->].
  exists (Is ++ Js). symmetry. apply appendInsts_app.
Qed.

Lemma appendsOnly_lift {A} (o : Outcome A) : appendsOnly (lift o).
Proof.
  intros s a s' H. unfold lift in H. destruct o; try discriminate H.
  injection H as _ <-. exists []. reflexivity.
Qed.

Lemma appendsOnly_fatal {A} msg : appendsOnly (@fatal A msg).
Proof. intros s a s' H. discriminate H. Qed.

Lemma appendsOnly_undefined {A} msg : appendsOnly (@undefined A msg).
Proof. intros s a s' H. discriminate H. Qed.

Lemma appendsOnly_Insert I : appendsOnly (IRBuilder.Insert I).
Proof.
  intros s a s' H. unfold IRBuilder.Insert, bind, get in H.
  destruct (heap s !! insertBlock s); try discriminate H.
  injection H as _ <-. exists [I]. reflexivity.
Qed.

Ltac appends :=
  lazymatch goal with
  | |- appendsOnly (bind _ _) =>
      apply appendsOnly_bind; [appends | intros; appends]
  | |- appendsOnly (ret _) => apply appendsOnly_ret
  | |- appendsOnly (lift _) => apply appendsOnly_lift
  | |- appendsOnly (fatal _) => apply appendsOnly_fatal
  | |- appendsOnly (undefined _) => apply appendsOnly_undefined
  | |- appendsOnly (IRBuilder.Insert _) => apply appendsOnly_Insert
  | |- appendsOnly (if ?b then _ else _) => destruct b; appends
  | |- appendsOnly (match ?x with _ => _ end) => destruct x; appends
  | |- _ =>
      progress (cbv beta iota zeta;
                autounfold with exec;
                unfold Assert, llvm_unreachable, at_, CreateICmp_raw,
                  CreateCall_bswap, LoadInst_getPointerOperand, depositBits,
                  bswapSwapType, back, IRBuilder.ConstantInt_get);
      appends
  end.

Lemma appendInsts_heap Is s :
  appendInsts Is s
  = with_heap
      (alter (fun bb => mkBasicBlock (bbName bb) (bbInsts bb ++ Is))
         (insertBlock s) (heap s)) s.
Proof.
  revert s. induction Is as [|I Is IH]; intros s.
  - destruct s as [h ? ? ib ? ? ? ? ?]. unfold appendInsts, with_heap. simpl.
    f_equal. symmetry. apply alter_id.
    intros [name insts] _. simpl. rewrite app_nil_r. reflexivity.
  - change (appendInsts (I :: Is) s)
      with (appendInsts Is (IRBuilder.appendInst I s)).
    rewrite IH. destruct s as [h ? ? ib ? ? ? ? ?].
    unfold IRBuilder.appendInst, with_heap. simpl. f_equal.
    rewrite alter_alter_eq. apply alter_ext.
    intros [name insts] _. simpl. rewrite <- app_assoc. reflexivity.
Qed.

(** X14.  Outside the opcodes that end a basic block (labels, branches and
    the exit), the translation of an opcode, whatever its arguments, does
    nothing to the state but append instructions at the insertion point:
    blocks, labels, markers and the record of the calls to the collaborators
    stay as they are. *)
Theorem translateOpcode_appends_only
    (Variables : VariableManager) (JumpTargets : JumpTargetManager)
    (ptc : PTCInterface) (Source Target : Architecture)
    Opcode ConstArguments InArguments s r s' :
  isControl Opcode = false ->
  translateOpcode Variables JumpTargets ptc Source Target
    Opcode ConstArguments InArguments s = Done (r, s') ->
  exists Is,
    s' = with_heap
           (alter (fun bb => mkBasicBlock (bbName bb) (bbInsts bb ++ Is))
              (insertBlock s) (heap s)) s.
Proof.
  intros Hc Hrun.
  assert (H : appendsOnly (translateOpcode Variables JumpTargets ptc
                             Source Target Opcode ConstArguments InArguments)).
  { destruct Opcode; try discriminate Hc; unfold translateOpcode; appends. }
  destruct (H _ _ _ Hrun) as [Is ->].
  exists Is. apply appendInsts_heap.
Qed.

Lemma translateOpcode_appends_only_witness :
  exists Is,
    IRBuilder.appendInst
      (BinaryOperator Add (loadOf 1 32) (loadOf 2 32)) entryState
    = with_heap
        (alter (fun bb => mkBasicBlock (bbName bb) (bbInsts bb ++ Is))
           (insertBlock entryState) (heap entryState)) entryState.
Proof.
  apply (translateOpcode_appends_only exampleVariables exampleJumpTargets
           examplePTC exampleArchitecture exampleArchitecture
           PTC_INSTRUCTION_op_add_i32 [] [loadOf 1 32; loadOf 2 32]
           entryState (Values [BinaryOperator Add (loadOf 1 32) (loadOf 2 32)])
           _).
  - reflexivity.
  - reflexivity.
Defined.

(** ** Branches and labels *)

Section Labels.

Context (Variables : VariableManager) (JumpTargets : JumpTargetManager).
Context (ptc : PTCInterface) (Source Target : Architecture).

(** X15.  A branch to a label that has no block yet creates the block, and
    the label that comes later takes that same block: after [br L] and
    [set_label L] the block the branch jumps to is the insertion point, it
    is the last block of the function and still empty, and the fall-through
    block of the branch jumps to it as well. *)
Theorem forward_branch_meets_label L ins ins' s :
  validInsertPoint s -> fresh s ->
  LabeledBasicBlocks s !! labelName ptc L = None ->
  let F := nextAddress s in
  let T := S (nextAddress s) in
  exists s1 s2,
    translateOpcode Variables JumpTargets ptc Source Target
      PTC_INSTRUCTION_op_br [L] ins s = Done (Values [], s1) /\
    translateOpcode Variables JumpTargets ptc Source Target
      PTC_INSTRUCTION_op_set_label [L] ins' s1 = Done (Values [], s2) /\
    (exists blk,
       heap s !! insertBlock s = Some blk /\
       heap s2 !! insertBlock s
       = Some (mkBasicBlock (bbName blk) (bbInsts blk ++ [BranchInst T]))) /\
    heap s2 !! F = Some (mkBasicBlock "" [BranchInst T]) /\
    heap s2 !! T = Some (mkBasicBlock (labelName ptc L) []) /\
    insertBlock s2 = T /\
    LabeledBasicBlocks s2 !! labelName ptc L = Some T /\
    last (functionBlocks s2) = Some T /\
    Blocks s2 = Blocks s ++ [F; T].
Proof.
  intros [blk Hblk] Hfresh Hlbl F T.
  destruct s as [h n fb ib lbl blocks lm cnt log]. simpl in *.
  assert (Hib : (ib < n)%nat).
  { destruct (Nat.lt_ge_cases ib n) as [|Hge]; [assumption|].
    pose proof (Hfresh ib Hge) as E. simpl in E. congruence. }
  subst F T.
  set (Label := labelName ptc L) in *.
  set (jump := fun bb =>
         mkBasicBlock (bbName bb) (bbInsts bb ++ [BranchInst (S n)])).
  set (h1 := alter jump ib
               (<[S n := mkBasicBlock Label []]>
                  (<[n := mkBasicBlock "" []]> h))).
  set (s1 := mkState h1 (S (S n)) ((fb ++ [n]) ++ [S n]) n
               (<[Label := S n]> lbl) (blocks ++ [n]) lm (S cnt) log).
  set (s2 := mkState (alter jump n h1) (S (S n))
               (filter (fun b => b <> S n) ((fb ++ [n]) ++ [S n]) ++ [S n])
               (S n) (<[Label := S n]> lbl) ((blocks ++ [n]) ++ [S n]) lm
               (S (S cnt)) log).
  assert (HT : h1 !! S n = Some (mkBasicBlock Label [])).
  { unfold h1. rewrite lookup_alter_ne by lia. apply lookup_insert_eq. }
  assert (HF : h1 !! n = Some (mkBasicBlock "" [])).
  { unfold h1. rewrite lookup_alter_ne, lookup_insert_ne by lia.
    apply lookup_insert_eq. }
  exists s1, s2. split.
  { unfold translateOpcode.
    do 3 (eapply bind_Done; [reflexivity|]; cbv beta iota zeta).
    eapply bind_Done; [unfold IRBuilder.BasicBlock_Create; reflexivity|].
    cbv beta iota zeta.
    eapply bind_Done; [reflexivity|]. cbv beta iota zeta.
    simpl LabeledBasicBlocks. fold Label. rewrite Hlbl.
    eapply bind_Done.
    { eapply bind_Done; [unfold IRBuilder.BasicBlock_Create; reflexivity|].
      reflexivity. }
    cbv beta iota zeta.
    eapply bind_Done.
    { change (bool_decide (PTC_INSTRUCTION_op_br = PTC_INSTRUCTION_op_br))
        with true. cbv iota.
      eapply bind_Done; [|reflexivity].
      apply Insert_valid. exists blk. simpl.
      rewrite !lookup_insert_ne by lia. exact Hblk. }
    reflexivity. }
  split.
  { unfold translateOpcode.
    do 4 (eapply bind_Done; [reflexivity|]; cbv beta iota zeta).
    simpl LabeledBasicBlocks. fold Label. rewrite lookup_insert_eq.
    eapply bind_Done.
    { eapply bind_Done.
      { unfold IRBuilder.empty, bind, get, s1. cbn [heap]. rewrite HT.
        reflexivity. }
      reflexivity. }
    cbv beta iota zeta.
    eapply bind_Done.
    { apply Insert_valid. eexists. simpl. exact HF. }
    reflexivity. }
  split.
  { exists blk. split; [exact Hblk|]. simpl.
    rewrite lookup_alter_ne by lia. unfold h1.
    rewrite lookup_alter_eq, !lookup_insert_ne, Hblk by lia. reflexivity. }
  split.
  { simpl. rewrite lookup_alter_eq, HF. reflexivity. }
  split.
  { simpl. rewrite lookup_alter_ne by lia. exact HT. }
  split; [reflexivity|].
  split; [simpl; apply lookup_insert_eq|].
  split; [simpl; apply last_snoc|].
  simpl. rewrite <- app_assoc. reflexivity.
Qed.

(** X16.  A conditional branch to a label that has a block compares its two
    inputs and ends the current block with a branch on the comparison: to
    the label's block when the condition holds, to a new fall-through block
    when it does not.  The fall-through block becomes the insertion point;
    the labels are left as they are. *)
Theorem brcond_to_known_label w raw c L a b T s mem :
  w = 32 \/ w = 64 ->
  to_PTCCondition ptc raw = Some c -> isComparison c = true ->
  validInsertPoint s -> fresh s ->
  LabeledBasicBlocks s !! labelName ptc L = Some T ->
  let F := nextAddress s in
  let Compare := ICmpInst (conditionToPredicate c) (loadOf a w) (loadOf b w) in
  exists s',
    translateOpcode Variables JumpTargets ptc Source Target
      (op_brcond w) [raw; L] [loadOf a w; loadOf b w] s
    = Done (Values [], s') /\
    (exists blk,
       heap s !! insertBlock s = Some blk /\
       heap s' !! insertBlock s
       = Some (mkBasicBlock (bbName blk)
                 (bbInsts blk ++ [Compare; CondBranchInst Compare T F]))) /\
    eval mem Compare
    = Some (if compares c w (wrap w (mem a)) (wrap w (mem b)) then 1 else 0) /\
    heap s' !! F = Some (mkBasicBlock "" []) /\
    insertBlock s' = F /\
    LabeledBasicBlocks s' = LabeledBasicBlocks s /\
    Blocks s' = Blocks s ++ [F] /\
    newBasicBlockCount s' = S (newBasicBlockCount s).
Proof.
  intros Hw Hc Hcmp [blk Hblk] Hfresh Hlbl F Compare.
  destruct s as [h n fb ib lbl blocks lm cnt log]. simpl in *.
  assert (Hib : (ib < n)%nat).
  { destruct (Nat.lt_ge_cases ib n) as [|Hge]; [assumption|].
    pose proof (Hfresh ib Hge) as E. simpl in E. congruence. }
  subst F.
  set (Label := labelName ptc L) in *.
  set (h0 := <[n := mkBasicBlock "" []]> h).
  set (s0 := mkState h0 (S n) (fb ++ [n]) ib lbl blocks lm cnt log).
  assert (Hs0 : validInsertPoint s0).
  { exists blk. simpl. unfold h0. rewrite lookup_insert_ne by lia. exact Hblk. }
  set (s1 := IRBuilder.appendInst (CondBranchInst Compare T n)
               (IRBuilder.appendInst Compare s0)).
  exists (with_newBasicBlockCount (S cnt)
            (with_insertBlock n (with_Blocks (blocks ++ [n]) s1))).
  split.
  { destruct Hw as [-> | ->];
      (unfold translateOpcode, op_brcond; simpl (_ =? _); cbv iota;
       do 3 (eapply bind_Done; [reflexivity|]; cbv beta iota zeta);
       (eapply bind_Done;
          [unfold IRBuilder.BasicBlock_Create; reflexivity|]);
       cbv beta iota zeta;
       (eapply bind_Done; [reflexivity|]); cbv beta iota zeta;
       simpl LabeledBasicBlocks; fold Label; rewrite Hlbl;
       (eapply bind_Done; [reflexivity|]); cbv beta iota zeta;
       eapply bind_Done;
         [ repeat match goal with
                  | |- (if ?b then _ else _) _ = _ =>
                      let b' := eval vm_compute in b in
                      change b with b'; cbv beta iota zeta
                  end;
           do 3 (eapply bind_Done; [reflexivity|]; cbv beta iota zeta);
           (eapply bind_Done;
              [apply CreateICmp_raw_comparison; eassumption|]);
           cbv beta iota zeta;
           (eapply bind_Done; [|reflexivity]);
           apply Insert_valid; apply validInsertPoint_appendInst; exact Hs0
         | reflexivity ]). }
  split.
  { exists blk. split; [exact Hblk|]. simpl.
    rewrite !lookup_alter_eq. unfold h0.
    rewrite lookup_insert_ne, Hblk by lia. simpl.
    rewrite <- app_assoc. reflexivity. }
  split; [apply eval_comparison; exact Hcmp|].
  split.
  { simpl. rewrite !lookup_alter_ne by lia. apply lookup_insert_eq. }
  repeat split.
Qed.

End Labels.

Lemma fresh_entryState : fresh entryState.
Proof. intros b Hb. apply lookup_singleton_ne. simpl in Hb. lia. Qed.

Lemma forward_branch_meets_label_witness :
  let F := nextAddress entryState in
  let T := S (nextAddress entryState) in
  exists s1 s2,
    translateOpcode exampleVariables exampleJumpTargets examplePTC
      exampleArchitecture exampleArchitecture
      PTC_INSTRUCTION_op_br [3] [] entryState = Done (Values [], s1) /\
    translateOpcode exampleVariables exampleJumpTargets examplePTC
      exampleArchitecture exampleArchitecture
      PTC_INSTRUCTION_op_set_label [3] [] s1 = Done (Values [], s2) /\
    (exists blk,
       heap entryState !! insertBlock entryState = Some blk /\
       heap s2 !! insertBlock entryState
       = Some (mkBasicBlock (bbName blk) (bbInsts blk ++ [BranchInst T]))) /\
    heap s2 !! F = Some (mkBasicBlock "" [BranchInst T]) /\
    heap s2 !! T = Some (mkBasicBlock (labelName examplePTC 3) []) /\
    insertBlock s2 = T /\
    LabeledBasicBlocks s2 !! labelName examplePTC 3 = Some T /\
    last (functionBlocks s2) = Some T /\
    Blocks s2 = Blocks entryState ++ [F; T].
Proof.
  apply (forward_branch_meets_label exampleVariables exampleJumpTargets
           examplePTC exampleArchitecture exampleArchitecture
           3 [] [] entryState).
  - apply validInsertPoint_entryState.
  - apply fresh_entryState.
  - reflexivity.
Defined.

Lemma brcond_to_known_label_witness :
  let F := nextAddress pendingLabelState in
  let Compare :=
    ICmpInst (conditionToPredicate PTC_COND_LTU) (loadOf 1 32) (loadOf 2 32) in
  exists s',
    translateOpcode exampleVariables exampleJumpTargets tcgConditions
      exampleArchitecture exampleArchitecture
      (op_brcond 32) [4; 3] [loadOf 1 32; loadOf 2 32] pendingLabelState
    = Done (Values [], s') /\
    (exists blk,
       heap pendingLabelState !! insertBlock pendingLabelState = Some blk /\
       heap s' !! insertBlock pendingLabelState
       = Some (mkBasicBlock (bbName blk)
                 (bbInsts blk ++ [Compare; CondBranchInst Compare 1%nat F]))) /\
    eval (operands 7 9) Compare
    = Some (if compares PTC_COND_LTU 32 (wrap 32 7) (wrap 32 9)
            then 1 else 0) /\
    heap s' !! F = Some (mkBasicBlock "" []) /\
    insertBlock s' = F /\
    LabeledBasicBlocks s' = LabeledBasicBlocks pendingLabelState /\
    Blocks s' = Blocks pendingLabelState ++ [F] /\
    newBasicBlockCount s' = S (newBasicBlockCount pendingLabelState).
Proof.
  apply (brcond_to_known_label exampleVariables exampleJumpTargets
           tcgConditions exampleArchitecture exampleArchitecture
           32 4 PTC_COND_LTU 3 1 2 1%nat pendingLabelState (operands 7 9)).
  - left; reflexivity.
  - reflexivity.
  - reflexivity.
  - eexists; reflexivity.
  - intros b Hb. simpl in Hb.
    unfold pendingLabelState. cbn [heap].
    rewrite !lookup_insert_ne by lia. apply lookup_singleton_ne. lia.
  - reflexivity.
Defined.

(** ** Markers and registrations of [newInstruction] *)

Lemma bind_inv {A B} (m : M A) (k : A -> M B) s r :
  bind m k s = Done r -> exists a s1, m s = Done (a, s1) /\ k a s1 = Done r.
Proof.
  unfold bind. destruct (m s) as [[a s1]| |]; try discriminate.
  intros H. exists a, s1. split; [reflexivity | exact H].
Qed.

Lemma closeLastInstruction_log PC s s' :
  closeLastInstruction PC s = Done (tt, s') ->
  JumpTargetsLog s' = JumpTargetsLog s.
Proof.
  unfold closeLastInstruction, bind, get. 
  destruct (LastMarker s) as [loc|]; [|discriminate].
  destruct (instructionAt s loc) as [[]|]; try discriminate.
  unfold at_. destruct (args !! 0%nat) as [Operand|]; [|discriminate].
  unfold ret. destruct (asConstantInt Operand) as [val|]; [|discriminate].
  unfold Assert. destruct (getLimitedValue val <? PC); [|discriminate].
  unfold ret, modify. intros H. injection H as <-.
  destruct s; reflexivity.
Qed.

Lemma openMarker_inv PC s s' :
  openMarker PC s = Done (tt, s') ->
  exists loc,
    LastMarker s' = Some loc /\
    instructionAt s' loc
    = Some (CallInst "newpc" VoidTy [ConstantInt 64 PC; ConstantInt 64 0]) /\
    JumpTargetsLog s' = JumpTargetsLog s /\
    IRBuilder.empty (insertBlock s') s' = Done (false, s').
Proof.
  unfold openMarker, bind, get, IRBuilder.CreateCall, IRBuilder.Insert, modify.
  unfold bind, get, modify, ret.
  destruct (heap s !! insertBlock s) as [bb|] eqn:Hbb; [|discriminate].
  intros H. injection H as <-.
  eexists. split; [reflexivity|].
  destruct s as [h ? ? ib ? ? ? ? ?]. simpl in *.
  split.
  { unfold instructionAt. simpl. rewrite lookup_alter_eq, Hbb. simpl.
    rewrite lookup_app_r by lia. rewrite Nat.sub_diag. reflexivity. }
  split; [reflexivity|].
  unfold IRBuilder.empty, bind, get. simpl.
  rewrite lookup_alter_eq, Hbb. simpl.
  rewrite bool_decide_eq_false_2; [reflexivity|].
  destruct (bbInsts bb); discriminate.
Qed.

(** X17.  [newInstruction] tells the jump-target manager about an
    instruction in one way only: when it is not the first instruction and
    translation goes on, it registers the marker it has just emitted for
    the instruction's address.  For the first instruction and on an early
    exit nothing is registered, and a block is never registered: the marker
    is always in the block by the time the block is looked at. *)
Theorem newInstruction_registers_marker
    (JumpTargets : JumpTargetManager) (TheInstruction : PTCInstruction)
    (IsFirst : bool) (s : TranslatorState) (d : bool) (PC : Z)
    (s' : TranslatorState) :
  newInstruction JumpTargets TheInstruction IsFirst s = Done ((d, PC), s') ->
  if d || IsFirst then JumpTargetsLog s' = JumpTargetsLog s
  else
    exists loc,
      LastMarker s' = Some loc /\
      instructionAt s' loc
      = Some (CallInst "newpc" VoidTy [ConstantInt 64 PC; ConstantInt 64 0]) /\
      JumpTargetsLog s' = JumpTargetsLog s ++ [registerInstruction PC loc].
Proof.
  intros H. unfold newInstruction in H.
  apply bind_inv in H as (c0 & s1 & Hc0 & H).
  assert (s1 = s) as ->.
  { unfold at_ in Hc0. destruct (_ !! _); [|discriminate].
    injection Hc0 as _ <-. reflexivity. }
  apply bind_inv in H as (PC' & s2 & HPC & H).
  assert (s2 = s) as ->.
  { destruct (1 <? length (ConstArguments TheInstruction))%nat.
    - apply bind_inv in HPC as (c1 & t1 & Hc1 & HPC).
      unfold at_ in Hc1. destruct (_ !! _); [|discriminate].
      injection Hc1 as _ <-.
      apply bind_inv in HPC as (high & t2 & Hhigh & HPC).
      unfold lift in Hhigh. destruct (Cxx.uint64_shl _ _); try discriminate.
      injection Hhigh as _ <-. injection HPC as _ <-. reflexivity.
    - injection HPC as _ <-. reflexivity. }
  apply bind_inv in H as (d0 & s3 & Hd & H).
  assert (Hlog3 : JumpTargetsLog s3 = JumpTargetsLog s).
  { destruct IsFirst; simpl in Hd.
    - injection Hd as _ <-. reflexivity.
    - destruct (newPC JumpTargets PC') as [[D|] c].
      + apply bind_inv in Hd as (br & t1 & Hbr & Hd).
        unfold IRBuilder.CreateBr, IRBuilder.Insert, bind, get in Hbr.
        destruct (heap s !! insertBlock s); [|discriminate].
        injection Hbr as _ <-.
        destruct c.
        * injection Hd as _ <-. destruct s; reflexivity.
        * injection Hd as _ <-. destruct s; reflexivity.
      + injection Hd as _ <-. reflexivity. }
  destruct d0.
  { injection H as <- <- <-. simpl. exact Hlog3. }
  apply bind_inv in H as (s4 & t4 & Hget & H).
  injection Hget as <- <-.
  apply bind_inv in H as ([] & s5 & Hclose & H).
  assert (Hlog5 : JumpTargetsLog s5 = JumpTargetsLog s).
  { rewrite <- Hlog3. destruct (LastMarker s3).
    - apply closeLastInstruction_log in Hclose. exact Hclose.
    - injection Hclose as <-. reflexivity. }
  apply bind_inv in H as ([] & s6 & Hopen & H).
  apply openMarker_inv in Hopen as (loc & HL & HI & Hlog6 & Hempty).
  apply bind_inv in H as ([] & s7 & Hreg & H).
  injection H as <- <- <-. simpl.
  destruct IsFirst; simpl in *.
  { injection Hreg as <-. congruence. }
  apply bind_inv in Hreg as (s8 & t8 & Hget & Hreg).
  injection Hget as <- <-.
  apply bind_inv in Hreg as (atBegin & t9 & Hemp & Hreg).
  rewrite Hempty in Hemp. injection Hemp as <- <-.
  rewrite HL in Hreg. injection Hreg as <-.
  exists loc. split; [destruct s6; exact HL|].
  split; [destruct s6; exact HI|].
  destruct s6; simpl in *. congruence.
Qed.

Lemma newInstruction_registers_marker_witness :
  let s' :=
    with_JumpTargetsLog [registerInstruction 4096 (0%nat, 0%nat)]
      (with_LastMarker (Some (0%nat, 0%nat))
         (IRBuilder.appendInst
            (CallInst "newpc" VoidTy [ConstantInt 64 4096; ConstantInt 64 0])
            entryState)) in
  exists loc,
    LastMarker s' = Some loc /\
    instructionAt s' loc
    = Some (CallInst "newpc" VoidTy [ConstantInt 64 4096; ConstantInt 64 0]) /\
    JumpTargetsLog s'
    = JumpTargetsLog entryState ++ [registerInstruction 4096 loc].
Proof.
  apply (newInstruction_registers_marker exampleJumpTargets
           {| opcode := PTC_INSTRUCTION_op_debug_insn_start;
              InArguments := []; ConstArguments := [4096];
              OutArguments := [] |}
           false entryState false 4096).
  reflexivity.
Defined.

(** X18.  The address of an instruction is put together from its first two
    constant operands, the second being the upper 32 bits.  For the first
    instruction of a translation [newInstruction] opens the marker at that
    address, does not ask the jump-target manager anything and registers
    nothing. *)
Theorem newInstruction_first_joins_halves
    (JumpTargets : JumpTargetManager) (TheInstruction : PTCInstruction)
    (lo hi : Z) (s : TranslatorState) :
  ConstArguments TheInstruction = [lo; hi] ->
  0 <= lo < 2 ^ 32 -> 0 <= hi < 2 ^ 32 ->
  LastMarker s = None -> validInsertPoint s ->
  exists s' loc,
    newInstruction JumpTargets TheInstruction true s
    = Done ((false, hi * 2 ^ 32 + lo), s') /\
    LastMarker s' = Some loc /\
    instructionAt s' loc
    = Some (CallInst "newpc" VoidTy
              [ConstantInt 64 (hi * 2 ^ 32 + lo); ConstantInt 64 0]) /\
    JumpTargetsLog s' = JumpTargetsLog s.
Proof.
  intros HA Hlo Hhi HL Hs.
  assert (HPC : Z.lor lo (Cxx.uint64 (hi * 2 ^ 32)) = hi * 2 ^ 32 + lo).
  { unfold Cxx.uint64. rewrite Z.mod_small by lia.
    rewrite Z.lor_comm. apply lor_high_low; lia. }
  destruct (openMarker_valid s (hi * 2 ^ 32 + lo) Hs)
    as (s' & loc & Hopen & HL' & HI).
  exists s', loc. split; [|split; [exact HL'|split; [exact HI|]]].
  - unfold newInstruction. rewrite HA.
    eapply bind_Done; [reflexivity|]. cbv beta iota zeta.
    eapply bind_Done.
    { change (1 <? length [lo; hi])%nat with true. cbv iota.
      eapply bind_Done; [reflexivity|]. cbv beta iota zeta.
      eapply bind_Done; [reflexivity|]. cbv beta iota zeta.
      rewrite HPC. reflexivity. }
    cbv beta iota zeta.
    eapply bind_Done; [reflexivity|]. cbv beta iota zeta.
    eapply bind_Done; [reflexivity|]. cbv beta iota zeta.
    rewrite HL.
    eapply bind_Done; [reflexivity|]. cbv beta iota zeta.
    eapply bind_Done; [exact Hopen|]. reflexivity.
  - apply openMarker_inv in Hopen as (loc' & _ & _ & Hlog & _). exact Hlog.
Qed.

Lemma newInstruction_first_joins_halves_witness :
  exists s' loc,
    newInstruction exampleJumpTargets
      {| opcode := PTC_INSTRUCTION_op_debug_insn_start;
         InArguments := []; ConstArguments := [4096; 1];
         OutArguments := [] |} true entryState
    = Done ((false, 1 * 2 ^ 32 + 4096), s') /\
    LastMarker s' = Some loc /\
    instructionAt s' loc
    = Some (CallInst "newpc" VoidTy
              [ConstantInt 64 (1 * 2 ^ 32 + 4096); ConstantInt 64 0]) /\
    JumpTargetsLog s' = JumpTargetsLog entryState.
Proof.
  apply (newInstruction_first_joins_halves exampleJumpTargets _ 4096 1
           entryState).
  - reflexivity.
  - lia.
  - lia.
  - reflexivity.
  - apply validInsertPoint_entryState.
Defined.

(** X19.  When the address of a later instruction already has a block with
    translated code, [newInstruction] only branches to that block and asks
    the caller to stop: the open marker is neither closed nor replaced, the
    insertion point stays, and nothing is registered. *)
Theorem newInstruction_early_exit
    (JumpTargets : JumpTargetManager) (TheInstruction : PTCInstruction)
    (A : Z) (DivergeTo : nat) (s : TranslatorState) :
  ConstArguments TheInstruction = [A] ->
  newPC JumpTargets A = (Some DivergeTo, false) ->
  validInsertPoint s ->
  newInstruction JumpTargets TheInstruction false s
  = Done ((true, A), IRBuilder.appendInst (BranchInst DivergeTo) s).
Proof.
  intros HA Hnew Hs. unfold newInstruction. rewrite HA.
  do 2 (eapply bind_Done; [reflexivity|]; cbv beta iota zeta).
  simpl negb. cbv iota. rewrite Hnew.
  eapply bind_Done.
  { eapply bind_Done; [apply Insert_valid; exact Hs|]. reflexivity. }
  reflexivity.
Qed.

Lemma newInstruction_early_exit_witness :
  newInstruction divergingJumpTargets
    {| opcode := PTC_INSTRUCTION_op_debug_insn_start;
       InArguments := []; ConstArguments := [4100];
       OutArguments := [] |} false entryState
  = Done ((true, 4100), IRBuilder.appendInst (BranchInst 0%nat) entryState).
Proof.
  apply (newInstruction_early_exit divergingJumpTargets _ 4100 0%nat
           entryState).
  - reflexivity.
  - reflexivity.
  - apply validInsertPoint_entryState.
Defined.

(** ** A whole micro-operation *)

(** X20.  [translate] of a two-operand arithmetic, logic or shift
    micro-operation emits four instructions: the loads of the two input
    temporaries, the operation on them, and the store of the operation into
    the output temporary.  It returns [false] and asks for no exploration,
    whether or not the output is the program counter. *)
Theorem translate_binary_operation
    (Variables : VariableManager) (JumpTargets : JumpTargetManager)
    (ptc : PTCInterface) (TheModule : LLVMModule)
    (Source Target : Architecture)
    (Opcode : PTCOpcode) (w a b out PC : Z) (ConstArgs : list Z)
    (s : TranslatorState) (mem : Z -> Z) :
  isBinaryArithmetic Opcode = true ->
  getRegisterSize Opcode = Done w ->
  (forall id, getOrCreate Variables id = Storage id w) ->
  validInsertPoint s ->
  exists BinaryOp,
    opcodeToBinaryOp Opcode = Done BinaryOp /\
    let Operation := BinaryOperator BinaryOp (loadOf a w) (loadOf b w) in
    translate Variables JumpTargets ptc TheModule Source Target
      {| opcode := Opcode; InArguments := [a; b];
         ConstArguments := ConstArgs; OutArguments := [out] |} PC s
    = Done (false,
            appendInsts [loadOf a w; loadOf b w; Operation;
                         StoreInst Operation (Storage out w) 0] s) /\
    eval mem Operation
    = evalBinOp w BinaryOp (wrap w (mem a)) (wrap w (mem b)).
Proof.
  intros Hop Hsize Hvars Hs.
  destruct Opcode; try discriminate Hop; injection Hsize as <-;
    (eexists; split; [reflexivity|]; split; [|reflexivity];
     unfold translate;
     cbn [InArguments opcode ConstArguments OutArguments toVector];
     unfold LoadArgs; rewrite !Hvars;
     eapply bind_Done; [exec|]; cbv beta iota zeta;
     eapply bind_Done; [unfold translateOpcode; exec|]; cbv beta iota zeta;
     eapply bind_Done; [reflexivity|]; cbv beta iota zeta;
     eapply bind_Done; [|reflexivity];
     cbn [for_ length]; unfold storeResult; cbn [OutArguments];
     eapply bind_Done; [|reflexivity];
     eapply bind_Done; [reflexivity|]; cbv beta iota zeta;
     eapply bind_Done; [reflexivity|]; cbv beta iota zeta;
     rewrite !Hvars;
     eapply bind_Done; [exec|]; cbv beta iota zeta;
     destruct (isPCReg JumpTargets _); reflexivity).
Qed.

Lemma translate_binary_operation_witness :
  exists BinaryOp,
    opcodeToBinaryOp PTC_INSTRUCTION_op_sub_i32 = Done BinaryOp /\
    let Operation := BinaryOperator BinaryOp (loadOf 1 32) (loadOf 2 32) in
    translate exampleVariables exampleJumpTargets examplePTC exampleModule
      exampleArchitecture exampleArchitecture
      {| opcode := PTC_INSTRUCTION_op_sub_i32; InArguments := [1; 2];
         ConstArguments := []; OutArguments := [7] |} 4096 entryState
    = Done (false,
            appendInsts [loadOf 1 32; loadOf 2 32; Operation;
                         StoreInst Operation (Storage 7 32) 0] entryState) /\
    eval (operands 5 9) Operation
    = evalBinOp 32 BinaryOp (wrap 32 5) (wrap 32 9).
Proof.
  apply (translate_binary_operation exampleVariables exampleJumpTargets
           examplePTC exampleModule exampleArchitecture exampleArchitecture
           PTC_INSTRUCTION_op_sub_i32 32 1 2 7 4096 [] entryState
           (operands 5 9)).
  - reflexivity.
  - reflexivity.
  - reflexivity.
  - apply validInsertPoint_entryState.
Defined.

(** ** The number of results *)

Lemma yields_bind {A B} n (m : M A) (k : A -> M (ErrorOr (list B))) :
  (forall a, yields n (k a)) -> yields n (bind m k).
Proof.
  intros Hk s r s' H. apply bind_inv in H as (a & s1 & _ & H).
  exact (Hk a _ _ _ H).
Qed.

Lemma yields_ret_Values {A} (l : list A) : yields (length l) (ret (Values l)).
Proof. intros s r s' H. injection H as <- _. reflexivity. Qed.

Lemma yields_ret_Error {A} n e : yields n (ret (@Error (list A) e)).
Proof. intros s r s' H. discriminate H. Qed.

Lemma yields_fatal {A} n msg : yields n (@fatal (ErrorOr (list A)) msg).
Proof. intros s r s' H. discriminate H. Qed.

Lemma yields_undefined {A} n msg :
  yields n (@undefined (ErrorOr (list A)) msg).
Proof. intros s r s' H. discriminate H. Qed.

Ltac arity_walk :=
  lazymatch goal with
  | |- yields _ (bind _ _) => apply yields_bind; intros; arity_walk
  | |- yields _ (ret (Values ?l)) => exact (yields_ret_Values l)
  | |- yields _ (ret (Error _)) => apply yields_ret_Error
  | |- yields _ (fatal _) => apply yields_fatal
  | |- yields _ (undefined _) => apply yields_undefined
  | |- yields _ (if ?b then _ else _) =>
      lazymatch b with
      | context [@bool_decide (@eq PTCOpcode _ _) _] =>
          let b' := eval vm_compute in b in
          change b with b'; cbv iota; arity_walk
      | _ => destruct b; arity_walk
      end
  | |- yields _ (match ?x with _ => _ end) => destruct x; arity_walk
  | |- _ =>
      progress (cbv beta iota zeta; unfold v, llvm_unreachable);
      arity_walk
  end.

Lemma translateOpcode_arity
    (Variables : VariableManager) (JumpTargets : JumpTargetManager)
    (ptc : PTCInterface) (Source Target : Architecture)
    Opcode ConstArguments InArguments :
  yields (arity Opcode)
    (translateOpcode Variables JumpTargets ptc Source Target
       Opcode ConstArguments InArguments).
Proof.
  destruct Opcode; unfold translateOpcode; arity_walk.
Qed.

(** X21.  Every opcode has a fixed number of results, whatever its
    arguments: none for the stores, labels, branches and exits, two for the
    double-word operations, one otherwise.  [translate] goes through to the
    end (returns [false]) only for an instruction that has exactly that
    many output operands. *)
Theorem translate_output_count
    (Variables : VariableManager) (JumpTargets : JumpTargetManager)
    (ptc : PTCInterface) (TheModule : LLVMModule)
    (Source Target : Architecture)
    (TheInstruction : PTCInstruction) (PC : Z) (s s' : TranslatorState) :
  translate Variables JumpTargets ptc TheModule Source Target
    TheInstruction PC s = Done (false, s') ->
  length (OutArguments TheInstruction) = arity (opcode TheInstruction).
Proof.
  intros H. unfold translate in H.
  apply bind_inv in H as (InArgs & s0 & _ & H).
  apply bind_inv in H as (Result & s1 & Hop & H).
  destruct Result as [Result | e].
  - apply translateOpcode_arity in Hop.
    apply bind_inv in H as ([] & s2 & Hassert & _).
    unfold Assert in Hassert.
    destruct (bool_decide _) eqn:E; [|discriminate Hassert].
    apply bool_decide_eq_true in E. congruence.
  - apply bind_inv in H as ([] & s2 & _ & H).
    apply bind_inv in H as (call & s3 & _ & H).
    apply bind_inv in H as (unreachable & s4 & _ & H).
    discriminate H.
Qed.

Lemma translate_output_count_witness :
  length
    (OutArguments
       {| opcode := PTC_INSTRUCTION_op_sub_i32; InArguments := [1; 2];
          ConstArguments := []; OutArguments := [7] |})
  = arity
      (opcode
         {| opcode := PTC_INSTRUCTION_op_sub_i32; InArguments := [1; 2];
            ConstArguments := []; OutArguments := [7] |}).
Proof.
  apply (translate_output_count exampleVariables exampleJumpTargets
           examplePTC exampleModule exampleArchitecture exampleArchitecture
           _ 4096 entryState
           (appendInsts
              [loadOf 1 32; loadOf 2 32;
               BinaryOperator Sub (loadOf 1 32) (loadOf 2 32);
               StoreInst (BinaryOperator Sub (loadOf 1 32) (loadOf 2 32))
                 (Storage 7 32) 0] entryState)).
  reflexivity.
Defined.

(** ** Helper calls *)

(** X22.  A helper call loads every input temporary in order, calls
    [helper_<name>] with the loaded values and, when there is an output
    temporary, stores the result of the call into it; the call returns
    nothing when there is no output.  More than one output is a fatal
    error. *)
Theorem translateCall_emits
    (Variables : VariableManager) (TheCall : CallInstruction.t)
    (w : Z) (s : TranslatorState) :
  (forall id, getOrCreate Variables id = Storage id w) ->
  validInsertPoint s ->
  let loads := inputLoads Variables (CallInstruction.InArguments TheCall) in
  let callee := "helper_" +:+ CallInstruction.helperName TheCall in
  translateCall Variables TheCall s
  = match CallInstruction.OutArguments TheCall with
    | [] =>
        Done (tt, appendInsts (loads ++ [CallInst callee VoidTy loads]) s)
    | [out] =>
        let Call := CallInst callee (IntegerTy w) loads in
        Done (tt, appendInsts
                    (loads ++ [Call; StoreInst Call (Storage out w) 0]) s)
    | _ => Fatal "TheCall.OutArguments.size() <= 1"
    end.
Proof.
  intros Hvars Hs loads callee.
  assert (Hloads : toVector Variables (CallInstruction.InArguments TheCall) s
                   = Done (loads, appendInsts loads s)).
  { apply toVector_loads; [exact Hs|].
    apply Forall_forall. intros id _. rewrite Hvars. reflexivity. }
  pose proof (validInsertPoint_appendInsts loads s Hs) as Hs1.
  unfold translateCall.
  eapply bind_Done; [exact Hloads|]. cbv beta iota zeta.
  destruct (CallInstruction.OutArguments TheCall) as [|out [|out2 rest]].
  - eapply bind_Done; [reflexivity|]. cbv beta iota zeta.
    eapply bind_Done; [reflexivity|]. cbv beta iota zeta.
    eapply bind_Done; [apply Insert_valid; exact Hs1|].
    cbv beta iota zeta. rewrite appendInsts_app. reflexivity.
  - eapply bind_Done; [reflexivity|]. cbv beta iota zeta.
    eapply bind_Done.
    { simpl negb. cbv iota.
      eapply bind_Done; [reflexivity|]. cbv beta iota zeta.
      rewrite Hvars. reflexivity. }
    cbv beta iota zeta.
    eapply bind_Done; [apply Insert_valid; exact Hs1|].
    cbv beta iota zeta. simpl negb. cbv iota.
    eapply bind_Done; [|reflexivity].
    unfold IRBuilder.CreateStore, IRBuilder.CreateAlignedStore.
    cbn [typeOf bitsOf IRBuilder.isIntegerTy].
    rewrite bool_decide_eq_true_2 by reflexivity.
    eapply bind_Done; [reflexivity|].
    rewrite appendInsts_app.
    apply Insert_valid. apply validInsertPoint_appendInst. exact Hs1.
  - reflexivity.
Qed.

Lemma translateCall_emits_witness :
  let loads := inputLoads exampleVariables [1; 2] in
  let callee := "helper_" +:+ "raise_exception" in
  translateCall exampleVariables
    {| CallInstruction.helperName := "raise_exception";
       CallInstruction.InArguments := [1; 2];
       CallInstruction.OutArguments := [5] |} entryState
  = let Call := CallInst callee (IntegerTy 32) loads in
    Done (tt, appendInsts
                (loads ++ [Call; StoreInst Call (Storage 5 32) 0])
                entryState).
Proof.
  apply (translateCall_emits exampleVariables
           {| CallInstruction.helperName := "raise_exception";
              CallInstruction.InArguments := [1; 2];
              CallInstruction.OutArguments := [5] |} 32 entryState).
  - reflexivity.
  - apply validInsertPoint_entryState.
Defined.

(** ** Removing the markers *)

Lemma filter_all {A} (P : A -> Prop) `{!forall x, Decision (P x)} (l : list A) :
  Forall P l -> filter P l = l.
Proof.
  induction 1 as [|x l Hx _ IH]; [reflexivity|].
  rewrite filter_cons_True by exact Hx. rewrite IH. reflexivity.
Qed.

(** X23.  The markers leave no trace: in a state without markers, the
    marker [newInstruction] opens is taken out again by
    [removeNewPCMarkers], which gives every block back as it was and
    leaves no marker in any block. *)
Theorem markers_leave_no_trace (s : TranslatorState) (PC : Z) :
  validInsertPoint s -> markerFree s ->
  exists s1 s2,
    openMarker PC s = Done (tt, s1) /\
    ~ markerFree s1 /\
    removeNewPCMarkers s1 = Done (tt, s2) /\
    heap s2 = heap s /\
    markerFree s2.
Proof.
  intros [bb Hbb] Hfree.
  set (call := CallInst "newpc" VoidTy [ConstantInt 64 PC; ConstantInt 64 0]).
  set (s1 := with_LastMarker
               (Some (insertBlock s, length (bbInsts bb)))
               (IRBuilder.appendInst call s)).
  assert (Hheap :
    (fun bb => mkBasicBlock (bbName bb)
       (filter (fun I => isNewPCMarkerCall I = false) (bbInsts bb)))
      <$> heap s1 = heap s).
  { apply map_eq. intros b. rewrite lookup_fmap.
    unfold s1. destruct s as [h ? ? ib ? ? ? ? ?]. simpl in *.
    destruct (decide (b = ib)) as [-> | Hne].
    - rewrite lookup_alter_eq, Hbb. simpl.
      rewrite filter_app, (filter_all _ _ (Hfree ib bb Hbb)).
      rewrite filter_cons_False by (simpl; discriminate).
      rewrite filter_nil, app_nil_r. destruct bb; reflexivity.
    - rewrite lookup_alter_ne by congruence.
      destruct (h !! b) as [bb'|] eqn:E; [|reflexivity]. simpl.
      rewrite (filter_all _ _ (Hfree b bb' E)). destruct bb'; reflexivity. }
  exists s1, (with_heap (heap s) s1).
  split.
  { unfold openMarker, bind, get, IRBuilder.CreateCall, IRBuilder.Insert, modify.
    unfold bind, get, modify, ret. rewrite Hbb. reflexivity. }
  split.
  { intros Hfree1.
    assert (Hin : heap s1 !! insertBlock s
                  = Some (mkBasicBlock (bbName bb) (bbInsts bb ++ [call]))).
    { unfold s1. destruct s as [h ? ? ib ? ? ? ? ?]. simpl in *.
      rewrite lookup_alter_eq, Hbb. reflexivity. }
    specialize (Hfree1 _ _ Hin). simpl in Hfree1.
    apply Forall_app in Hfree1 as [_ Hcall].
    inversion Hcall as [|? ? Hc _]. discriminate Hc. }
  split.
  { unfold removeNewPCMarkers, modify. rewrite Hheap. reflexivity. }
  split; [reflexivity|].
  intros b bb' Hb. exact (Hfree b bb' Hb).
Qed.

Lemma markers_leave_no_trace_witness :
  exists s1 s2,
    openMarker 4096 entryState = Done (tt, s1) /\
    ~ markerFree s1 /\
    removeNewPCMarkers s1 = Done (tt, s2) /\
    heap s2 = heap entryState /\
    markerFree s2.
Proof.
  apply (markers_leave_no_trace entryState 4096).
  - apply validInsertPoint_entryState.
  - intros b bb Hb. unfold entryState in Hb. cbn [heap] in Hb.
    apply lookup_singleton_Some in Hb as [_ <-]. constructor.
Defined.

(** ** Accesses to guest memory *)

Section GuestMemory.

Context (Variables : VariableManager) (JumpTargets : JumpTargetManager).
Context (ptc : PTCInterface) (Source Target : Architecture).

(** X24.  A guest load casts its input to a pointer to the access size,
    loads through it with alignment 1 for an unaligned access and the
    source's default alignment otherwise, swaps the bytes of what it loaded
    when the two architectures differ in endianess and the access is wider
    than a byte, and extends the result to the register width, signed or
    unsigned as the access says.  An access of the register width needs no
    extension; a wider one is a fatal error. *)
Theorem guest_load_shape w c0 a m s :
  w = 32 \/ w = 64 ->
  let MemoryAccess := parse_load_store_arg ptc c0 in
  access_type MemoryAccess <> PTC_MEMORY_ACCESS_UNKNOWN ->
  memoryBits (ptc_get_memory_access_size ptc (type_ MemoryAccess)) = Some m ->
  validInsertPoint s ->
  let Alignment :=
    if bool_decide (access_type MemoryAccess = PTC_MEMORY_ACCESS_UNALIGNED)
    then 1 else defaultAlignment Source in
  let swap :=
    negb (m =? 8)
    && negb (bool_decide (endianess Source = endianess Target)) in
  let Pointer := CastInst IntToPtr (loadOf a w) (PointerTy m) in
  let Load := LoadInst Pointer Alignment in
  let Swapped :=
    CallInst ("llvm.bswap.i" +:+ pretty (Z.to_N m)) (IntegerTy m) [Load] in
  let Loaded := if swap then Swapped else Load in
  let Extended :=
    CastInst (if ptc_is_sign_extended_load ptc (type_ MemoryAccess)
              then SExt else ZExt) Loaded (IntegerTy w) in
  translateOpcode Variables JumpTargets ptc Source Target
    (op_qemu_ld w) [c0] [loadOf a w] s
  = if w <? m then Fatal "Invalid cast"
    else
      Done (Values [if m =? w then Loaded else Extended],
            appendInsts
              ([Pointer; Load] ++ (if swap then [Swapped] else [])
               ++ (if m =? w then [] else [Extended])) s).
Proof.
  intros Hw MemoryAccess Hknown Hm Hs
    Alignment swap Pointer Load Swapped Loaded Extended.
  subst Extended Loaded Swapped Load Pointer swap Alignment MemoryAccess.
  destruct (ptc_get_memory_access_size ptc _) eqn:Hsize;
    try discriminate Hm; injection Hm as <-;
    destruct Hw as [-> | ->];
    destruct (ptc_is_sign_extended_load ptc _) eqn:Hsign;
    destruct (bool_decide (endianess Source = endianess Target)) eqn:Hend;
    (unfold translateOpcode, op_qemu_ld, CreateCall_bswap; simpl (_ =? _);
     cbv iota;
     do 3 (eapply bind_Done; [reflexivity|]; cbv beta iota zeta);
     rewrite (bool_decide_eq_false_2 _ Hknown);
     eapply bind_Done; [reflexivity|]; cbv beta iota zeta;
     rewrite Hsize;
     eapply bind_Done; [reflexivity|]; cbv beta iota zeta;
     rewrite Hend, Hsign;
     repeat match goal with
            | |- context [if ?b then Some ?x else None] =>
                let b' := eval vm_compute in b in
                change b with b'; cbv beta iota
            end;
     first [ exec
           | simpl (_ <? _); cbv iota;
             repeat (eapply bind_Done; [exec|]; cbv beta iota zeta);
             reflexivity ]).
Qed.

(** X25.  A guest store casts its second input to a pointer to the access
    size, truncates its first input to that size, swaps its bytes when the
    two architectures differ in endianess and the access is wider than a
    byte, and stores it with the alignment of the access.  A value of the
    access size is stored as it is; an access wider than the register is a
    fatal error. *)
Theorem guest_store_shape w c0 v a m s :
  w = 32 \/ w = 64 ->
  let MemoryAccess := parse_load_store_arg ptc c0 in
  access_type MemoryAccess <> PTC_MEMORY_ACCESS_UNKNOWN ->
  memoryBits (ptc_get_memory_access_size ptc (type_ MemoryAccess)) = Some m ->
  validInsertPoint s ->
  let Alignment :=
    if bool_decide (access_type MemoryAccess = PTC_MEMORY_ACCESS_UNALIGNED)
    then 1 else defaultAlignment Source in
  let swap :=
    negb (m =? 8)
    && negb (bool_decide (endianess Source = endianess Target)) in
  let Pointer := CastInst IntToPtr (loadOf a w) (PointerTy m) in
  let Truncated :=
    if m =? w then loadOf v w else CastInst Trunc (loadOf v w) (IntegerTy m) in
  let Swapped :=
    CallInst ("llvm.bswap.i" +:+ pretty (Z.to_N m)) (IntegerTy m)
      [Truncated] in
  let Stored := if swap then Swapped else Truncated in
  translateOpcode Variables JumpTargets ptc Source Target
    (op_qemu_st w) [c0] [loadOf v w; loadOf a w] s
  = if w <? m then Fatal "Invalid cast"
    else
      Done (Values [],
            appendInsts
              ([Pointer] ++ (if m =? w then [] else [Truncated])
               ++ (if swap then [Swapped] else [])
               ++ [StoreInst Stored Pointer Alignment]) s).
Proof.
  intros Hw MemoryAccess Hknown Hm Hs
    Alignment swap Pointer Truncated Swapped Stored.
  subst Stored Swapped Truncated Pointer swap Alignment MemoryAccess.
  destruct (ptc_get_memory_access_size ptc _) eqn:Hsize;
    try discriminate Hm; injection Hm as <-;
    destruct Hw as [-> | ->];
    destruct (bool_decide (endianess Source = endianess Target)) eqn:Hend;
    (unfold translateOpcode, op_qemu_st, CreateCall_bswap; simpl (_ =? _);
     cbv iota;
     do 3 (eapply bind_Done; [reflexivity|]; cbv beta iota zeta);
     rewrite (bool_decide_eq_false_2 _ Hknown);
     eapply bind_Done; [reflexivity|]; cbv beta iota zeta;
     rewrite Hsize;
     eapply bind_Done; [reflexivity|]; cbv beta iota zeta;
     rewrite Hend;
     repeat match goal with
            | |- context [if ?b then Some ?x else None] =>
                let b' := eval vm_compute in b in
                change b with b'; cbv beta iota
            end;
     first [ exec
           | simpl (_ <? _); cbv iota;
             repeat (eapply bind_Done; [exec|]; cbv beta iota zeta);
             reflexivity ]).
Qed.

End GuestMemory.

Lemma guest_load_shape_witness :
  let Pointer := CastInst IntToPtr (loadOf 1 64) (PointerTy 32) in
  let Load := LoadInst Pointer 4 in
  let Swapped := CallInst "llvm.bswap.i32" (IntegerTy 32) [Load] in
  let Extended := CastInst ZExt Swapped (IntegerTy 64) in
  translateOpcode exampleVariables exampleJumpTargets examplePTC
    exampleArchitecture bigEndianArchitecture
    (op_qemu_ld 64) [0] [loadOf 1 64] entryState
  = Done (Values [Extended],
          appendInsts [Pointer; Load; Swapped; Extended] entryState).
Proof.
  apply (guest_load_shape exampleVariables exampleJumpTargets examplePTC
           exampleArchitecture bigEndianArchitecture
           64 0 1 32 entryState).
  - right; reflexivity.
  - discriminate.
  - reflexivity.
  - apply validInsertPoint_entryState.
Defined.

Lemma guest_store_shape_witness :
  translateOpcode exampleVariables exampleJumpTargets examplePTC
    exampleArchitecture exampleArchitecture
    (op_qemu_st 32) [0] [loadOf 1 32; loadOf 2 32] entryState
  = Done (Values [],
          appendInsts
            [CastInst IntToPtr (loadOf 2 32) (PointerTy 32);
             StoreInst (loadOf 1 32)
               (CastInst IntToPtr (loadOf 2 32) (PointerTy 32)) 4]
            entryState).
Proof.
  apply (guest_store_shape exampleVariables exampleJumpTargets examplePTC
           exampleArchitecture exampleArchitecture
           32 0 1 2 32 entryState).
  - left; reflexivity.
  - discriminate.
  - reflexivity.
  - apply validInsertPoint_entryState.
Defined.

(** ** Two instructions in a row *)

Lemma instructionAt_appendInst s loc I J :
  instructionAt s loc = Some I ->
  instructionAt (IRBuilder.appendInst J s) loc = Some I.
Proof.
  unfold instructionAt, IRBuilder.appendInst.
  destruct s as [h ? ? ib ? ? ? ? ?]. simpl.
  destruct (h !! loc.1) as [bb|] eqn:Hbb; [|discriminate]. simpl.
  intros HI. destruct (decide (loc.1 = ib)) as [<- | Hne].
  - rewrite lookup_alter_eq, Hbb. simpl.
    apply lookup_app_l_Some. exact HI.
  - rewrite lookup_alter_ne by congruence. rewrite Hbb. exact HI.
Qed.

Lemma instructionAt_appendInsts Is : forall s loc I,
  instructionAt s loc = Some I ->
  instructionAt (appendInsts Is s) loc = Some I.
Proof.
  induction Is as [|J Is IH]; intros s loc I HI; [exact HI|].
  apply IH. apply instructionAt_appendInst. exact HI.
Qed.

Lemma LastMarker_appendInsts Is : forall s,
  LastMarker (appendInsts Is s) = LastMarker s.
Proof.
  induction Is as [|J Is IH]; intros s; [reflexivity|].
  change (appendInsts (J :: Is) s)
    with (appendInsts Is (IRBuilder.appendInst J s)).
  rewrite IH. destruct s; reflexivity.
Qed.

Lemma JumpTargetsLog_appendInsts Is : forall s,
  JumpTargetsLog (appendInsts Is s) = JumpTargetsLog s.
Proof.
  induction Is as [|J Is IH]; intros s; [reflexivity|].
  change (appendInsts (J :: Is) s)
    with (appendInsts Is (IRBuilder.appendInst J s)).
  rewrite IH. destruct s; reflexivity.
Qed.

Lemma openMarker_run PC s bb :
  heap s !! insertBlock s = Some bb ->
  openMarker PC s
  = Done (tt,
          with_LastMarker (Some (insertBlock s, length (bbInsts bb)))
            (IRBuilder.appendInst
               (CallInst "newpc" VoidTy [ConstantInt 64 PC; ConstantInt 64 0])
               s)).
Proof.
  intros Hbb.
  unfold openMarker, bind, get, IRBuilder.CreateCall, IRBuilder.Insert, modify.
  unfold bind, get, modify, ret. rewrite Hbb. reflexivity.
Qed.

Lemma closeLastInstruction_valid PC s s' :
  closeLastInstruction PC s = Done (tt, s') ->
  validInsertPoint s -> validInsertPoint s'.
Proof.
  unfold closeLastInstruction, bind, get.
  destruct (LastMarker s) as [loc|]; [|discriminate].
  destruct (instructionAt s loc) as [[]|]; try discriminate.
  unfold at_. destruct (args !! 0%nat) as [Operand|]; [|discriminate].
  unfold ret. destruct (asConstantInt Operand) as [val|]; [|discriminate].
  unfold Assert. destruct (getLimitedValue val <? PC); [|discriminate].
  unfold ret, modify. intros H. injection H as <-.
  intros [bb Hbb]. unfold validInsertPoint, setArgOperand.
  destruct s as [h ? ? ib ? ? ? ? ?]. simpl in *.
  destruct (decide (loc.1 = ib)) as [-> | Hne].
  - rewrite lookup_alter_eq, Hbb. eexists; reflexivity.
  - rewrite lookup_alter_ne by congruence. eexists; exact Hbb.
Qed.

(** X26.  Two instructions in a row, with anything appended to the block
    in between: the first call of [newInstruction] opens a marker at [A];
    the call for the next instruction, at [B > A], gives that marker the
    length [B - A], opens a marker of length 0 at [B], keeps it as the
    last marker and registers it for [B]. *)
Theorem consecutive_instructions
    (JumpTargets : JumpTargetManager) (First Next : PTCInstruction)
    (A B : Z) (Is : list Value) (s : TranslatorState) :
  ConstArguments First = [A] -> ConstArguments Next = [B] ->
  0 <= A < B -> B < 2 ^ 64 ->
  (newPC JumpTargets B).1 = None ->
  LastMarker s = None -> validInsertPoint s ->
  exists s1 s2 loc1 loc2,
    newInstruction JumpTargets First true s = Done ((false, A), s1) /\
    newInstruction JumpTargets Next false (appendInsts Is s1)
    = Done ((false, B), s2) /\
    instructionAt s2 loc1
    = Some (CallInst "newpc" VoidTy
              [ConstantInt 64 A; ConstantInt 64 (B - A)]) /\
    instructionAt s2 loc2
    = Some (CallInst "newpc" VoidTy [ConstantInt 64 B; ConstantInt 64 0]) /\
    LastMarker s2 = Some loc2 /\
    JumpTargetsLog s2 = JumpTargetsLog s ++ [registerInstruction B loc2].
Proof.
  intros HA HB HAB HB64 Hnew HL Hs.
  (* the first instruction *)
  destruct (openMarker_valid s A Hs) as (s1 & loc1 & Hopen1 & HL1 & HI1).
  assert (Hrun1 : newInstruction JumpTargets First true s
                  = Done ((false, A), s1)).
  { rewrite (newInstruction_first JumpTargets First A s HA HL).
    eapply bind_Done; [exact Hopen1|]. reflexivity. }
  assert (Hlog1 : JumpTargetsLog s1 = JumpTargetsLog s).
  { apply openMarker_inv in Hopen1 as (? & _ & _ & Hlog & _). exact Hlog. }
  assert (Hs1 : validInsertPoint s1).
  { apply openMarker_inv in Hopen1 as (? & _ & _ & _ & Hempty).
    unfold IRBuilder.empty, bind, get in Hempty.
    destruct (heap s1 !! insertBlock s1) eqn:E; [|discriminate].
    eexists; exact E. }
  (* what has been appended since *)
  set (t := appendInsts Is s1).
  assert (Ht : validInsertPoint t)
    by (apply validInsertPoint_appendInsts; exact Hs1).
  assert (HLt : LastMarker t = Some loc1)
    by (unfold t; rewrite LastMarker_appendInsts; exact HL1).
  assert (HIt : instructionAt t loc1
                = Some (CallInst "newpc" VoidTy
                          [ConstantInt 64 A; ConstantInt 64 0]))
    by (apply instructionAt_appendInsts; exact HI1).
  (* closing the first marker *)
  destruct (closeLastInstruction_open t loc1 "newpc" VoidTy (ConstantInt 64 0)
              A B HLt HIt ltac:(lia) ltac:(lia)) as [Hclose _].
  destruct (Hclose ltac:(lia)) as (u & Hu & HLu & HIu).
  pose proof (closeLastInstruction_valid _ _ _ Hu Ht) as [bb Hbb].
  pose proof (closeLastInstruction_log _ _ _ Hu) as Hlogu.
  (* opening the second *)
  pose proof (openMarker_run B u bb Hbb) as Hopen2.
  set (call := CallInst "newpc" VoidTy [ConstantInt 64 B; ConstantInt 64 0])
    in *.
  set (loc2 := (insertBlock u, length (bbInsts bb))) in *.
  set (u2 := with_LastMarker (Some loc2) (IRBuilder.appendInst call u)) in *.
  destruct (openMarker_inv _ _ _ Hopen2) as (loc2' & HL2 & HI2 & Hlog2 & Hempty).
  assert (loc2' = loc2) as -> by (unfold u2 in HL2; simpl in HL2; congruence).
  exists s1, (with_JumpTargetsLog
                (JumpTargetsLog u2 ++ [registerInstruction B loc2]) u2),
         loc1, loc2.
  split; [exact Hrun1|]. split.
  { fold t. clearbody t. unfold newInstruction. rewrite HB.
    do 2 (eapply bind_Done; [reflexivity|]; cbv beta iota zeta).
    destruct (newPC JumpTargets B) as [[D|] c]; [discriminate Hnew|].
    do 2 (eapply bind_Done; [reflexivity|]; cbv beta iota zeta).
    rewrite HLt.
    eapply bind_Done; [exact Hu|]. cbv beta iota zeta.
    eapply bind_Done; [exact Hopen2|]. cbv beta iota zeta.
    eapply bind_Done; [|reflexivity].
    simpl negb. cbv iota.
    eapply bind_Done; [reflexivity|]. cbv beta iota zeta.
    eapply bind_Done; [exact Hempty|]. cbv beta iota zeta.
    rewrite HL2. reflexivity. }
  split.
  { assert (H : instructionAt u2 loc1
                = Some (CallInst "newpc" VoidTy
                          [ConstantInt 64 A; ConstantInt 64 (B - A)])).
    { unfold u2.
      pose proof (instructionAt_appendInst u loc1 _ call HIu) as H.
      destruct (IRBuilder.appendInst call u); exact H. }
    destruct u2; exact H. }
  split; [destruct u2; exact HI2|].
  split; [destruct u2; exact HL2|].
  change (JumpTargetsLog u2 ++ [registerInstruction B loc2]
          = JumpTargetsLog s ++ [registerInstruction B loc2]).
  rewrite Hlog2, Hlogu. unfold t.
  rewrite JumpTargetsLog_appendInsts, Hlog1. reflexivity.
Qed.

Lemma consecutive_instructions_witness :
  exists s1 s2 loc1 loc2,
    newInstruction exampleJumpTargets
      {| opcode := PTC_INSTRUCTION_op_debug_insn_start; InArguments := [];
         ConstArguments := [4096]; OutArguments := [] |} true entryState
    = Done ((false, 4096), s1) /\
    newInstruction exampleJumpTargets
      {| opcode := PTC_INSTRUCTION_op_debug_insn_start; InArguments := [];
         ConstArguments := [4100]; OutArguments := [] |} false
      (appendInsts [loadOf 1 32] s1)
    = Done ((false, 4100), s2) /\
    instructionAt s2 loc1
    = Some (CallInst "newpc" VoidTy
              [ConstantInt 64 4096; ConstantInt 64 (4100 - 4096)]) /\
    instructionAt s2 loc2
    = Some (CallInst "newpc" VoidTy [ConstantInt 64 4100; ConstantInt 64 0]) /\
    LastMarker s2 = Some loc2 /\
    JumpTargetsLog s2
    = JumpTargetsLog entryState ++ [registerInstruction 4100 loc2].
Proof.
  apply (consecutive_instructions exampleJumpTargets _ _ 4096 4100
           [loadOf 1 32] entryState).
  - reflexivity.
  - reflexivity.
  - lia.
  - lia.
  - reflexivity.
  - reflexivity.
  - apply validInsertPoint_entryState.
Defined.

(** ** Moves and opcodes without a translation *)

(** X27.  A move returns its input when the input has the register width
    and emits nothing; a wider input is truncated to the register width; a
    narrower one cannot be moved: building the truncation is a fatal
    error. *)
Theorem mov_semantics
    (Variables : VariableManager) (JumpTargets : JumpTargetManager)
    (ptc : PTCInterface) (Source Target : Architecture)
    (w a p : Z) (ConstArgs : list Z) (s : TranslatorState) (mem : Z -> Z) :
  w = 32 \/ w = 64 -> validInsertPoint s ->
  let Truncated := CastInst Trunc (loadOf a p) (IntegerTy w) in
  translateOpcode Variables JumpTargets ptc Source Target
    (op_mov w) ConstArgs [loadOf a p] s
  = (if p <? w then Fatal "Invalid cast"
     else if p =? w then Done (Values [loadOf a p], s)
     else Done (Values [Truncated], IRBuilder.appendInst Truncated s)) /\
  eval mem Truncated = Some (wrap w (wrap p (mem a))).
Proof.
  intros Hw Hs Truncated. split; [|reflexivity].
  assert (Hrun : forall ty, ty = IntegerTy w ->
    (do r <- IRBuilder.CreateTrunc (loadOf a p) ty; v [r]) s
    = (if p <? w then Fatal "Invalid cast"
       else if p =? w then Done (Values [loadOf a p], s)
       else Done (Values [Truncated], IRBuilder.appendInst Truncated s))).
  { intros ty ->. unfold IRBuilder.CreateTrunc, IRBuilder.CreateCast.
    cbn [typeOf loadOf].
    destruct (Z.eqb_spec p w) as [-> | Hne].
    - rewrite Z.ltb_irrefl, bool_decide_eq_true_2 by reflexivity.
      reflexivity.
    - rewrite bool_decide_eq_false_2 by congruence.
      unfold IRBuilder.castIsValid.
      destruct (Z.ltb_spec w p), (Z.ltb_spec p w); try lia.
      + eapply bind_Done; [|reflexivity].
        eapply bind_Done; [reflexivity|]. cbv beta iota zeta.
        cbn [isConstant]. apply Insert_valid. exact Hs.
      + reflexivity. }
  destruct Hw as [-> | ->];
    (unfold translateOpcode, op_mov; simpl (_ =? _); cbv iota;
     do 4 (eapply bind_Done; [reflexivity|]; cbv beta iota zeta);
     apply Hrun; reflexivity).
Qed.

(** X28.  The dispatcher has no translation for the high-half
    multiplications, [setcond2], [brcond2], [trunc_shr], the call and
    instruction-start opcodes and any opcode outside its list: for these
    it never returns, neither a result nor the recoverable failure,
    whatever the arguments and the state. *)
Theorem untranslated_opcode_never_returns
    (Variables : VariableManager) (JumpTargets : JumpTargetManager)
    (ptc : PTCInterface) (Source Target : Architecture)
    Opcode ConstArguments InArguments s :
  isUntranslated Opcode = true ->
  stops (translateOpcode Variables JumpTargets ptc Source Target
           Opcode ConstArguments InArguments s) = true.
Proof.
  intros Hun.
  destruct (translateOpcode _ _ _ _ _ _ _ _ _) as [r| |] eqn:H;
    [exfalso|reflexivity..].
  destruct Opcode; try discriminate Hun; unfold translateOpcode in H;
    try discriminate H.
  apply bind_inv in H as (w & s1 & _ & H).
  apply bind_inv in H as (ty & s2 & _ & H).
  apply bind_inv in H as (last & s3 & _ & H).
  apply bind_inv in H as (F & s4 & _ & H).
  apply bind_inv in H as (s5 & s6 & _ & H).
  apply bind_inv in H as (T & s7 & _ & H).
  apply bind_inv in H as ([] & s8 & H & _).
  discriminate H.
Qed.

Lemma mov_semantics_witness :
  let Truncated := CastInst Trunc (loadOf 1 64) (IntegerTy 32) in
  translateOpcode exampleVariables exampleJumpTargets examplePTC
    exampleArchitecture exampleArchitecture
    (op_mov 32) [] [loadOf 1 64] entryState
  = (if 64 <? 32 then Fatal "Invalid cast"
     else if 64 =? 32 then Done (Values [loadOf 1 64], entryState)
     else Done (Values [Truncated],
                IRBuilder.appendInst Truncated entryState)) /\
  eval (operands (2 ^ 32 + 7) 0) Truncated
  = Some (wrap 32 (wrap 64 (2 ^ 32 + 7))).
Proof.
  apply (mov_semantics exampleVariables exampleJumpTargets examplePTC
           exampleArchitecture exampleArchitecture
           32 1 64 [] entryState (operands (2 ^ 32 + 7) 0)).
  - left; reflexivity.
  - apply validInsertPoint_entryState.
Defined.

Lemma untranslated_opcode_never_returns_witness :
  stops (translateOpcode exampleVariables exampleJumpTargets examplePTC
           exampleArchitecture exampleArchitecture
           PTC_INSTRUCTION_op_brcond2_i32 [8; 3] [loadOf 1 32; loadOf 2 32]
           entryState) = true.
Proof.
  apply (untranslated_opcode_never_returns exampleVariables
           exampleJumpTargets examplePTC exampleArchitecture
           exampleArchitecture PTC_INSTRUCTION_op_brcond2_i32
           [8; 3] [loadOf 1 32; loadOf 2 32] entryState).
  reflexivity.
Defined.
